(** * Lab3-Pathfinder: the grid model and the A* search

    A shallow embedding of [src/js/classes/Grid.js], [src/js/classes/Astar.js]
    and the [Node] class, with the properties of the specification proved
    (or refuted) over it.

    Modelling conventions.
    - JavaScript numbers that hold grid coordinates, costs and sizes are
      integers here ([Z]); [Infinity] is a separate constructor of [num].
    - A [Node] object lives in [grid.nodes[row][col]]; a reference to a
      [Node] (in [startNode], [endNode], [parent], [openSet], ...) is the
      index pair of that cell ([Ref]).  Two references are the same object
      exactly when the pairs are equal.
    - [undefined] and [null] are [None].
    - A method that can raise a [TypeError] returns an [outcome]; the grid
      it carries is the state of the object when the exception left it.
    - The DOM ([element], [updateVisualState], [render]) is outside the
      model. *)

From Stdlib Require Import ZArith Lia Bool.
From stdpp Require Import base tactics option numbers list.

Open Scope Z_scope.
#[local] Set Warnings "-clear-no-such-hyp".

(** ** Numbers with [Infinity] *)

Inductive num : Type :=
| Fin (z : Z)
| Infinity.

#[global] Instance num_eq_dec : EqDecision num.
Proof. solve_decision. Defined.

(** [a < b] on JavaScript numbers. *)
Definition num_ltb (a b : num) : bool :=
  match a, b with
  | Fin x, Fin y => x <? y
  | Fin _, Infinity => true
  | Infinity, _ => false
  end.

(** [a === b] on JavaScript numbers ([Infinity === Infinity] is true). *)
Definition num_eqb (a b : num) : bool :=
  match a, b with
  | Fin x, Fin y => x =? y
  | Infinity, Infinity => true
  | _, _ => false
  end.

(** [a + b] with a finite right operand. *)
Definition num_add (a : num) (b : Z) : num :=
  match a with
  | Fin x => Fin (x + b)
  | Infinity => Infinity
  end.

(** ** Node *)

Definition Ref : Type := (Z * Z)%type.

Record Node : Type := mkNode {
  row : Z;
  col : Z;
  isWall : bool;
  isStart : bool;
  isEnd : bool;
  isVisited : bool;
  isPath : bool;
  weight : Z;
  g : num;
  h : Z;
  f : num;
  parent : option Ref;
  wallType : option Z
}.

#[global] Instance Node_eq_dec : EqDecision Node.
Proof. solve_decision. Defined.

(** [new Node(row, col)]: the constructor with its default weight; the
    [wallType] property does not exist yet. *)
Definition newNode (r c : Z) : Node :=
  {| row := r; col := c; isWall := false; isStart := false; isEnd := false;
     isVisited := false; isPath := false; weight := 1;
     g := Infinity; h := 0; f := Infinity; parent := None; wallType := None |}.

(** Field assignments. *)
Definition set_isWall (b : bool) (n : Node) : Node :=
  mkNode (row n) (col n) b (isStart n) (isEnd n) (isVisited n) (isPath n)
         (weight n) (g n) (h n) (f n) (parent n) (wallType n).
Definition set_isStart (b : bool) (n : Node) : Node :=
  mkNode (row n) (col n) (isWall n) b (isEnd n) (isVisited n) (isPath n)
         (weight n) (g n) (h n) (f n) (parent n) (wallType n).
Definition set_isEnd (b : bool) (n : Node) : Node :=
  mkNode (row n) (col n) (isWall n) (isStart n) b (isVisited n) (isPath n)
         (weight n) (g n) (h n) (f n) (parent n) (wallType n).
Definition set_isVisited (b : bool) (n : Node) : Node :=
  mkNode (row n) (col n) (isWall n) (isStart n) (isEnd n) b (isPath n)
         (weight n) (g n) (h n) (f n) (parent n) (wallType n).
Definition set_isPath (b : bool) (n : Node) : Node :=
  mkNode (row n) (col n) (isWall n) (isStart n) (isEnd n) (isVisited n) b
         (weight n) (g n) (h n) (f n) (parent n) (wallType n).
Definition set_g (x : num) (n : Node) : Node :=
  mkNode (row n) (col n) (isWall n) (isStart n) (isEnd n) (isVisited n) (isPath n)
         (weight n) x (h n) (f n) (parent n) (wallType n).
Definition set_h (x : Z) (n : Node) : Node :=
  mkNode (row n) (col n) (isWall n) (isStart n) (isEnd n) (isVisited n) (isPath n)
         (weight n) (g n) x (f n) (parent n) (wallType n).
Definition set_f (x : num) (n : Node) : Node :=
  mkNode (row n) (col n) (isWall n) (isStart n) (isEnd n) (isVisited n) (isPath n)
         (weight n) (g n) (h n) x (parent n) (wallType n).
Definition set_parent (p : option Ref) (n : Node) : Node :=
  mkNode (row n) (col n) (isWall n) (isStart n) (isEnd n) (isVisited n) (isPath n)
         (weight n) (g n) (h n) (f n) p (wallType n).
Definition set_wallType (t : option Z) (n : Node) : Node :=
  mkNode (row n) (col n) (isWall n) (isStart n) (isEnd n) (isVisited n) (isPath n)
         (weight n) (g n) (h n) (f n) (parent n) t.

(** [Node.reset] and the body of [Grid.resetPathfinding]: the same six
    assignments. *)
Definition resetNode (n : Node) : Node :=
  set_parent None (set_f Infinity (set_h 0 (set_g Infinity
    (set_isPath false (set_isVisited false n))))).

(** [Node.toggleWall] *)
Definition toggleWall (n : Node) : Node :=
  if negb (isStart n) && negb (isEnd n) then set_isWall (negb (isWall n)) n
  else n.

(** [Node.setAsStart] *)
Definition setAsStart (n : Node) : Node :=
  set_isWall false (set_isEnd false (set_isStart true n)).

(** [Node.setAsEnd] *)
Definition setAsEnd (n : Node) : Node :=
  set_isWall false (set_isStart false (set_isEnd true n)).

(** The value [Node.calculateHeuristic] returns: the Manhattan distance
    between the two nodes' coordinates. *)
Definition manhattan (n e : Node) : Z :=
  Z.abs (col n - col e) + Z.abs (row n - row e).

(** [Node.calculateHeuristic]: stores the distance in [h] and returns it. *)
Definition calculateHeuristic (n e : Node) : Z * Node :=
  (manhattan n e, set_h (manhattan n e) n).

(** ** Grid *)

(** The interaction mode of the mouse handlers. *)
Inductive Mode : Type := ModeWall | ModeStart | ModeEnd | ModeWeight.

#[global] Instance Mode_eq_dec : EqDecision Mode.
Proof. solve_decision. Defined.

(** [rows] and [cols] hold whatever the caller passed: a number, or
    [undefined] ([None]) when an import payload had no such property. *)
Record Grid : Type := mkGrid {
  rows : option Z;
  cols : option Z;
  nodes : list (list Node);
  startNode : option Ref;
  endNode : option Ref;
  mouseIsPressed : bool;
  currentMode : Mode
}.

#[global] Instance Grid_eq_dec : EqDecision Grid.
Proof. solve_decision. Defined.

Definition set_rows (x : option Z) (gr : Grid) : Grid :=
  mkGrid x (cols gr) (nodes gr) (startNode gr) (endNode gr) (mouseIsPressed gr) (currentMode gr).
Definition set_cols (x : option Z) (gr : Grid) : Grid :=
  mkGrid (rows gr) x (nodes gr) (startNode gr) (endNode gr) (mouseIsPressed gr) (currentMode gr).
Definition set_nodes (x : list (list Node)) (gr : Grid) : Grid :=
  mkGrid (rows gr) (cols gr) x (startNode gr) (endNode gr) (mouseIsPressed gr) (currentMode gr).
Definition set_startNode (x : option Ref) (gr : Grid) : Grid :=
  mkGrid (rows gr) (cols gr) (nodes gr) x (endNode gr) (mouseIsPressed gr) (currentMode gr).
Definition set_endNode (x : option Ref) (gr : Grid) : Grid :=
  mkGrid (rows gr) (cols gr) (nodes gr) (startNode gr) x (mouseIsPressed gr) (currentMode gr).
Definition set_mouseIsPressed (x : bool) (gr : Grid) : Grid :=
  mkGrid (rows gr) (cols gr) (nodes gr) (startNode gr) (endNode gr) x (currentMode gr).
Definition set_currentMode (x : Mode) (gr : Grid) : Grid :=
  mkGrid (rows gr) (cols gr) (nodes gr) (startNode gr) (endNode gr) (mouseIsPressed gr) x.

(** *** Array access *)

(** [l[i]] for an index that is a number ([Some z]) or [NaN]/[undefined]
    ([None]): [undefined] unless [i] is the index of an element. *)
Definition idx {A : Type} (l : list A) (i : option Z) : option A :=
  match i with
  | Some z => if bool_decide (0 ≤ z) then l !! Z.to_nat z else None
  | None => None
  end.

(** The node a reference denotes, if it is a cell of [ns]. *)
Definition nodeAt (ns : list (list Node)) (p : Ref) : option Node :=
  match idx ns (Some p.1) with
  | Some rw => idx rw (Some p.2)
  | None => None
  end.

(** A field assignment through a reference: the node in the cell [p] is
    replaced by [fn] of it. *)
Definition updNode (p : Ref) (fn : Node → Node) (ns : list (list Node))
  : list (list Node) :=
  if bool_decide (0 ≤ p.1) && bool_decide (0 ≤ p.2)
  then alter (alter fn (Z.to_nat p.2)) (Z.to_nat p.1) ns
  else ns.

(** The values [0, 1, ..., d-1] a [for (let i = 0; i < d; i++)] loop runs
    through; no iteration when [d] is not a number. *)
Definition upto (d : option Z) : list Z :=
  match d with
  | Some n => Z.of_nat <$> seq 0 (Z.to_nat n)
  | None => []
  end.

(** *** Methods that may throw *)

Inductive outcome (A : Type) : Type :=
| Normal (a : A) (gr : Grid)
| Thrown (gr : Grid).
Arguments Normal {A} a gr.
Arguments Thrown {A} gr.

Definition M (A : Type) : Type := Grid → outcome A.

#[global] Instance M_ret : MRet M := λ A a gr, Normal a gr.
#[global] Instance M_bind : MBind M := λ A B k m gr,
  match m gr with
  | Normal a gr' => k a gr'
  | Thrown gr' => Thrown gr'
  end.

Definition throw {A : Type} : M A := λ gr, Thrown gr.
Definition modify (fn : Grid → Grid) : M unit := λ gr, Normal tt (fn gr).
Definition gets {A : Type} (fn : Grid → A) : M A := λ gr, Normal (fn gr) gr.

(** A loop over [l] whose body may throw. *)
Fixpoint forM {A : Type} (l : list A) (body : A → M unit) : M unit :=
  match l with
  | [] => mret tt
  | x :: l' => body x ;; forM l' body
  end.

(** [Grid.initializeGrid].  Every [Node] object is replaced; [startNode]
    and [endNode] keep the objects of the old array until they are assigned
    again.  The only use of such a detached object is the clearing of its
    flag at the head of [setStartNode] and [setEndNode]; in the model that
    assignment lands on the fresh node of the same cell (if any), whose flag
    is [false] already. *)
Definition initializeGrid (gr : Grid) : Grid :=
  set_nodes ((λ r, (λ c, newNode r c) <$> upto (cols gr)) <$> upto (rows gr)) gr.

(** The first statement of [setStartNode]: the flag of the previous start
    node, if there is one, is cleared. *)
Definition unsetStart (gr : Grid) : Grid :=
  match startNode gr with
  | Some p => set_nodes (updNode p (set_isStart false) (nodes gr)) gr
  | None => gr
  end.

(** [Grid.setStartNode].  [this.nodes[row][col]] throws when
    [this.nodes[row]] is [undefined]; when only the column is out of range
    it is [undefined], which is stored in [startNode] before
    [setAsStart] is called on it. *)
Definition setStartNode (r c : option Z) : M unit := λ gr,
  let gr1 := unsetStart gr in
  match idx (nodes gr1) r with
  | None => Thrown gr1
  | Some rw =>
      match idx rw c, r, c with
      | Some _, Some zr, Some zc =>
          Normal tt (set_nodes (updNode (zr, zc) setAsStart (nodes gr1))
                               (set_startNode (Some (zr, zc)) gr1))
      | _, _, _ => Thrown (set_startNode None gr1)
      end
  end.

(** The first statement of [setEndNode]. *)
Definition unsetEnd (gr : Grid) : Grid :=
  match endNode gr with
  | Some p => set_nodes (updNode p (set_isEnd false) (nodes gr)) gr
  | None => gr
  end.

(** [Grid.setEndNode] *)
Definition setEndNode (r c : option Z) : M unit := λ gr,
  let gr1 := unsetEnd gr in
  match idx (nodes gr1) r with
  | None => Thrown gr1
  | Some rw =>
      match idx rw c, r, c with
      | Some _, Some zr, Some zc =>
          Normal tt (set_nodes (updNode (zr, zc) setAsEnd (nodes gr1))
                               (set_endNode (Some (zr, zc)) gr1))
      | _, _, _ => Thrown (set_endNode None gr1)
      end
  end.

(** [Math.floor(k * d / 4)]; [NaN] when [d] is [undefined]. *)
Definition quarter (k : Z) (d : option Z) : option Z := (λ n, k * n / 4) <$> d.

(** [Grid.setDefaultStartEnd] *)
Definition setDefaultStartEnd : M unit := λ gr,
  (setStartNode (quarter 1 (rows gr)) (quarter 1 (cols gr)) ;;
   setEndNode (quarter 3 (rows gr)) (quarter 3 (cols gr))) gr.

(** [new Grid(rows, cols)] *)
Definition newGrid (r c : option Z) : outcome unit :=
  setDefaultStartEnd (initializeGrid (mkGrid r c [] None None false ModeWall)).

(** [Grid.getNode]: [null] out of bounds, else [this.nodes[row][col]]; the
    result pairs the reference with the node's fields as they are at the
    call. *)
Definition in_bounds (gr : Grid) (r c : Z) : bool :=
  bool_decide (0 ≤ r) && from_option (λ n, bool_decide (r < n)) false (rows gr)
  && bool_decide (0 ≤ c) && from_option (λ n, bool_decide (c < n)) false (cols gr).

Definition getNode (r c : Z) : M (option (Ref * Node)) := λ gr,
  if in_bounds gr r c then
    match idx (nodes gr) (Some r) with
    | None => Thrown gr
    | Some rw => Normal (pair (r, c) <$> idx rw (Some c)) gr
    end
  else Normal None gr.

(** [Grid.getRandomWallType]; [u] is the outcome of
    [Math.random() < 0.5]. *)
Definition getRandomWallType (u : bool) : Z := if u then 1 else 2.

(** The statement [this.nodes[row][col].field = ...] (or a sequence of
    them on the same cell): throws when the cell does not exist. *)
Definition touch (fn : Node → Node) (r c : Z) : M unit := λ gr,
  match nodeAt (nodes gr) (r, c) with
  | Some _ => Normal tt (set_nodes (updNode (r, c) fn (nodes gr)) gr)
  | None => Thrown gr
  end.

(** The nested loops over [this.rows] and [this.cols]. *)
Definition forCells (body : Z → Z → M unit) : M unit := λ gr,
  forM (upto (rows gr)) (λ r gr', forM (upto (cols gr')) (body r) gr') gr.

(** [Grid.resetPathfinding] *)
Definition resetPathfinding : M unit := forCells (touch resetNode).

(** [Grid.clearWalls] *)
Definition clearWall (n : Node) : Node :=
  if isWall n then set_wallType None (set_isWall false n) else n.

Definition clearWalls : M unit := forCells (touch clearWall).

(** [Grid.resetGrid] *)
Definition resetGrid : M unit := λ gr, setDefaultStartEnd (initializeGrid gr).

(** [Grid.resize] *)
Definition resize (newRows newCols : option Z) : M unit := λ gr,
  resetGrid (set_cols newCols (set_rows newRows gr)).

(** *** Mouse handlers *)

(** The wall branch of [handleMouseDown] on the clicked node. *)
Definition clickWall (u : bool) (n : Node) : Node :=
  let n' := toggleWall n in
  if isWall n' then set_wallType (Some (getRandomWallType u)) n'
  else set_wallType None n'.

(** [Grid.handleMouseDown] *)
Definition handleMouseDown (r c : Z) (u : bool) : M unit :=
  node ← getNode r c;
  match node with
  | None => mret tt
  | Some (p, n) =>
      modify (set_mouseIsPressed true) ;;
      if isStart n then modify (set_currentMode ModeStart)
      else if isEnd n then modify (set_currentMode ModeEnd)
      else modify (set_currentMode ModeWall) ;;
           modify (λ gr, set_nodes (updNode p (clickWall u) (nodes gr)) gr)
  end.

(** The wall branch of [handleMouseEnter]. *)
Definition dragWall (u : bool) (n : Node) : Node :=
  set_wallType (Some (getRandomWallType u)) (set_isWall true n).

(** [Grid.handleMouseEnter] *)
Definition handleMouseEnter (r c : Z) (u : bool) : M unit :=
  pressed ← gets mouseIsPressed;
  if negb pressed then mret tt else
  node ← getNode r c;
  match node with
  | None => mret tt
  | Some (p, n) =>
      mode ← gets currentMode;
      match mode with
      | ModeStart =>
          if negb (isEnd n) && negb (isWall n)
          then setStartNode (Some r) (Some c) else mret tt
      | ModeEnd =>
          if negb (isStart n) && negb (isWall n)
          then setEndNode (Some r) (Some c) else mret tt
      | ModeWall =>
          if negb (isStart n) && negb (isEnd n) && negb (isWall n)
          then modify (λ gr, set_nodes (updNode p (dragWall u) (nodes gr)) gr)
          else mret tt
      | ModeWeight => mret tt
      end
  end.

(** [Grid.handleMouseUp] *)
Definition handleMouseUp : M unit :=
  modify (set_mouseIsPressed false) ;; modify (set_currentMode ModeWall).

(** *** Export and import *)

Module Wall.
Record t : Type := mk { row : Z; col : Z; type : option Z }.
End Wall.

Module Data.
Record t : Type := mk {
  rows : option Z;
  cols : option Z;
  walls : option (list Wall.t);
  startNode : option Ref;
  endNode : option Ref
}.
End Data.

#[global] Instance Wall_eq_dec : EqDecision Wall.t.
Proof. solve_decision. Defined.
#[global] Instance Data_eq_dec : EqDecision Data.t.
Proof. solve_decision. Defined.

(** [x || y] on an optional number: [x] unless it is falsy ([undefined],
    [null] or [0]). *)
Definition orElse (x : option Z) (y : Z) : Z :=
  match x with
  | Some z => if bool_decide (z = 0) then y else z
  | None => y
  end.





(** Is [o] a reference object with [o.row === r && o.col === c]? *)
Definition sameCell (o : option Ref) (r c : Z) : bool :=
  match o with
  | Some p => bool_decide (p.1 = r) && bool_decide (p.2 = c)
  | None => false
  end.

(** The callback of [gridData.walls.forEach] in [loadGridData]; [u] is the
    random draw used if the entry has no usable [type]. *)
Definition restoreWall (d : Data.t) (u : bool) (w : Wall.t) : M unit :=
  node ← getNode (Wall.row w) (Wall.col w);
  match node with
  | Some (p, _) =>
      if negb (sameCell (Data.startNode d) (Wall.row w) (Wall.col w))
         && negb (sameCell (Data.endNode d) (Wall.row w) (Wall.col w))
      then modify (λ gr, set_nodes
             (updNode p (λ n, set_wallType
                                (Some (orElse (Wall.type w) (getRandomWallType u)))
                                (set_isWall true n)) (nodes gr)) gr)
      else mret tt
  | None => mret tt
  end.

(** The [else] branch of the dimension test of [loadGridData]. *)
Definition clearStartEnd : M unit :=
  modify (λ gr, match startNode gr with
                | Some p => set_startNode None
                              (set_nodes (updNode p (set_isStart false) (nodes gr)) gr)
                | None => gr
                end) ;;
  modify (λ gr, match endNode gr with
                | Some p => set_endNode None
                              (set_nodes (updNode p (set_isEnd false) (nodes gr)) gr)
                | None => gr
                end).

(** "Resize grid if necessary": the first statement of the [try] block. *)
Definition restoreDims (d : Data.t) : M unit :=
  dims ← gets (λ gr, (rows gr, cols gr));
  if bool_decide (Data.rows d ≠ dims.1) || bool_decide (Data.cols d ≠ dims.2)
  then resize (Data.rows d) (Data.cols d)
  else clearWalls ;; clearStartEnd ;; setDefaultStartEnd.

(** "Restore walls with their types"; [rnd i] is the random draw of the
    [i]-th wall entry. *)
Definition restoreWalls (d : Data.t) (rnd : nat → bool) : M unit :=
  match Data.walls d with
  | Some ws => forM (zip (seq 0 (length ws)) ws)
                    (λ iw, restoreWall d (rnd iw.1) iw.2)
  | None => mret tt
  end.

(** "Restore start and end nodes" *)
Definition restoreEnds (d : Data.t) : M unit :=
  match Data.startNode d with
  | Some p => setStartNode (Some p.1) (Some p.2)
  | None => mret tt
  end ;;
  match Data.endNode d with
  | Some p => setEndNode (Some p.1) (Some p.2)
  | None => mret tt
  end.

(** The [try] block of [loadGridData]. *)
Definition loadGridData_try (d : Data.t) (rnd : nat → bool) : M unit :=
  restoreDims d ;; restoreWalls d rnd ;; restoreEnds d.

(** [Grid.loadGridData]: [false] for a missing payload and for any
    exception of the [try] block, whose effects stay. *)
Definition loadGridData (d : option Data.t) (rnd : nat → bool) (gr : Grid)
  : bool * Grid :=
  match d with
  | None => (false, gr)
  | Some d' =>
      match loadGridData_try d' rnd gr with
      | Normal _ gr' => (true, gr')
      | Thrown gr' => (false, gr')
      end
  end.

(** ** AStar *)

(** The fields of a [Node] read through a reference.  References held by
    a search are cells of the grid (see [findPath]); for any other pair the
    model reads a fresh node. *)
Definition deref (ns : list (list Node)) (p : Ref) : Node :=
  default (newNode p.1 p.2) (nodeAt ns p).

(** [Node.isValidPosition]; [None] is the [TypeError] of
    [grid[row][col].isWall] on a missing cell of a ragged array. *)
Definition isValidPosition (r c : Z) (ns : list (list Node)) : option bool :=
  if bool_decide (0 ≤ r) && bool_decide (r < Z.of_nat (length ns))
     && bool_decide (0 ≤ c)
     && bool_decide (c < Z.of_nat (length (default [] (ns !! 0%nat))))
  then (λ n, negb (isWall n)) <$> nodeAt ns (r, c)
  else Some false.

(** The four cardinal directions, in the order of the source. *)
Definition directions : list (Z * Z) := [(-1, 0); (0, 1); (1, 0); (0, -1)].

(** [Node.getNeighbors] *)
Fixpoint getNeighbors_from (n : Node) (ns : list (list Node)) (ds : list (Z * Z))
  : option (list Ref) :=
  match ds with
  | [] => Some []
  | d :: ds' =>
      let newRow := row n + d.1 in
      let newCol := col n + d.2 in
      match isValidPosition newRow newCol ns with
      | None => None
      | Some ok =>
          (λ rest, if ok then (newRow, newCol) :: rest else rest)
            <$> getNeighbors_from n ns ds'
      end
  end.

Definition getNeighbors (n : Node) (ns : list (list Node)) : option (list Ref) :=
  getNeighbors_from n ns directions.

Record AStar : Type := mkAStar {
  grid : Grid;
  openSet : list Ref;
  closedSet : list Ref;
  path : list Ref;
  visitedNodes : list Ref;
  isRunning : bool;
  nodesExplored : Z
}.

Definition set_grid (x : Grid) (a : AStar) : AStar :=
  mkAStar x (openSet a) (closedSet a) (path a) (visitedNodes a) (isRunning a) (nodesExplored a).
Definition set_openSet (x : list Ref) (a : AStar) : AStar :=
  mkAStar (grid a) x (closedSet a) (path a) (visitedNodes a) (isRunning a) (nodesExplored a).
Definition set_closedSet (x : list Ref) (a : AStar) : AStar :=
  mkAStar (grid a) (openSet a) x (path a) (visitedNodes a) (isRunning a) (nodesExplored a).
Definition set_path (x : list Ref) (a : AStar) : AStar :=
  mkAStar (grid a) (openSet a) (closedSet a) x (visitedNodes a) (isRunning a) (nodesExplored a).
Definition set_visitedNodes (x : list Ref) (a : AStar) : AStar :=
  mkAStar (grid a) (openSet a) (closedSet a) (path a) x (isRunning a) (nodesExplored a).
Definition set_isRunning (x : bool) (a : AStar) : AStar :=
  mkAStar (grid a) (openSet a) (closedSet a) (path a) (visitedNodes a) x (nodesExplored a).
Definition set_nodesExplored (x : Z) (a : AStar) : AStar :=
  mkAStar (grid a) (openSet a) (closedSet a) (path a) (visitedNodes a) (isRunning a) x.

(** A field assignment on a node of the searched grid. *)
Definition updGrid (p : Ref) (fn : Node → Node) (a : AStar) : AStar :=
  set_grid (set_nodes (updNode p fn (nodes (grid a))) (grid a)) a.

(** [new AStar(grid)] *)
Definition newAStar (gr : Grid) : AStar := mkAStar gr [] [] [] [] false 0.

(** The test of the loop of [getLowestFNode]: does [n] replace
    [lowest]? *)
Definition better (n lowest : Node) : bool :=
  num_ltb (f n) (f lowest) || (num_eqb (f n) (f lowest) && (h n <? h lowest)).

(** [AStar.getLowestFNode]; [undefined] on an empty open set. *)
Definition getLowestFNode (ns : list (list Node)) (open : list Ref) : option Ref :=
  match open with
  | [] => None
  | first :: _ =>
      Some (fold_left (λ lowest p,
                         if better (deref ns p) (deref ns lowest) then p else lowest)
                      open first)
  end.

(** [AStar.removeFromArray]: the first occurrence is spliced out. *)
Fixpoint removeFromArray (l : list Ref) (x : Ref) : list Ref :=
  match l with
  | [] => []
  | y :: l' => if bool_decide (y = x) then l' else y :: removeFromArray l' x
  end.

(** [AStar.reconstructPath]; the [while] loop runs on [fuel], [None] when
    it is used up. *)
Fixpoint reconstructPath (fuel : nat) (ns : list (list Node))
    (currentNode : option Ref) (acc : list Ref) : option (list Ref) :=
  match currentNode with
  | None => Some acc
  | Some p =>
      match fuel with
      | O => None
      | S fuel' => reconstructPath fuel' ns (parent (deref ns p)) (p :: acc)
      end
  end.

(** The assignments of [findPath] on a neighbour reached by a better
    path: [parent], [g], [h] (through [calculateHeuristic]) and [f]. *)
Definition assignBetter (tentativeG : num) (currentNode : Ref) (endNode : Node)
    (n : Node) : Node :=
  let n1 := set_g tentativeG (set_parent (Some currentNode) n) in
  let n2 := set_h (manhattan n1 endNode) n1 in
  set_f (num_add (g n2) (h n2)) n2.

(** The body of the loop over the neighbours in [findPath]. *)
Definition relax (currentNode endNode : Ref) (a : AStar) (neighbor : Ref) : AStar :=
  let ns := nodes (grid a) in
  if bool_decide (neighbor ∈ closedSet a) || isWall (deref ns neighbor) then a
  else
    let tentativeG := num_add (g (deref ns currentNode)) (weight (deref ns neighbor)) in
    if num_ltb tentativeG (g (deref ns neighbor)) then
      let a1 := updGrid neighbor
                  (assignBetter tentativeG currentNode (deref ns endNode)) a in
      if bool_decide (neighbor ∈ openSet a1) then a1
      else set_openSet (openSet a1 ++ [neighbor]) a1
    else a.

(** The bookkeeping for the display on a node moved to the closed set. *)
Definition markVisited (currentNode : Ref) (a : AStar) : AStar :=
  let n := deref (nodes (grid a)) currentNode in
  if negb (isStart n) && negb (isEnd n) then
    set_nodesExplored (nodesExplored a + 1)
      (set_visitedNodes (visitedNodes a ++ [currentNode])
         (updGrid currentNode (set_isVisited true) a))
  else a.

Module Result.
Record t : Type := mk {
  path : list Ref;
  visitedNodes : list Ref;
  pathLength : Z;
  nodesExplored : Z
}.
End Result.

(** What a call of [findPath] comes to. *)
Inductive found : Type :=
| Resolved (r : option Result.t) (a : AStar)  (* the promise resolves; [None] is [null] *)
| Rejected (a : AStar)                        (* an exception escapes *)
| Detached                                    (* an endpoint is not a cell of the grid *)
| OutOfFuel.                                  (* the model's bound on a loop was reached *)

(** The number of cells of the grid. *)
Definition cellCount (ns : list (list Node)) : nat := length (concat ns).

(** The [while] loop of [findPath] with [animate = false] (no [await]
    is reached, so nothing interleaves). *)
Fixpoint findPath_loop (fuel : nat) (endNode : Ref) (a : AStar) : found :=
  match fuel with
  | O => OutOfFuel
  | S fuel' =>
      if bool_decide (0 < length (openSet a))%nat && isRunning a then
        match getLowestFNode (nodes (grid a)) (openSet a) with
        | None => Rejected a
        | Some currentNode =>
            if bool_decide (currentNode = endNode) then
              match reconstructPath (S (cellCount (nodes (grid a))))
                                    (nodes (grid a)) (Some currentNode) [] with
              | None => OutOfFuel
              | Some p =>
                  let a' := set_isRunning false (set_path p a) in
                  Resolved (Some (Result.mk p (visitedNodes a')
                                            (Z.of_nat (length p)) (nodesExplored a'))) a'
              end
            else
              let a1 := set_closedSet (closedSet a ++ [currentNode])
                          (set_openSet (removeFromArray (openSet a) currentNode) a) in
              let a2 := markVisited currentNode a1 in
              match getNeighbors (deref (nodes (grid a2)) currentNode) (nodes (grid a2)) with
              | None => Rejected a2
              | Some neighbors =>
                  findPath_loop fuel' endNode
                    (fold_left (relax currentNode endNode) neighbors a2)
              end
        end
      else Resolved None (set_isRunning false a)
  end.

(** [AStar.reset] *)
Definition reset (a : AStar) : outcome unit * AStar :=
  let a1 := set_nodesExplored 0 (set_visitedNodes [] (set_path []
              (set_closedSet [] (set_openSet [] a)))) in
  match resetPathfinding (grid a1) with
  | Normal _ gr => (Normal tt gr, set_grid gr a1)
  | Thrown gr => (Thrown gr, set_grid gr a1)
  end.

(** The initialisation of the start node in [findPath]. *)
Definition initStart (endNode : Node) (n : Node) : Node :=
  let n1 := set_g (Fin 0) n in
  let n2 := set_h (manhattan n1 endNode) n1 in
  set_f (Fin (h n2)) n2.

(** [AStar.findPath(false)] *)
Definition findPath (a : AStar) : found :=
  if isRunning a then Resolved None a else
  match startNode (grid a), endNode (grid a) with
  | Some s, Some e =>
      match reset (set_isRunning true a) with
      | (Thrown _, a1) => Rejected a1
      | (Normal _ _, a1) =>
          match nodeAt (nodes (grid a1)) s, nodeAt (nodes (grid a1)) e with
          | Some _, Some ne =>
              let a2 := updGrid s (initStart ne) a1 in
              let a3 := set_openSet (openSet a2 ++ [s]) a2 in
              findPath_loop (S (cellCount (nodes (grid a3)))) e a3
          | _, _ => Detached
          end
      end
  | _, _ => Resolved None a
  end.

(** [AStar.stop] *)
Definition stop (a : AStar) : AStar := set_isRunning false a.

(** ** Vocabulary of the specification *)

(** The [(row, col)] fields of the nodes, as an array of the same form. *)
Definition coords (ns : list (list Node)) : list (list Ref) :=
  (λ rw : list Node, (λ n, (row n, col n)) <$> rw) <$> ns.

(** The index pairs of an array of the given dimensions. *)
Definition coordGrid (R C : option Z) : list (list Ref) :=
  (λ r, (λ c, (r, c)) <$> upto C) <$> upto R.

(** "rows×cols cells always present and consistent with rows/cols": the
    array has [rows] rows of [cols] nodes and the node in cell [(r, c)]
    carries [row = r] and [col = c]. *)
Definition shape (gr : Grid) : Prop :=
  coords (nodes gr) = coordGrid (rows gr) (cols gr).

#[global] Instance shape_dec gr : Decision (shape gr).
Proof. unfold shape. apply _. Defined.

(** All cells of the grid, row after row. *)
Definition cells (gr : Grid) : list Node := concat (nodes gr).

(** No node has more than one of the three flags. *)
Definition exclusive (n : Node) : bool :=
  negb (isStart n && isEnd n) && negb (isStart n && isWall n)
  && negb (isEnd n && isWall n).

(** The invariant of the data model, as the specification words it. *)
Definition layout_inv (gr : Grid) : Prop :=
  length (filter (λ n, isStart n = true) (cells gr)) = 1%nat ∧
  length (filter (λ n, isEnd n = true) (cells gr)) = 1%nat ∧
  Forall (λ n, exclusive n = true) (cells gr) ∧
  is_Some (startNode gr) ∧ is_Some (endNode gr) ∧
  startNode gr ≠ endNode gr.

#[global] Instance layout_inv_dec gr : Decision (layout_inv gr).
Proof. unfold layout_inv. apply _. Defined.

(** A node agrees with the designated start [s] and goal [e]. *)
Definition cell_ok (s e : Ref) (n : Node) : Prop :=
  isStart n = bool_decide ((row n, col n) = s) ∧
  isEnd n = bool_decide ((row n, col n) = e) ∧
  (isWall n = true → (row n, col n) ≠ s ∧ (row n, col n) ≠ e).

#[global] Instance cell_ok_dec s e n : Decision (cell_ok s e n).
Proof. unfold cell_ok. apply _. Defined.

(** The invariant the operations keep: the shape, two distinct cells
    referenced by [startNode] and [endNode], and flags that agree with
    these references. *)
Definition grid_inv (gr : Grid) : Prop :=
  shape gr ∧
  match startNode gr, endNode gr with
  | Some s, Some e =>
      s ≠ e ∧ is_Some (nodeAt (nodes gr) s) ∧ is_Some (nodeAt (nodes gr) e) ∧
      Forall (Forall (cell_ok s e)) (nodes gr)
  | _, _ => False
  end.

#[global] Instance grid_inv_dec gr : Decision (grid_inv gr).
Proof. unfold grid_inv. destruct (startNode gr), (endNode gr); apply _. Defined.

(** [p] is an index pair of an array of [R] rows and [C] columns. *)
Definition inb (R C : option Z) (p : Ref) : Prop :=
  match R, C with
  | Some zr, Some zc => 0 ≤ p.1 < zr ∧ 0 ≤ p.2 < zc
  | _, _ => False
  end.

#[global] Instance inb_dec R C p : Decision (inb R C p).
Proof. unfold inb. destruct R, C; apply _. Defined.

(** Hoare triples for the methods: from a grid with [P] the method
    returns normally, with [Q] of its result and the grid it leaves. *)
Definition hoare {A : Type} (P : Grid → Prop) (m : M A) (Q : A → Grid → Prop) : Prop :=
  ∀ gr, P gr → ∃ a gr', m gr = Normal a gr' ∧ Q a gr'.

(** [a <= b] on JavaScript numbers. *)
Definition num_le (a b : num) : Prop := num_ltb b a = false.

(** The flags of the cells, as three predicates on index pairs. *)
Definition flags (gr : Grid) (fs fe fw : Ref → bool) : Prop :=
  ∀ q n, nodeAt (nodes gr) q = Some n →
    isStart n = fs q ∧ isEnd n = fe q ∧ isWall n = fw q.

(** The grid [setStartNode] leaves when its target is a cell. *)
Definition placeStart (p : Ref) (gr : Grid) : Grid :=
  set_nodes (updNode p setAsStart (nodes (unsetStart gr)))
            (set_startNode (Some p) (unsetStart gr)).

(** The grid [setEndNode] leaves when its target is a cell. *)
Definition placeEnd (p : Ref) (gr : Grid) : Grid :=
  set_nodes (updNode p setAsEnd (nodes (unsetEnd gr)))
            (set_endNode (Some p) (unsetEnd gr)).

(** The result of a method call, whichever way it ended. *)
Definition grid_of {A : Type} (o : outcome A) : Grid :=
  match o with
  | Normal _ gr => gr
  | Thrown gr => gr
  end.

(** [new Grid(3, 3)]: start at (0,0), goal at (2,2). *)
Definition grid3 : Grid := grid_of (newGrid (Some 3) (Some 3)).



(** The index pairs of a list of wall entries. *)
Definition wallCoords (ws : list Wall.t) : list Ref :=
  (λ w, (Wall.row w, Wall.col w)) <$> ws.

(** The cells [loadGridData] marks as obstacles: those listed, except
    the declared start and goal. *)
Definition wallIn (d : Data.t) (ws : list Wall.t) (q : Ref) : bool :=
  bool_decide (q ∈ wallCoords ws)
  && negb (sameCell (Data.startNode d) q.1 q.2)
  && negb (sameCell (Data.endNode d) q.1 q.2).


(** The grid the [else] branch of [restoreDims] has made before it calls
    [setDefaultStartEnd]. *)
Definition clearedGrid (gr : Grid) : Grid :=
  let gr1 := set_nodes ((λ rw : list Node, clearWall <$> rw) <$> nodes gr) gr in
  let gr2 := match startNode gr1 with
             | Some p => set_startNode None
                           (set_nodes (updNode p (set_isStart false) (nodes gr1)) gr1)
             | None => gr1
             end in
  match endNode gr2 with
  | Some p => set_endNode None (set_nodes (updNode p (set_isEnd false) (nodes gr2)) gr2)
  | None => gr2
  end.

(** The grid on which [restoreDims] places the default start and goal. *)
Definition loadBase (d : Data.t) (gr : Grid) : Grid :=
  if bool_decide (Data.rows d ≠ rows gr) || bool_decide (Data.cols d ≠ cols gr)
  then initializeGrid (set_cols (Data.cols d) (set_rows (Data.rows d) gr))
  else clearedGrid gr.

(** The payload declares at least one row and one column. *)
Definition dims_ok (d : Data.t) : Prop :=
  match Data.rows d, Data.cols d with
  | Some R, Some C => 1 ≤ R ∧ 1 ≤ C
  | _, _ => False
  end.

#[global] Instance dims_ok_dec d : Decision (dims_ok d).
Proof. unfold dims_ok. destruct (Data.rows d), (Data.cols d); apply _. Defined.

(** A declared endpoint, if present, lies within the declared
    dimensions. *)
Definition end_ok (d : Data.t) (o : option Ref) : Prop :=
  match o with
  | Some p => inb (Data.rows d) (Data.cols d) p
  | None => True
  end.

#[global] Instance end_ok_dec d o : Decision (end_ok d o).
Proof. unfold end_ok. destruct o; apply _. Defined.

(** The payloads [loadGridData] accepts. *)
Definition importable (d : Data.t) : Prop :=
  dims_ok d ∧ end_ok d (Data.startNode d) ∧ end_ok d (Data.endNode d).

(** A payload with both endpoints declared, distinct and in bounds. *)
Definition payload_ok (d : Data.t) : Prop :=
  dims_ok d ∧
  match Data.startNode d, Data.endNode d with
  | Some s, Some e =>
      inb (Data.rows d) (Data.cols d) s ∧ inb (Data.rows d) (Data.cols d) e ∧ s ≠ e
  | _, _ => False
  end.

#[global] Instance payload_ok_dec d : Decision (payload_ok d).
Proof.
  unfold payload_ok. destruct (Data.startNode d), (Data.endNode d); apply _.
Defined.

(** [grid3] with an obstacle on the centre cell. *)
Definition grid3_wall : Grid := grid_of (handleMouseDown 1 1 true grid3).

(** A payload whose start lies outside its 3×3 dimensions. *)
Definition payload_bad_start : Data.t :=
  Data.mk (Some 3) (Some 3) (Some []) (Some (5, 5)) (Some (2, 2)).

(** A payload with an obstacle entry outside its 3×3 dimensions. *)
Definition payload_far_wall : Data.t :=
  Data.mk (Some 3) (Some 3) (Some [Wall.mk 9 9 (Some 1)]) (Some (0, 0)) (Some (2, 2)).

(** The grid operations of the specification. *)
Inductive Op : Type :=
| OpCreate (R C : Z)
| OpSetStart (r c : Z)
| OpSetGoal (r c : Z)
| OpToggle (r c : Z) (u : bool)
| OpClear
| OpResize (R C : Z)
| OpImport (d : Data.t) (rnd : nat → bool).

(** Did the call return normally, and the grid it left. *)
Definition completed (o : outcome unit) : bool * Grid :=
  match o with
  | Normal _ gr => (true, gr)
  | Thrown gr => (false, gr)
  end.

(** The method behind each operation; [OpCreate] builds a new grid and
    ignores the one given. *)
Definition run_op (o : Op) (gr : Grid) : bool * Grid :=
  match o with
  | OpCreate R C => completed (newGrid (Some R) (Some C))
  | OpSetStart r c => completed (setStartNode (Some r) (Some c) gr)
  | OpSetGoal r c => completed (setEndNode (Some r) (Some c) gr)
  | OpToggle r c u => completed (handleMouseDown r c u gr)
  | OpClear => completed (clearWalls gr)
  | OpResize R C => completed (resize (Some R) (Some C) gr)
  | OpImport d rnd => loadGridData (Some d) rnd gr
  end.

(** The uses of the operations under which the invariant is kept: more
    than one cell for a construction or a resize, a target in bounds that
    does not hold the opposite role for a move, a payload with two distinct
    endpoints in bounds for an import; apart from a construction and a
    resize the grid has the invariant before. *)
Definition op_ok (o : Op) (gr : Grid) : Prop :=
  match o with
  | OpCreate R C | OpResize R C => 1 ≤ R ∧ 1 ≤ C ∧ (2 ≤ R ∨ 2 ≤ C)
  | OpSetStart r c =>
      grid_inv gr ∧ inb (rows gr) (cols gr) (r, c) ∧ endNode gr ≠ Some (r, c)
  | OpSetGoal r c =>
      grid_inv gr ∧ inb (rows gr) (cols gr) (r, c) ∧ startNode gr ≠ Some (r, c)
  | OpToggle _ _ _ | OpClear => grid_inv gr
  | OpImport d _ => grid_inv gr ∧ payload_ok d
  end.

#[global] Instance op_ok_dec o gr : Decision (op_ok o gr).
Proof. unfold op_ok. destruct o; apply _. Defined.

(** ** Paths on the grid *)

(** Orthogonal neighbours. *)
Definition adjacent (p q : Ref) : Prop :=
  Z.abs (p.1 - q.1) + Z.abs (p.2 - q.2) = 1.

#[global] Instance adjacent_dec p q : Decision (adjacent p q).
Proof. unfold adjacent. apply _. Defined.

(** A cell of the grid that is not an obstacle. *)
Definition passable (ns : list (list Node)) (p : Ref) : bool :=
  match nodeAt ns p with
  | Some n => negb (isWall n)
  | None => false
  end.

(** The four index pairs next to [p], in the order of [directions]. *)
Definition nbrs (p : Ref) : list Ref :=
  (λ d, (p.1 + d.1, p.2 + d.2)) <$> directions.

(** [walk free s k p]: [p] is reached from [s] in [k] orthogonal steps,
    each onto a cell with [free]. *)
Inductive walk (free : Ref → bool) (s : Ref) : nat → Ref → Prop :=
| walk_start : walk free s 0 s
| walk_step k p q :
    walk free s k p → adjacent p q → free q = true → walk free s (S k) q.

(** Consecutive cells of a list are orthogonal neighbours. *)
Fixpoint linked (l : list Ref) : Prop :=
  match l with
  | p :: l' => match l' with
               | q :: _ => adjacent p q ∧ linked l'
               | [] => True
               end
  | [] => True
  end.

#[global] Instance linked_dec l : Decision (linked l).
Proof.
  induction l as [|p [|q l'] IH]; simpl; [apply _|apply _|].
  simpl in IH. apply _.
Defined.

(** An obstacle-free orthogonal path from [s] to [e]: a list of cells of
    the grid, none an obstacle, from [s] to [e], consecutive ones
    adjacent. *)
Definition route (ns : list (list Node)) (s e : Ref) (l : list Ref) : Prop :=
  head l = Some s ∧ last l = Some e ∧ linked l ∧
  Forall (λ p, passable ns p = true) l.

#[global] Instance route_dec ns s e l : Decision (route ns s e l).
Proof. unfold route. apply _. Defined.

(** *** The breadth-first oracle *)

(** One round of the breadth-first search: the obstacle-free neighbours of
    the frontier that have not been visited. *)
Definition bfs_next (ns : list (list Node)) (visited frontier : list Ref)
  : list Ref :=
  remove_dups (filter (λ q, q ∉ visited)
                      (frontier ≫= λ p, filter (λ q, passable ns q = true) (nbrs p))).

(** Breadth-first search by layers: [frontier] holds the cells at distance
    [depth] from the start, [visited] those at distance at most [depth];
    the result is the distance of [goal], [None] when the frontier dies out
    (or the fuel does) before [goal] is met. *)
Fixpoint bfs_layers (fuel : nat) (ns : list (list Node)) (goal : Ref)
    (visited frontier : list Ref) (depth : nat) : option nat :=
  if bool_decide (goal ∈ frontier) then Some depth
  else match fuel with
       | O => None
       | S fuel' =>
           match bfs_next ns visited frontier with
           | [] => None
           | next => bfs_layers fuel' ns goal (visited ++ next) next (S depth)
           end
       end.

(** The number of cells of a shortest obstacle-free path from [s] to [e],
    both included, by breadth-first search. *)
Definition bfs_path_length (ns : list (list Node)) (s e : Ref) : option nat :=
  S <$> bfs_layers (cellCount ns) ns e [s] [s] 0.

(** ** Invariants of the search *)

(** The fields of a node the search does not write. *)
Definition static (n : Node) : Z * Z * bool * bool * bool * Z :=
  (row n, col n, isWall n, isStart n, isEnd n, weight n).

(** [ns] is [ns0] up to the scratch fields. *)
Definition same_statics (ns ns0 : list (list Node)) : Prop :=
  coords ns = coords ns0 ∧ ∀ p, static (deref ns p) = static (deref ns0 p).

(** The Manhattan distance between two index pairs. *)
Definition mdist (p q : Ref) : Z := Z.abs (p.2 - q.2) + Z.abs (p.1 - q.1).

(** What holds of the sets and the [parent] links each time the loop of
    [findPath] tests its condition, for a search from [s] to [e] on the
    array [ns0]: the two sets are disjoint lists without repetition of
    cells of the grid, the goal is not closed, the start has no parent and
    is closed once anything is, and the parent of any other node of the two
    sets is a closed neighbour that was closed before it. *)
Definition astar_core (ns0 : list (list Node)) (s e : Ref) (a : AStar) : Prop :=
  same_statics (nodes (grid a)) ns0 ∧
  isRunning a = true ∧ path a = [] ∧
  NoDup (openSet a) ∧ NoDup (closedSet a) ∧
  (∀ p, p ∈ openSet a → p ∉ closedSet a) ∧
  (e ∉ closedSet a) ∧
  (∀ p, p ∈ openSet a ∨ p ∈ closedSet a → is_Some (nodeAt ns0 p)) ∧
  (s ∈ closedSet a ∨ (openSet a = [s] ∧ closedSet a = [])) ∧
  parent (deref (nodes (grid a)) s) = None ∧
  (∀ p, p ∈ openSet a ∨ p ∈ closedSet a → p ≠ s →
     ∃ q i, parent (deref (nodes (grid a)) p) = Some q ∧
            closedSet a !! i = Some q ∧
            adjacent q p ∧ passable ns0 p = true ∧
            ∀ j, closedSet a !! j = Some p → (i < j)%nat).

(** What holds in addition when every weight is 1; [rel c m] says for
    which closed [c] and neighbours [m] the relaxation is complete.  Every
    node of the two sets carries in [g] the length of a walk from the start
    and one more than the [g] of its parent; a node outside them has
    [g = Infinity]; an open node has [h] its Manhattan distance to the goal
    and [f = g + h]; a free neighbour of a closed node is in one of the
    sets with a [g] at most one more; the [g] of a closed node is at most
    the length of any walk to it. *)
Definition astar_unit (ns0 : list (list Node)) (s e : Ref)
    (rel : Ref → Ref → Prop) (a : AStar) : Prop :=
  let ns := nodes (grid a) in
  (∀ p, p ∈ openSet a ∨ p ∈ closedSet a →
     ∃ k : nat, g (deref ns p) = Fin (Z.of_nat k) ∧ walk (passable ns0) s k p ∧
       (p ≠ s → ∃ q, parent (deref ns p) = Some q ∧
                     g (deref ns q) = Fin (Z.of_nat k - 1))) ∧
  g (deref ns s) = Fin 0 ∧
  (∀ p, p ∉ openSet a → p ∉ closedSet a → g (deref ns p) = Infinity) ∧
  (∀ p, p ∈ openSet a →
     h (deref ns p) = mdist p e ∧
     f (deref ns p) = num_add (g (deref ns p)) (h (deref ns p))) ∧
  (∀ c m, c ∈ closedSet a → adjacent c m → passable ns0 m = true → rel c m →
     (m ∈ openSet a ∨ m ∈ closedSet a) ∧
     ∃ gc gm, g (deref ns c) = Fin gc ∧ g (deref ns m) = Fin gm ∧ gm ≤ gc + 1) ∧
  (∀ c k, c ∈ closedSet a → walk (passable ns0) s k c →
     ∃ gc, g (deref ns c) = Fin gc ∧ gc ≤ Z.of_nat k).

(** The first statements of an iteration of the loop of [findPath]:
    [currentNode] goes from the open to the closed set. *)
Definition closeNode (currentNode : Ref) (a : AStar) : AStar :=
  set_closedSet (closedSet a ++ [currentNode])
    (set_openSet (removeFromArray (openSet a) currentNode) a).

(** An iteration of the loop of [findPath] that does not return. *)
Definition expand (currentNode endNode : Ref) (a : AStar) : AStar :=
  fold_left (relax currentNode endNode)
            (filter (λ q, passable (nodes (grid a)) q = true) (nbrs currentNode))
            (markVisited currentNode (closeNode currentNode a)).

(** [back ns p l]: [l] lists [p], its parent, the parent of that, ... up
    to a node without parent: the nodes [reconstructPath] visits from
    [p], in the order it visits them. *)
Inductive back (ns : list (list Node)) : Ref → list Ref → Prop :=
| back_root p : parent (deref ns p) = None → back ns p [p]
| back_step p q l :
    parent (deref ns p) = Some q → back ns q l → back ns p (p :: l).

(** What a search from [s] to [e] needs of the state it starts in: the
    array is rectangular, no search is under way, [s] and [e] are the
    start and the goal of the grid, the start is a cell that is no
    obstacle and the goal is a cell. *)
Definition ready (a : AStar) (s e : Ref) : Prop :=
  shape (grid a) ∧ isRunning a = false ∧
  startNode (grid a) = Some s ∧ endNode (grid a) = Some e ∧
  passable (nodes (grid a)) s = true ∧ is_Some (nodeAt (nodes (grid a)) e).

#[global] Instance ready_dec a s e : Decision (ready a s e).
Proof. unfold ready. apply _. Defined.

(** Every cell has weight 1. *)
Definition unit_weights (ns : list (list Node)) : Prop :=
  Forall (Forall (λ n, weight n = 1)) ns.

#[global] Instance unit_weights_dec ns : Decision (unit_weights ns).
Proof. unfold unit_weights. apply _. Defined.

(** No step from a cell of [region] onto a cell that is no obstacle
    leaves [region]. *)
Definition sealed (ns : list (list Node)) (region : list Ref) : Prop :=
  Forall (λ p, Forall (λ q, passable ns q = true → q ∈ region) (nbrs p)) region.

#[global] Instance sealed_dec ns region : Decision (sealed ns region).
Proof. unfold sealed. apply _. Defined.

(** [grid3] with the goal walled in: obstacles on (1,2) and (2,1). *)
Definition grid3_sealed : Grid :=
  grid_of (handleMouseDown 2 1 true (grid_of (handleMouseDown 1 2 false grid3))).

(** ** Vocabulary for the effects of a search *)

(** The grid [resetPathfinding] leaves: every node with its search fields
    cleared. *)
Definition scrubbed (gr : Grid) : Grid :=
  set_nodes ((λ rw : list Node, resetNode <$> rw) <$> nodes gr) gr.

(** The state a call of [findPath] leaves behind. *)
Definition state_of (o : found) : option AStar :=
  match o with
  | Resolved _ a => Some a
  | Rejected a => Some a
  | Detached => None
  | OutOfFuel => None
  end.

(** The test of [findPath] before a closed node is recorded as visited. *)
Definition unflagged (ns : list (list Node)) (p : Ref) : bool :=
  negb (isStart (deref ns p)) && negb (isEnd (deref ns p)).

(** The integers from the lesser of [a] and [b] to the greater, both
    included: the values of a loop
    [for (i = Math.min(a, b); i <= Math.max(a, b); i++)]. *)
Definition between (a b : Z) : list Z :=
  seqZ (Z.min a b) (Z.max a b - Z.min a b + 1).

(** The cells of the row of [s] between the columns of [s] and [e],
    followed by the cells of the column of [e] between the rows of [s] and
    [e]. *)
Definition corridor (s e : Ref) : list Ref :=
  ((λ c, (s.1, c)) <$> between s.2 e.2) ++ ((λ r, (r, e.2)) <$> between s.1 e.1).

(** ** Sequences of mouse events *)

(** The events the cells of the rendered grid listen to, with the cell
    they occur on; [u] is the random draw the handler may use. *)
Inductive MouseEvent : Type :=
| MouseDown (r c : Z) (u : bool)
| MouseEnter (r c : Z) (u : bool)
| MouseUp.

(** The handler [Grid.render] attaches to each event. *)
Definition mouse (ev : MouseEvent) : M unit :=
  match ev with
  | MouseDown r c u => handleMouseDown r c u
  | MouseEnter r c u => handleMouseEnter r c u
  | MouseUp => handleMouseUp
  end.

(** ** Controls *)

(** [Controls.handleResize] as far as the grid goes.  [running] is
    [Controls.isRunning] and [newSize] what [parseInt] makes of the size
    field ([None] is [NaN]); the message shown and the rendering are left
    out. *)
Definition handleResize (running : bool) (newSize : option Z) : M unit :=
  if running then mret tt else
  match newSize with
  | Some n =>
      if bool_decide (n < 5) || bool_decide (n > 20) then mret tt
      else resize (Some n) (Some n)
  | None => mret tt
  end.

(** ** Helpers *)

(** The body of the loops of [Helpers.createSimplePath] on the cell
    [(r, c)]: an obstacle there is removed. *)
Definition carve (r c : Z) : M unit :=
  node ← getNode r c;
  match node with
  | Some (p, n) =>
      if isWall n
      then modify (λ gr, set_nodes
             (updNode p (λ m, set_wallType None (set_isWall false m)) (nodes gr)) gr)
      else mret tt
  | None => mret tt
  end.

(** [Helpers.createSimplePath]; [start.row] and [end.col] throw on a
    missing start or goal. *)
Definition createSimplePath : M unit := λ gr,
  match startNode gr with
  | None => Thrown gr
  | Some s =>
      match endNode gr with
      | None => Thrown gr
      | Some e =>
          let start := deref (nodes gr) s in
          let end_ := deref (nodes gr) e in
          (forM (between (col start) (col end_)) (carve (row start)) ;;
           forM (between (row start) (row end_)) (λ r, carve r (col end_))) gr
      end
  end.

(** [!result] for the value the [async] method [findPath] returned: a
    Promise is an object, and the negation of an object is [false],
    whatever the Promise settles to. *)
Definition not_promise (result : found) : bool := false.

(** [Helpers.ensurePathExists].  With [animate = false] the call of
    [findPath] reaches no [await]: it runs to its end, on the nodes of
    [grid], before the Promise is returned, and an exception in it stays in
    the Promise.  [None] where the model of the search gives no final
    state. *)
Definition ensurePathExists (gr : Grid) : option (outcome unit) :=
  let pathfinder := newAStar gr in
  let result := findPath pathfinder in
  (λ a', if not_promise result then createSimplePath (grid a')
         else Normal tt (grid a')) <$> state_of result.

(** The body of the loops of [Helpers.generateMaze] on the cell [(r, c)];
    [hit q] is the outcome of [Math.random() < density] drawn for the cell
    [q] and [img q] that of the draw of [getRandomWallType] made there. *)
Definition mazeCell (hit img : Ref → bool) (r c : Z) : M unit :=
  node ← getNode r c;
  match node with
  | None => throw
  | Some (p, n) =>
      if negb (isStart n) && negb (isEnd n) then
        if hit (r, c)
        then modify (λ gr, set_nodes (updNode p (dragWall (img (r, c))) (nodes gr)) gr)
        else mret tt
      else mret tt
  end.

(** [Helpers.generateMaze] *)
Definition generateMaze (hit img : Ref → bool) (gr : Grid) : option (outcome unit) :=
  match (clearWalls ;; forCells (mazeCell hit img)) gr with
  | Normal _ gr1 => ensurePathExists gr1
  | Thrown gr1 => Some (Thrown gr1)
  end.

(** The values of a loop [for (i = 1; i < d - 1; i++)]. *)
Definition inner (d : option Z) : list Z :=
  match d with
  | Some n => seqZ 1 (n - 2)
  | None => []
  end.

(** The branch of [battlefieldMaps.ensureForestPath] for a search without
    result: the obstacles of the top row and of the last column are
    removed, corners apart. *)
Definition forestBorder : M unit := λ gr,
  (forM (inner (cols gr)) (carve 0) ;;
   forM (inner (rows gr))
        (λ r, match cols gr with
              | Some C => carve r (C - 1)
              | None => mret tt
              end)) gr.

(** [battlefieldMaps.ensureForestPath]; the speed it sets on the
    pathfinder plays no part without animation. *)
Definition ensureForestPath (gr : Grid) : option (outcome unit) :=
  let pathfinder := newAStar gr in
  let result := findPath pathfinder in
  (λ a', ((if not_promise result then forestBorder else mret tt) ;;
          resetPathfinding) (grid a')) <$> state_of result.

(** *** Vocabulary for the helpers *)

(** The grid without the obstacles on the cells of [cells]. *)
Definition carved (cells : list Ref) (gr : Grid) : Grid :=
  set_nodes (fold_left (λ ns q, updNode q clearWall ns) cells (nodes gr)) gr.

(** What the body of the loops of [generateMaze] makes of the node of a
    cell. *)
Definition mazeNode (hit img : Ref → bool) (n : Node) : Node :=
  if negb (isStart n) && negb (isEnd n) && hit (row n, col n)
  then dragWall (img (row n, col n)) n else n.

(** *** Pattern painters *)

(** The body the pattern painters share: an obstacle with a random image
    is put on the cell [(r, c)], unless it lies outside the grid or holds
    the start or the goal. *)
Definition plant (u : bool) (r c : Z) : M unit :=
  node ← getNode r c;
  match node with
  | Some (p, n) =>
      if negb (isStart n) && negb (isEnd n)
      then modify (λ gr, set_nodes (updNode p (dragWall u) (nodes gr)) gr)
      else mret tt
  | None => mret tt
  end.

(** The values of a loop [for (i = a; i < d; i += k)]. *)
Definition stride (a k : Z) (d : option Z) : list Z :=
  match d with
  | Some n => (λ j, a + k * j) <$> seqZ 0 ((n - a + k - 1) / k)
  | None => []
  end.

(** [Math.floor(d / 2)] *)
Definition half (d : option Z) : option Z := (λ n, n / 2) <$> d.

(** The test of [patterns.simpleWalls] on a row: it is neither of the two
    middle rows. *)
Definition offMiddle (R : option Z) (r : Z) : bool :=
  bool_decide (Some r ≠ half R) && bool_decide (Some r ≠ (λ m, m - 1) <$> half R).

(** [patterns.simpleWalls]; [img q] is the random draw made for the cell
    [q]. *)
Definition simpleWalls (img : Ref → bool) : M unit :=
  clearWalls ;;
  ((λ gr, forM (stride 2 4 (cols gr))
               (λ c gr', forM (upto (rows gr'))
                              (λ r gr'', if offMiddle (rows gr'') r
                                         then plant (img (r, c)) r c gr''
                                         else Normal tt gr'') gr') gr) : M unit).

(** What [plant] makes of the node of a cell. *)
Definition plantNode (img : Ref → bool) (n : Node) : Node :=
  if negb (isStart n) && negb (isEnd n) then dragWall (img (row n, col n)) n else n.

(** The grid after the assignment [fn] on the nodes of the cells of
    [cells], one after the other. *)
Definition painted (fn : Node → Node) (cells : list Ref) (gr : Grid) : Grid :=
  set_nodes (fold_left (λ ns q, updNode q fn ns) cells (nodes gr)) gr.

(** The cells [simpleWalls] visits with [plant] on a grid of [R] rows and
    [C] columns, in the order of its loops. *)
Definition wallCells (R C : option Z) : list Ref :=
  stride 2 4 C ≫= λ c, upto R ≫= λ r, if offMiddle R r then [(r, c)] else [].

(** *** [Helpers.importGrid] *)

(** [!x] on an optional number: [undefined], [null] and [0] are falsy. *)
Definition falsy (x : option Z) : bool :=
  match x with
  | Some z => bool_decide (z = 0)
  | None => true
  end.

(** The callback of [data.walls.forEach] in [importGrid]: every listed
    cell of the grid becomes an obstacle, the declared start and goal
    included. *)
Definition importWall (u : bool) (w : Wall.t) : M unit :=
  node ← getNode (Wall.row w) (Wall.col w);
  match node with
  | Some (p, _) =>
      modify (λ gr, set_nodes
        (updNode p (λ n, set_wallType
                           (Some (orElse (Wall.type w) (getRandomWallType u)))
                           (set_isWall true n)) (nodes gr)) gr)
  | None => mret tt
  end.

(** "Set walls with their types" *)
Definition importWalls (d : Data.t) (rnd : nat → bool) : M unit :=
  match Data.walls d with
  | Some ws => forM (zip (seq 0 (length ws)) ws)
                    (λ iw, importWall (rnd iw.1) iw.2)
  | None => mret tt
  end.

(** The [try] block of [importGrid] after [JSON.parse]. *)
Definition importGrid_try (d : Data.t) (rnd : nat → bool) : M unit :=
  if falsy (Data.rows d) || falsy (Data.cols d) then throw else
  dims ← gets (λ gr, (rows gr, cols gr));
  (if bool_decide (Data.rows d ≠ dims.1) || bool_decide (Data.cols d ≠ dims.2)
   then resize (Data.rows d) (Data.cols d)
   else mret tt) ;;
  clearWalls ;;
  importWalls d rnd ;;
  restoreEnds d.

(** [Helpers.importGrid]; [d] is the value of [JSON.parse(jsonData)],
    [None] when the parse throws or gives [null].  An exception of the
    [try] block gives [false] and leaves the grid as it is then. *)
Definition importGrid (d : option Data.t) (rnd : nat → bool) (gr : Grid)
  : bool * Grid :=
  match d with
  | None => (false, gr)
  | Some d' =>
      match importGrid_try d' rnd gr with
      | Normal _ gr' => (true, gr')
      | Thrown gr' => (false, gr')
      end
  end.

(** The cells [importGrid] leaves as obstacles: those listed, except the
    cells the start and the goal are then placed on. *)
Definition listed (d : Data.t) (q : Ref) : bool :=
  bool_decide (q ∈ wallCoords (default [] (Data.walls d))).

(** * Properties *)

(** ** Arrays of nodes *)

Lemma idx_Some {A : Type} (l : list A) (z : Z) (x : A) :
  idx l (Some z) = Some x ↔ 0 ≤ z ∧ l !! Z.to_nat z = Some x.
Proof.
  unfold idx. case_bool_decide; [tauto|]. split; [done|]. intros [? _]; lia.
Qed.

Lemma nodeAt_unfold ns p :
  nodeAt ns p =
  if bool_decide (0 ≤ p.1 ∧ 0 ≤ p.2)
  then ns !! Z.to_nat p.1 ≫= (.!! Z.to_nat p.2) else None.
Proof.
  unfold nodeAt, idx. repeat case_bool_decide; try lia; try done;
    by destruct (ns !! _).
Qed.

Lemma nodeAt_Some ns p n :
  nodeAt ns p = Some n ↔
  0 ≤ p.1 ∧ 0 ≤ p.2 ∧ ∃ rw, ns !! Z.to_nat p.1 = Some rw ∧ rw !! Z.to_nat p.2 = Some n.
Proof.
  rewrite nodeAt_unfold. case_bool_decide.
  - destruct (ns !! _) as [rw|]; simpl; naive_solver.
  - naive_solver.
Qed.

Lemma nodeAt_updNode ns p q fn :
  nodeAt (updNode p fn ns) q =
  if decide (p = q) then fn <$> nodeAt ns q else nodeAt ns q.
Proof.
  rewrite !nodeAt_unfold. unfold updNode.
  destruct p as [pr pc], q as [qr qc]; simpl.
  destruct (decide (0 ≤ pr ∧ 0 ≤ pc)) as [Hp|Hp].
  - rewrite !andb_true_intro by (split; apply bool_decide_eq_true_2; lia).
    case_bool_decide as Hq; [|by case_decide].
    destruct (decide (Z.to_nat pr = Z.to_nat qr)) as [Er|Er].
    + rewrite Er, list_lookup_alter_eq.
      destruct (ns !! Z.to_nat qr) as [rw|] eqn:E; simpl; [|by case_decide].
      destruct (decide (Z.to_nat pc = Z.to_nat qc)) as [Ec|Ec].
      * rewrite Ec, list_lookup_alter_eq.
        rewrite decide_True; [done|]. f_equal; lia.
      * rewrite list_lookup_alter_ne by done.
        rewrite decide_False; [done|]. intros [=]; subst; lia.
    + rewrite list_lookup_alter_ne by done.
      rewrite decide_False; [done|]. intros [=]; subst; lia.
  - assert (bool_decide (0 ≤ pr) && bool_decide (0 ≤ pc) = false) as ->.
    { apply andb_false_iff. rewrite !bool_decide_eq_false. lia. }
    case_bool_decide as Hq; [|by case_decide].
    rewrite decide_False; [done|]. intros [=]; subst; lia.
Qed.
Arguments upto : simpl never.
Lemma lookup_upto d (i : nat) z :
  upto d !! i = Some z ↔ z = Z.of_nat i ∧ ∃ n, d = Some n ∧ Z.of_nat i < n.
Proof.
  unfold upto. destruct d as [n|]; [|naive_solver].
  rewrite list_lookup_fmap_Some. split.
  - intros (j & -> & Hj). apply lookup_seq in Hj as [-> Hlt].
    split; [done|]. exists n. split; [done|]. lia.
  - intros (-> & n' & [= <-] & Hlt). exists i. split; [done|].
    apply lookup_seq. lia.
Qed.

Lemma length_upto d : length (upto d) = Z.to_nat (default 0 d).
Proof. destruct d; unfold upto; simpl; [|done]. by rewrite length_fmap, length_seq. Qed.

Lemma coordGrid_lookup R C p q :
  (coordGrid R C !! Z.to_nat p.1 ≫= (.!! Z.to_nat p.2)) = Some q →
  0 ≤ p.1 → 0 ≤ p.2 → q = p ∧ inb R C p.
Proof.
  unfold coordGrid. rewrite list_lookup_fmap.
  destruct (upto R !! Z.to_nat p.1) as [r|] eqn:Er; simpl; [|done].
  rewrite list_lookup_fmap.
  destruct (upto C !! Z.to_nat p.2) as [c|] eqn:Ec; simpl; [|done].
  apply lookup_upto in Er as (-> & zr & -> & ?), Ec as (-> & zc & -> & ?).
  intros [= <-] ? ?. destruct p as [pr pc]; simpl in *.
  split; [f_equal; lia|]. unfold inb; simpl. lia.
Qed.

Lemma coordGrid_inb R C p :
  inb R C p → (coordGrid R C !! Z.to_nat p.1 ≫= (.!! Z.to_nat p.2)) = Some p.
Proof.
  unfold inb. destruct R as [zr|], C as [zc|]; try done. intros [? ?].
  unfold coordGrid. rewrite list_lookup_fmap.
  assert (upto (Some zr) !! Z.to_nat p.1 = Some p.1) as ->.
  { apply lookup_upto. split; [lia|]. exists zr. split; [done|lia]. }
  simpl. rewrite list_lookup_fmap.
  assert (upto (Some zc) !! Z.to_nat p.2 = Some p.2) as ->.
  { apply lookup_upto. split; [lia|]. exists zc. split; [done|lia]. }
  simpl. by destruct p.
Qed.

Lemma coords_lookup ns p :
  (coords ns !! Z.to_nat p.1 ≫= (.!! Z.to_nat p.2)) =
  (λ n, (row n, col n)) <$> (ns !! Z.to_nat p.1 ≫= (.!! Z.to_nat p.2)).
Proof.
  unfold coords. rewrite list_lookup_fmap.
  destruct (ns !! Z.to_nat p.1) as [rw|]; simpl; [|done].
  by rewrite list_lookup_fmap.
Qed.

(** Under [shape] the cells are the index pairs in bounds, and each node
    carries its own indices. *)
Lemma shape_nodeAt gr p n :
  shape gr → nodeAt (nodes gr) p = Some n →
  (row n, col n) = p ∧ inb (rows gr) (cols gr) p.
Proof.
  intros Hs Hn. rewrite nodeAt_unfold in Hn. case_bool_decide as Hp; [|done].
  apply (coordGrid_lookup (rows gr) (cols gr)); try lia.
  rewrite <- Hs, coords_lookup, Hn. done.
Qed.

Lemma shape_inb gr p :
  shape gr → inb (rows gr) (cols gr) p → is_Some (nodeAt (nodes gr) p).
Proof.
  intros Hs Hp. pose proof (coordGrid_inb _ _ _ Hp) as H.
  rewrite <- Hs, coords_lookup in H.
  rewrite nodeAt_unfold, bool_decide_eq_true_2.
  - destruct (nodes gr !! _ ≫= _); [by eexists|done].
  - unfold inb in Hp. destruct (rows gr), (cols gr); try done. lia.
Qed.

Lemma coords_updNode p fn ns :
  (∀ n, row (fn n) = row n ∧ col (fn n) = col n) →
  coords (updNode p fn ns) = coords ns.
Proof.
  intros Hfn. unfold updNode. destruct (_ && _); [|done].
  unfold coords. apply list_eq. intros i. rewrite !list_lookup_fmap.
  destruct (decide (Z.to_nat p.1 = i)) as [<-|Hne].
  - rewrite list_lookup_alter_eq. destruct (ns !! _) as [rw|]; simpl; [|done].
    f_equal. apply list_eq. intros j. rewrite !list_lookup_fmap.
    destruct (decide (Z.to_nat p.2 = j)) as [<-|Hne].
    + rewrite list_lookup_alter_eq. destruct (rw !! _) as [n|]; simpl; [|done].
      destruct (Hfn n) as [-> ->]. done.
    + by rewrite list_lookup_alter_ne.
  - by rewrite list_lookup_alter_ne.
Qed.

Lemma deref_updNode ns p q fn :
  is_Some (nodeAt ns p) →
  deref (updNode p fn ns) q = if decide (p = q) then fn (deref ns q) else deref ns q.
Proof.
  intros [n Hn]. unfold deref. rewrite nodeAt_updNode.
  case_decide; [subst; by rewrite Hn|done].
Qed.

Lemma deref_nodeAt ns p n : nodeAt ns p = Some n → deref ns p = n.
Proof. unfold deref. by intros ->. Qed.
Lemma nodeAt_fmap (fn : Node → Node) (ns : list (list Node)) p :
  nodeAt ((λ rw : list Node, fn <$> rw) <$> ns) p = fn <$> nodeAt ns p.
Proof.
  rewrite !nodeAt_unfold. case_bool_decide; [|done].
  rewrite list_lookup_fmap. destruct (ns !! _) as [rw|]; simpl; [|done].
  by rewrite list_lookup_fmap.
Qed.

Lemma coords_fmap (fn : Node → Node) (ns : list (list Node)) :
  (∀ n, row (fn n) = row n ∧ col (fn n) = col n) →
  coords ((λ rw : list Node, fn <$> rw) <$> ns) = coords ns.
Proof.
  intros Hfn. unfold coords. rewrite <- list_fmap_compose.
  apply list_fmap_ext. intros _ rw _. simpl. rewrite <- list_fmap_compose.
  apply list_fmap_ext. intros _ n _. simpl. by destruct (Hfn n) as [-> ->].
Qed.

(** Two arrays of the same form with the same cells are equal. *)
Lemma nodes_ext ns ns' :
  coords ns' = coords ns → (∀ p, nodeAt ns' p = nodeAt ns p) → ns' = ns.
Proof.
  intros Hc Hn. apply list_eq. intros i.
  assert (coords ns' !! i = coords ns !! i) as Hi by by rewrite Hc.
  unfold coords in Hi. rewrite !list_lookup_fmap in Hi.
  destruct (ns' !! i) as [rw'|] eqn:E', (ns !! i) as [rw|] eqn:E; simpl in Hi;
    try done.
  f_equal. apply list_eq. intros j.
  specialize (Hn (Z.of_nat i, Z.of_nat j)). rewrite !nodeAt_unfold in Hn.
  simpl in Hn. rewrite bool_decide_eq_true_2 in Hn by lia.
  rewrite !Nat2Z.id, E, E' in Hn. done.
Qed.
(** ** Hoare rules *)

Lemma hoare_conseq {A : Type} (P P' : Grid → Prop) (Q Q' : A → Grid → Prop) m :
  hoare P' m Q' → (∀ gr, P gr → P' gr) → (∀ a gr, Q' a gr → Q a gr) →
  hoare P m Q.
Proof.
  intros Hm HP HQ gr Hgr. destruct (Hm gr (HP _ Hgr)) as (a & gr' & -> & ?).
  eauto.
Qed.

Lemma hoare_ret {A : Type} (a : A) (Q : A → Grid → Prop) :
  hoare (Q a) (mret a) Q.
Proof. intros gr Hgr. by exists a, gr. Qed.

Lemma hoare_bind {A B : Type} (P : Grid → Prop) (Q : A → Grid → Prop)
    (R : B → Grid → Prop) (m : M A) (k : A → M B) :
  hoare P m Q → (∀ a, hoare (Q a) (k a) R) → hoare P (m ≫= k) R.
Proof.
  intros Hm Hk gr Hgr. destruct (Hm gr Hgr) as (a & gr' & Em & Hq).
  destruct (Hk a gr' Hq) as (b & gr'' & Ek & Hr).
  exists b, gr''. split; [|done]. unfold mbind, M_bind. by rewrite Em.
Qed.

Lemma hoare_modify (fn : Grid → Grid) (Q : unit → Grid → Prop) :
  hoare (λ gr, Q tt (fn gr)) (modify fn) Q.
Proof. intros gr Hgr. by exists tt, (fn gr). Qed.

Lemma hoare_gets {A : Type} (fn : Grid → A) (Q : A → Grid → Prop) :
  hoare (λ gr, Q (fn gr) gr) (gets fn) Q.
Proof. intros gr Hgr. by exists (fn gr), gr. Qed.

Lemma hoare_forM {A : Type} (I : nat → Grid → Prop) (l : list A) body :
  (∀ i x, l !! i = Some x → hoare (I i) (body x) (λ _, I (S i))) →
  hoare (I 0%nat) (forM l body) (λ _, I (length l)).
Proof.
  revert I. induction l as [|x l IH]; intros I Hbody.
  - apply (hoare_ret tt (λ _, I 0%nat)).
  - simpl. eapply hoare_bind.
    + apply (Hbody 0%nat x). done.
    + intros []. apply (IH (λ i, I (S i))). intros i y Hy.
      apply (Hbody (S i) y). done.
Qed.

(** ** The loops over all cells *)

Lemma touch_spec fn r c gr :
  is_Some (nodeAt (nodes gr) (r, c)) →
  touch fn r c gr = Normal tt (set_nodes (updNode (r, c) fn (nodes gr)) gr).
Proof. intros [n Hn]. unfold touch. by rewrite Hn. Qed.

Lemma set_nodes_nodes gr : set_nodes (nodes gr) gr = gr.
Proof. by destruct gr. Qed.

Lemma forCells_touch fn gr :
  shape gr → (∀ n, row (fn n) = row n ∧ col (fn n) = col n) →
  forCells (touch fn) gr
  = Normal tt (set_nodes ((λ rw : list Node, fn <$> rw) <$> nodes gr) gr).
Proof.
  intros Hs Hfn.
  set (I := λ (r j : Z) (gr' : Grid),
    gr' = set_nodes (nodes gr') gr ∧ coords (nodes gr') = coords (nodes gr) ∧
    ∀ p, nodeAt (nodes gr') p =
         (if decide (p.1 < r ∨ (p.1 = r ∧ p.2 < j)) then fn else id)
           <$> nodeAt (nodes gr) p).
  assert (hoare (I 0 0) (forCells (touch fn))
                (λ _, I (Z.of_nat (length (upto (rows gr)))) 0)) as H.
  { intros gr0 H0. unfold forCells.
    assert (rows gr0 = rows gr) as -> by (destruct H0 as [-> _]; done).
    revert gr0 H0.
    apply (hoare_forM (λ i, I (Z.of_nat i) 0)). intros i r Hr.
    apply lookup_upto in Hr as (-> & R & HR & Hlt).
    intros gr1 H1.
    assert (cols gr1 = cols gr) as -> by (destruct H1 as [-> _]; done).
    assert (hoare (I (Z.of_nat i) 0) (forM (upto (cols gr)) (touch fn (Z.of_nat i)))
                  (λ _, I (Z.of_nat i) (Z.of_nat (length (upto (cols gr)))))) as Hin.
    { apply (hoare_forM (λ j, I (Z.of_nat i) (Z.of_nat j))). intros j c Hc.
      apply lookup_upto in Hc as (-> & C & HC & Hltc).
      intros gr2 (E2 & Hc2 & Hp2).
      assert (is_Some (nodeAt (nodes gr2) (Z.of_nat i, Z.of_nat j))) as Hsome.
      { rewrite Hp2. apply fmap_is_Some, shape_inb; [done|].
        rewrite HR, HC. simpl. lia. }
      rewrite touch_spec by done. eexists tt, _. split; [done|]. split_and!.
      - rewrite E2. by destruct gr.
      - simpl. by rewrite coords_updNode.
      - intros p. simpl. rewrite nodeAt_updNode, Hp2.
        destruct (nodeAt (nodes gr) p) as [n|] eqn:En; [|by case_decide].
        apply (shape_nodeAt _ _ _ Hs) in En as [_ Hb].
        destruct p as [pr pc]; simpl in *.
        destruct (decide ((Z.of_nat i, Z.of_nat j) = (pr, pc))) as [[= <- <-]|Hne].
        + destruct (decide (_ ∨ _ ∧ _ < Z.of_nat j)); [lia|].
          rewrite decide_True by done. destruct (decide _); [done|lia].
        + assert (¬ (pr = Z.of_nat i ∧ pc = Z.of_nat j)) by (intros [-> ->]; done).
          repeat case_decide; try done; lia. }
    destruct (Hin gr1 H1) as ([] & gr2 & -> & E2 & Hc2 & Hp2).
    eexists tt, gr2. split; [done|]. split_and!; try done.
    intros p. rewrite Hp2.
    destruct (nodeAt (nodes gr) p) as [n|] eqn:En; [|by repeat case_decide].
    apply (shape_nodeAt _ _ _ Hs) in En as [_ Hb].
    rewrite length_upto. unfold inb in Hb. rewrite HR in Hb.
    destruct (cols gr) as [C|]; [|done]. simpl in *.
    destruct p as [pr pc]; simpl in *.
    repeat case_decide; try done; exfalso; lia. }
  destruct (H gr) as ([] & gr' & -> & E & Hc & Hp).
  { split_and!; [by destruct gr|done|]. intros p.
    destruct (nodeAt (nodes gr) p) as [n|] eqn:En; [|by case_decide].
    apply (shape_nodeAt _ _ _ Hs) in En as [_ Hb]. unfold inb in Hb.
    destruct (rows gr), (cols gr); try done.
    rewrite decide_False; [done|]. lia. }
  f_equal. rewrite E. f_equal.
  apply nodes_ext.
  - by rewrite Hc, coords_fmap.
  - intros p. rewrite Hp, nodeAt_fmap.
    destruct (nodeAt (nodes gr) p) as [n|] eqn:En; [|done].
    apply (shape_nodeAt _ _ _ Hs) in En as [_ Hb].
    rewrite length_upto. unfold inb in Hb.
    destruct (rows gr) as [R|], (cols gr) as [C|]; try done. simpl in *.
    rewrite decide_True; [done|]. destruct p; simpl in *; lia.
Qed.
Lemma shape_set_nodes gr ns :
  shape gr → coords ns = coords (nodes gr) → shape (set_nodes ns gr).
Proof. unfold shape. simpl. by intros -> ->. Qed.

Lemma resetNode_idemp n : resetNode (resetNode n) = resetNode n.
Proof. done. Qed.

Lemma resetPathfinding_spec gr :
  shape gr →
  resetPathfinding gr
  = Normal tt (set_nodes ((λ rw : list Node, resetNode <$> rw) <$> nodes gr) gr).
Proof. intros Hs. by apply forCells_touch. Qed.

(** C8: [resetPathfinding] clears the six search fields of every cell,
    leaves the flags, the weight and the rest of the grid alone, and a
    second call changes nothing. *)
Theorem resetPathfinding_clears_scratch gr :
  shape gr →
  ∃ gr', resetPathfinding gr = Normal tt gr' ∧
    gr' = set_nodes (nodes gr') gr ∧
    (∀ p, is_Some (nodeAt (nodes gr') p) ↔ is_Some (nodeAt (nodes gr) p)) ∧
    (∀ p n, nodeAt (nodes gr) p = Some n →
       ∃ n', nodeAt (nodes gr') p = Some n' ∧
         isVisited n' = false ∧ isPath n' = false ∧ g n' = Infinity ∧
         h n' = 0 ∧ f n' = Infinity ∧ parent n' = None ∧
         isWall n' = isWall n ∧ isStart n' = isStart n ∧ isEnd n' = isEnd n ∧
         weight n' = weight n ∧ row n' = row n ∧ col n' = col n ∧
         wallType n' = wallType n) ∧
    resetPathfinding gr' = Normal tt gr'.
Proof.
  intros Hs. eexists. split; [by apply resetPathfinding_spec|].
  split_and!.
  - by destruct gr.
  - intros p. simpl. rewrite nodeAt_fmap. apply fmap_is_Some.
  - intros p n Hn. exists (resetNode n). simpl. rewrite nodeAt_fmap, Hn. done.
  - rewrite resetPathfinding_spec.
    + f_equal. destruct gr; simpl. unfold set_nodes; simpl. f_equal.
      rewrite <- list_fmap_compose. apply list_fmap_ext. intros _ rw _. simpl.
      rewrite <- list_fmap_compose. by apply list_fmap_ext.
    + apply shape_set_nodes; [done|]. by apply coords_fmap.
Qed.

Lemma resetPathfinding_clears_scratch_witness :
  let gr := mkGrid (Some 1) (Some 2)
              [[set_isVisited true (set_g (Fin 3) (newNode 0 0));
                set_isWall true (newNode 0 1)]] None None false ModeWall in
  shape gr ∧
  ∃ gr', resetPathfinding gr = Normal tt gr' ∧
    gr' = set_nodes (nodes gr') gr ∧
    (∀ p, is_Some (nodeAt (nodes gr') p) ↔ is_Some (nodeAt (nodes gr) p)) ∧
    (∀ p n, nodeAt (nodes gr) p = Some n →
       ∃ n', nodeAt (nodes gr') p = Some n' ∧
         isVisited n' = false ∧ isPath n' = false ∧ g n' = Infinity ∧
         h n' = 0 ∧ f n' = Infinity ∧ parent n' = None ∧
         isWall n' = isWall n ∧ isStart n' = isStart n ∧ isEnd n' = isEnd n ∧
         weight n' = weight n ∧ row n' = row n ∧ col n' = col n ∧
         wallType n' = wallType n) ∧
    resetPathfinding gr' = Normal tt gr'.
Proof.
  intros gr. assert (shape gr) as Hs by (vm_compute; reflexivity).
  split; [exact Hs|]. exact (resetPathfinding_clears_scratch gr Hs).
Defined.
Lemma in_bounds_inb gr r c :
  in_bounds gr r c = true ↔ inb (rows gr) (cols gr) (r, c).
Proof.
  unfold in_bounds, inb. destruct (rows gr) as [R|], (cols gr) as [C|]; simpl;
    rewrite ?andb_true_iff, ?bool_decide_eq_true; try tauto.
  all: rewrite ?andb_false_r; naive_solver.
Qed.

Lemma getNode_spec gr r c :
  shape gr →
  getNode r c gr = Normal (pair (r, c) <$> nodeAt (nodes gr) (r, c)) gr.
Proof.
  intros Hs. unfold getNode.
  destruct (in_bounds gr r c) eqn:Hb.
  - apply in_bounds_inb in Hb. destruct (shape_inb _ _ Hs Hb) as [n Hn].
    unfold nodeAt in *. cbn [fst snd] in *.
    destruct (idx (nodes gr) (Some r)) as [rw|]; [|done]. by rewrite Hn.
  - destruct (nodeAt (nodes gr) (r, c)) as [n|] eqn:Hn; [|done].
    apply (shape_nodeAt _ _ _ Hs) in Hn as [_ Hn].
    apply in_bounds_inb in Hn. congruence.
Qed.

Lemma toggleWall_fields n :
  row (toggleWall n) = row n ∧ col (toggleWall n) = col n ∧
  isStart (toggleWall n) = isStart n ∧ isEnd (toggleWall n) = isEnd n ∧
  isVisited (toggleWall n) = isVisited n ∧ isPath (toggleWall n) = isPath n ∧
  weight (toggleWall n) = weight n ∧ g (toggleWall n) = g n ∧
  h (toggleWall n) = h n ∧ f (toggleWall n) = f n ∧
  parent (toggleWall n) = parent n ∧ wallType (toggleWall n) = wallType n.
Proof. unfold toggleWall. by destruct (_ && _). Qed.

Lemma handleMouseDown_spec gr r c u n :
  shape gr → nodeAt (nodes gr) (r, c) = Some n →
  handleMouseDown r c u gr =
  Normal tt
    (if isStart n then set_currentMode ModeStart (set_mouseIsPressed true gr)
     else if isEnd n then set_currentMode ModeEnd (set_mouseIsPressed true gr)
     else set_nodes (updNode (r, c) (clickWall u) (nodes gr))
            (set_currentMode ModeWall (set_mouseIsPressed true gr))).
Proof.
  intros Hs Hn. unfold handleMouseDown, mbind, M_bind.
  rewrite getNode_spec, Hn by done. simpl.
  destruct (isStart n); [done|]. by destruct (isEnd n).
Qed.

Lemma handleMouseDown_outside gr r c u :
  shape gr → nodeAt (nodes gr) (r, c) = None →
  handleMouseDown r c u gr = Normal tt gr.
Proof.
  intros Hs Hn. unfold handleMouseDown, mbind, M_bind.
  by rewrite getNode_spec, Hn.
Qed.

(** C9: [toggleWall] leaves a start or goal node as it is and otherwise
    flips [isWall] and no other field; through [handleMouseDown] a click on
    the start or the goal leaves every cell as it is, and a click on another
    cell changes that cell only, to [toggleWall] of it with the image
    variant [wallType] recorded. *)
Theorem toggleWall_guarded_flip gr r c u n :
  shape gr → nodeAt (nodes gr) (r, c) = Some n →
  toggleWall n = (if isStart n || isEnd n then n
                  else set_isWall (negb (isWall n)) n) ∧
  ∃ gr', handleMouseDown r c u gr = Normal tt gr' ∧
    rows gr' = rows gr ∧ cols gr' = cols gr ∧
    startNode gr' = startNode gr ∧ endNode gr' = endNode gr ∧
    (∀ q, q ≠ (r, c) → nodeAt (nodes gr') q = nodeAt (nodes gr) q) ∧
    (∃ n', nodeAt (nodes gr') (r, c) = Some n' ∧
           set_wallType None n' = set_wallType None (toggleWall n)) ∧
    (isStart n || isEnd n = true → nodes gr' = nodes gr).
Proof.
  intros Hs Hn. split.
  { unfold toggleWall. by destruct (isStart n), (isEnd n). }
  eexists. split; [by apply handleMouseDown_spec|].
  destruct (isStart n) eqn:E1; [|destruct (isEnd n) eqn:E2]; simpl.
  - split_and!; try done. exists n. split; [done|].
    unfold toggleWall. by rewrite E1.
  - split_and!; try done. exists n. split; [done|].
    unfold toggleWall. by rewrite E1, E2.
  - split_and!; try done.
    + intros q Hq. rewrite nodeAt_updNode. by rewrite decide_False.
    + exists (clickWall u n). rewrite nodeAt_updNode, decide_True, Hn by done.
      split; [done|]. unfold clickWall. by destruct (isWall (toggleWall n)).
Qed.

Lemma toggleWall_guarded_flip_witness :
  let gr := mkGrid (Some 1) (Some 2)
              [[set_isStart true (newNode 0 0); newNode 0 1]]
              (Some (0, 0)) None false ModeWall in
  shape gr ∧ nodeAt (nodes gr) (0, 1) = Some (newNode 0 1) ∧
  toggleWall (newNode 0 1) = set_isWall true (newNode 0 1) ∧
  ∃ gr', handleMouseDown 0 1 true gr = Normal tt gr' ∧
    nodeAt (nodes gr') (0, 0) = nodeAt (nodes gr) (0, 0).
Proof.
  intros gr.
  assert (shape gr) as Hs by (vm_compute; reflexivity).
  assert (nodeAt (nodes gr) (0, 1) = Some (newNode 0 1)) as Hn by reflexivity.
  destruct (toggleWall_guarded_flip gr 0 1 true _ Hs Hn)
    as (Ht & gr' & Hd & _ & _ & _ & _ & Hq & _).
  split; [exact Hs|]. split; [exact Hn|]. split; [exact Ht|].
  exists gr'. split; [exact Hd|]. apply Hq. discriminate.
Defined.
Lemma better_spec n m :
  better n m = true ↔
  match f n, f m with
  | Fin x, Fin y => x < y ∨ (x = y ∧ h n < h m)
  | Fin _, Infinity => True
  | Infinity, Fin _ => False
  | Infinity, Infinity => h n < h m
  end.
Proof.
  unfold better. destruct (f n), (f m); simpl;
    rewrite ?orb_true_iff, ?andb_true_iff, ?Z.ltb_lt, ?Z.eqb_eq; try tauto.
  naive_solver.
Qed.

Lemma better_irrefl n : better n n = false.
Proof.
  apply not_true_iff_false. rewrite better_spec. destruct (f n); lia.
Qed.

Lemma better_trans a b c : better a b = true → better b c = true → better a c = true.
Proof.
  rewrite !better_spec. destruct (f a), (f b), (f c); try tauto; lia.
Qed.

Lemma better_negtrans a b c :
  better a b = false → better b c = false → better a c = false.
Proof.
  rewrite <- !not_true_iff_false, !better_spec.
  destruct (f a), (f b), (f c); try tauto; lia.
Qed.

Lemma lowest_fold ns (l : list Ref) (x0 : Ref) :
  let step := λ lowest p, if better (deref ns p) (deref ns lowest) then p else lowest in
  let r := fold_left step l x0 in
  (r = x0 ∧ ∀ j q, l !! j = Some q → better (deref ns q) (deref ns x0) = false) ∨
  (∃ i, l !! i = Some r ∧ better (deref ns r) (deref ns x0) = true ∧
        (∀ j q, l !! j = Some q → better (deref ns q) (deref ns r) = false) ∧
        (∀ j q, (j < i)%nat → l !! j = Some q → better (deref ns r) (deref ns q) = true)).
Proof.
  intros step. cbv zeta. induction l as [|y l IH] using rev_ind; simpl.
  { left. split; [done|]. intros j q Hq. by rewrite lookup_nil in Hq. }
  rewrite fold_left_app. simpl. set (r := fold_left step l x0) in *.
  assert (step r y = if better (deref ns y) (deref ns r) then y else r) as ->
    by done.
  destruct (better (deref ns y) (deref ns r)) eqn:Hy.
  - right. exists (length l). split_and!.
    + rewrite lookup_app_r by lia. by rewrite Nat.sub_diag.
    + destruct IH as [[-> _]|(i & _ & Hr & _)]; [done|].
      by apply (better_trans _ (deref ns r)).
    + intros j q Hq. apply lookup_app_Some in Hq as [Hq|[_ Hq]].
      * assert (better (deref ns q) (deref ns r) = false) as Hqr.
        { destruct IH as [[Er IH]|(i & _ & _ & IH & _)]; [rewrite Er|]; eauto. }
        destruct (better (deref ns q) (deref ns y)) eqn:E; [|done].
        rewrite (better_trans _ _ _ E Hy) in Hqr. done.
      * apply list_lookup_singleton_Some in Hq as [_ <-]. apply better_irrefl.
    + intros j q Hj Hq. rewrite lookup_app_l in Hq by done.
      assert (better (deref ns q) (deref ns r) = false) as Hqr.
      { destruct IH as [[Er IH]|(i & _ & _ & IH & _)]; [rewrite Er|]; eauto. }
      destruct (better (deref ns y) (deref ns q)) eqn:E; [done|].
      rewrite (better_negtrans _ _ _ E Hqr) in Hy. done.
  - destruct IH as [[Er IH]|(i & Hi & Hr & IH1 & IH2)].
    + left. split; [done|]. intros j q Hq.
      apply lookup_app_Some in Hq as [Hq|[_ Hq]]; [eauto|].
      apply list_lookup_singleton_Some in Hq as [_ <-]. by rewrite <- Er.
    + right. exists i. split_and!; try done.
      * by apply lookup_app_l_Some.
      * intros j q Hq. apply lookup_app_Some in Hq as [Hq|[_ Hq]]; [eauto|].
        by apply list_lookup_singleton_Some in Hq as [_ <-].
      * intros j q Hj Hq. apply lookup_lt_Some in Hi.
        rewrite lookup_app_l in Hq by lia. eauto.
Qed.

Lemma getLowestFNode_spec ns open :
  match getLowestFNode ns open with
  | None => open = []
  | Some cur =>
      ∃ i, open !! i = Some cur ∧
        (∀ j q, open !! j = Some q → better (deref ns q) (deref ns cur) = false) ∧
        (∀ j q, (j < i)%nat → open !! j = Some q →
                better (deref ns cur) (deref ns q) = true)
  end.
Proof.
  destruct open as [|x0 l]; [done|]. unfold getLowestFNode.
  destruct (lowest_fold ns (x0 :: l) x0) as [[Er H]|(i & Hi & _ & H1 & H2)].
  - exists 0%nat. rewrite Er. split_and!; [done|done|]. intros; lia.
  - exists i. done.
Qed.

Lemma removeFromArray_sublist l x : sublist (removeFromArray l x) l.
Proof.
  induction l as [|y l IH]; simpl; [done|]. case_bool_decide.
  - by apply sublist_cons.
  - by apply sublist_skip.
Qed.

Lemma relax_openSet c e a nb :
  openSet (relax c e a nb) = openSet a ∨
  ((nb ∉ openSet a) ∧ openSet (relax c e a nb) = openSet a ++ [nb]).
Proof.
  unfold relax. destruct (_ || _); [by left|].
  destruct (num_ltb _ _); [|by left]. simpl.
  case_bool_decide; [by left|by right].
Qed.

(** C7: the node [getLowestFNode] selects has the lowest [f] of the open
    set, the lowest [h] among those with that [f], and the first position
    among those with that [f] and [h]; the open set is kept in insertion
    order (a removal keeps the order of the rest, an insertion appends). *)
Theorem getLowestFNode_order :
  (∀ ns open,
     match getLowestFNode ns open with
     | None => open = []
     | Some cur =>
         ∃ i, open !! i = Some cur ∧
           ∀ j q, open !! j = Some q →
             num_le (f (deref ns cur)) (f (deref ns q)) ∧
             (f (deref ns q) = f (deref ns cur) →
                h (deref ns cur) ≤ h (deref ns q)) ∧
             (f (deref ns q) = f (deref ns cur) →
                h (deref ns q) = h (deref ns cur) → (i ≤ j)%nat)
     end) ∧
  (∀ l x, sublist (removeFromArray l x) l) ∧
  (∀ c e a nb,
     openSet (relax c e a nb) = openSet a ∨
     ((nb ∉ openSet a) ∧ openSet (relax c e a nb) = openSet a ++ [nb])).
Proof.
  split; [|split; [apply removeFromArray_sublist|apply relax_openSet]].
  intros ns open. pose proof (getLowestFNode_spec ns open) as H.
  destruct (getLowestFNode ns open) as [cur|]; [|done].
  destruct H as (i & Hi & H1 & H2). exists i. split; [done|].
  intros j q Hq. specialize (H1 j q Hq).
  apply not_true_iff_false in H1. rewrite better_spec in H1.
  split_and!.
  - unfold num_le. destruct (f (deref ns q)), (f (deref ns cur)); simpl; try done.
    + apply Z.ltb_ge. lia.
  - intros E. rewrite E in H1. destruct (f (deref ns cur)); lia.
  - intros E1 E2. destruct (decide (i ≤ j)%nat) as [|Hlt]; [done|].
    assert (better (deref ns cur) (deref ns q) = true) as Hb
      by (apply (H2 j q); [lia|done]).
    apply better_spec in Hb. rewrite E1, E2 in Hb.
    destruct (f (deref ns cur)); lia.
Qed.
Arguments idx : simpl never.
(** ** Moving the start and the goal *)

Lemma Forall2_nodeAt (P : Node → Prop) ns :
  Forall (Forall P) ns ↔ ∀ p n, nodeAt ns p = Some n → P n.
Proof.
  split.
  - intros H p n Hn. apply nodeAt_Some in Hn as (_ & _ & rw & Hrw & Hn).
    eapply Forall_lookup_1; [|exact Hn]. eapply Forall_lookup_1; [exact H|exact Hrw].
  - intros H. apply Forall_lookup_2. intros i rw Hrw.
    apply Forall_lookup_2. intros j n Hn.
    apply (H (Z.of_nat i, Z.of_nat j)). apply nodeAt_Some. simpl.
    rewrite !Nat2Z.id. split_and!; [lia|lia|]. by exists rw.
Qed.

Lemma shape_unsetStart gr : shape gr → shape (unsetStart gr).
Proof.
  intros Hs. unfold unsetStart. destruct (startNode gr); [|done].
  apply shape_set_nodes; [done|]. by apply coords_updNode.
Qed.

Lemma shape_unsetEnd gr : shape gr → shape (unsetEnd gr).
Proof.
  intros Hs. unfold unsetEnd. destruct (endNode gr); [|done].
  apply shape_set_nodes; [done|]. by apply coords_updNode.
Qed.

Lemma unsetStart_dims gr :
  rows (unsetStart gr) = rows gr ∧ cols (unsetStart gr) = cols gr.
Proof. unfold unsetStart. by destruct (startNode gr). Qed.

Lemma unsetEnd_dims gr :
  rows (unsetEnd gr) = rows gr ∧ cols (unsetEnd gr) = cols gr.
Proof. unfold unsetEnd. by destruct (endNode gr). Qed.

(** Under [shape], [l[r][c]] is a node exactly for the index pairs in
    bounds. *)
Lemma idx2_inb gr (r c : option Z) :
  shape gr →
  match idx (nodes gr) r with
  | Some rw => match idx rw c, r, c with
               | Some _, Some zr, Some zc => inb (rows gr) (cols gr) (zr, zc)
               | _, _, _ => ∀ zr zc, r = Some zr → c = Some zc →
                                     ¬ inb (rows gr) (cols gr) (zr, zc)
               end
  | None => ∀ zr zc, r = Some zr → c = Some zc → ¬ inb (rows gr) (cols gr) (zr, zc)
  end.
Proof.
  intros Hs. destruct r as [zr|]; [|simpl; by intros].
  destruct (idx (nodes gr) (Some zr)) as [rw|] eqn:Er.
  - destruct c as [zc|]; [|simpl; by intros].
    destruct (idx rw (Some zc)) as [n|] eqn:Ec.
    + apply (shape_nodeAt gr (zr, zc) n Hs). unfold nodeAt. simpl. by rewrite Er.
    + intros ? ? [= <-] [= <-] Hb. destruct (shape_inb _ _ Hs Hb) as [n Hn].
      unfold nodeAt in Hn. simpl in Hn. rewrite Er in Hn. congruence.
  - intros ? zc [= <-] -> Hb. destruct (shape_inb _ _ Hs Hb) as [n Hn].
    unfold nodeAt in Hn. simpl in Hn. by rewrite Er in Hn.
Qed.

Lemma setStartNode_inb gr p :
  shape gr → inb (rows gr) (cols gr) p →
  setStartNode (Some p.1) (Some p.2) gr = Normal tt (placeStart p gr).
Proof.
  intros Hs Hb. destruct p as [pr pc]. unfold setStartNode. cbv zeta.
  pose proof (idx2_inb (unsetStart gr) (Some pr) (Some pc) (shape_unsetStart _ Hs)) as H.
  destruct (unsetStart_dims gr) as [ER EC]. rewrite ER, EC in H. simpl.
  destruct (idx (nodes (unsetStart gr)) (Some pr)) as [rw|].
  - destruct (idx rw (Some pc)); [done|]. by destruct (H pr pc).
  - by destruct (H pr pc).
Qed.

Lemma setStartNode_oob gr r c :
  shape gr →
  (∀ zr zc, r = Some zr → c = Some zc → ¬ inb (rows gr) (cols gr) (zr, zc)) →
  ∃ gr', setStartNode r c gr = Thrown gr' ∧ nodes gr' = nodes (unsetStart gr) ∧
         rows gr' = rows gr ∧ cols gr' = cols gr.
Proof.
  intros Hs Hb. unfold setStartNode. cbv zeta.
  pose proof (idx2_inb (unsetStart gr) r c (shape_unsetStart _ Hs)) as H.
  destruct (unsetStart_dims gr) as [ER EC]. rewrite ER, EC in H.
  destruct (idx (nodes (unsetStart gr)) r) as [rw|].
  - destruct (idx rw c), r as [zr|], c as [zc|]; try (eexists; split; [done|]; done).
    by destruct (Hb zr zc).
  - eexists. split; [done|]. done.
Qed.

Lemma setEndNode_inb gr p :
  shape gr → inb (rows gr) (cols gr) p →
  setEndNode (Some p.1) (Some p.2) gr = Normal tt (placeEnd p gr).
Proof.
  intros Hs Hb. destruct p as [pr pc]. unfold setEndNode. cbv zeta.
  pose proof (idx2_inb (unsetEnd gr) (Some pr) (Some pc) (shape_unsetEnd _ Hs)) as H.
  destruct (unsetEnd_dims gr) as [ER EC]. rewrite ER, EC in H. simpl.
  destruct (idx (nodes (unsetEnd gr)) (Some pr)) as [rw|].
  - destruct (idx rw (Some pc)); [done|]. by destruct (H pr pc).
  - by destruct (H pr pc).
Qed.

Lemma setEndNode_oob gr r c :
  shape gr →
  (∀ zr zc, r = Some zr → c = Some zc → ¬ inb (rows gr) (cols gr) (zr, zc)) →
  ∃ gr', setEndNode r c gr = Thrown gr' ∧ nodes gr' = nodes (unsetEnd gr) ∧
         rows gr' = rows gr ∧ cols gr' = cols gr.
Proof.
  intros Hs Hb. unfold setEndNode. cbv zeta.
  pose proof (idx2_inb (unsetEnd gr) r c (shape_unsetEnd _ Hs)) as H.
  destruct (unsetEnd_dims gr) as [ER EC]. rewrite ER, EC in H.
  destruct (idx (nodes (unsetEnd gr)) r) as [rw|].
  - destruct (idx rw c), r as [zr|], c as [zc|]; try (eexists; split; [done|]; done).
    by destruct (Hb zr zc).
  - eexists. split; [done|]. done.
Qed.
Lemma nodeAt_unsetStart gr q :
  nodeAt (nodes (unsetStart gr)) q =
  (if decide (startNode gr = Some q) then set_isStart false else id)
    <$> nodeAt (nodes gr) q.
Proof.
  unfold unsetStart. destruct (startNode gr) as [s|]; simpl.
  - rewrite nodeAt_updNode. destruct (decide (s = q)) as [->|].
    + by rewrite decide_True.
    + rewrite decide_False by congruence. by destruct (nodeAt _ _).
  - by destruct (nodeAt _ _).
Qed.

Lemma nodeAt_unsetEnd gr q :
  nodeAt (nodes (unsetEnd gr)) q =
  (if decide (endNode gr = Some q) then set_isEnd false else id)
    <$> nodeAt (nodes gr) q.
Proof.
  unfold unsetEnd. destruct (endNode gr) as [s|]; simpl.
  - rewrite nodeAt_updNode. destruct (decide (s = q)) as [->|].
    + by rewrite decide_True.
    + rewrite decide_False by congruence. by destruct (nodeAt _ _).
  - by destruct (nodeAt _ _).
Qed.

Lemma placeStart_fields p gr :
  rows (placeStart p gr) = rows gr ∧ cols (placeStart p gr) = cols gr ∧
  startNode (placeStart p gr) = Some p ∧ endNode (placeStart p gr) = endNode gr ∧
  mouseIsPressed (placeStart p gr) = mouseIsPressed gr ∧
  currentMode (placeStart p gr) = currentMode gr.
Proof. unfold placeStart, unsetStart. by destruct (startNode gr). Qed.

Lemma placeEnd_fields p gr :
  rows (placeEnd p gr) = rows gr ∧ cols (placeEnd p gr) = cols gr ∧
  startNode (placeEnd p gr) = startNode gr ∧ endNode (placeEnd p gr) = Some p ∧
  mouseIsPressed (placeEnd p gr) = mouseIsPressed gr ∧
  currentMode (placeEnd p gr) = currentMode gr.
Proof. unfold placeEnd, unsetEnd. by destruct (endNode gr). Qed.

Lemma shape_placeStart p gr : shape gr → shape (placeStart p gr).
Proof.
  intros Hs. apply shape_unsetStart in Hs. unfold placeStart.
  apply (shape_set_nodes (set_startNode (Some p) (unsetStart gr))); [done|].
  by apply coords_updNode.
Qed.

Lemma shape_placeEnd p gr : shape gr → shape (placeEnd p gr).
Proof.
  intros Hs. apply shape_unsetEnd in Hs. unfold placeEnd.
  apply (shape_set_nodes (set_endNode (Some p) (unsetEnd gr))); [done|].
  by apply coords_updNode.
Qed.

Lemma nodeAt_placeStart p gr q :
  nodeAt (nodes (placeStart p gr)) q =
  (if decide (p = q) then setAsStart else id)
    <$> ((if decide (startNode gr = Some q) then set_isStart false else id)
           <$> nodeAt (nodes gr) q).
Proof.
  unfold placeStart. simpl. rewrite nodeAt_updNode, nodeAt_unsetStart.
  case_decide; [done|]. by destruct (_ <$> _).
Qed.

Lemma nodeAt_placeEnd p gr q :
  nodeAt (nodes (placeEnd p gr)) q =
  (if decide (p = q) then setAsEnd else id)
    <$> ((if decide (endNode gr = Some q) then set_isEnd false else id)
           <$> nodeAt (nodes gr) q).
Proof.
  unfold placeEnd. simpl. rewrite nodeAt_updNode, nodeAt_unsetEnd.
  case_decide; [done|]. by destruct (_ <$> _).
Qed.

Lemma flags_placeStart gr p fs fe fw :
  flags gr fs fe fw →
  flags (placeStart p gr)
    (λ q, bool_decide (q = p) || (fs q && negb (bool_decide (startNode gr = Some q))))
    (λ q, fe q && negb (bool_decide (q = p)))
    (λ q, fw q && negb (bool_decide (q = p))).
Proof.
  intros Hf q n. rewrite nodeAt_placeStart.
  destruct (nodeAt (nodes gr) q) as [n0|] eqn:E; [|done]. simpl.
  destruct (Hf q n0 E) as (H1 & H2 & H3). intros [= <-].
  destruct (decide (p = q)) as [->|Hne].
  - rewrite !bool_decide_eq_true_2 by done. simpl. by rewrite !andb_false_r.
  - rewrite !(bool_decide_eq_false_2 (q = p)) by done. simpl.
    rewrite !andb_true_r. case_decide.
    + by rewrite bool_decide_eq_true_2, andb_false_r by done.
    + by rewrite bool_decide_eq_false_2, andb_true_r by done.
Qed.

Lemma flags_placeEnd gr p fs fe fw :
  flags gr fs fe fw →
  flags (placeEnd p gr)
    (λ q, fs q && negb (bool_decide (q = p)))
    (λ q, bool_decide (q = p) || (fe q && negb (bool_decide (endNode gr = Some q))))
    (λ q, fw q && negb (bool_decide (q = p))).
Proof.
  intros Hf q n. rewrite nodeAt_placeEnd.
  destruct (nodeAt (nodes gr) q) as [n0|] eqn:E; [|done]. simpl.
  destruct (Hf q n0 E) as (H1 & H2 & H3). intros [= <-].
  destruct (decide (p = q)) as [->|Hne].
  - rewrite !bool_decide_eq_true_2 by done. simpl. by rewrite !andb_false_r.
  - rewrite !(bool_decide_eq_false_2 (q = p)) by done. simpl.
    rewrite !andb_true_r. case_decide.
    + by rewrite bool_decide_eq_true_2, andb_false_r by done.
    + by rewrite bool_decide_eq_false_2, andb_true_r by done.
Qed.

Lemma flags_ext gr fs fe fw fs' fe' fw' :
  flags gr fs fe fw →
  (∀ q, is_Some (nodeAt (nodes gr) q) → fs q = fs' q ∧ fe q = fe' q ∧ fw q = fw' q) →
  flags gr fs' fe' fw'.
Proof.
  intros Hf He q n Hn. destruct (Hf q n Hn) as (-> & -> & ->).
  apply He. by eexists.
Qed.

Lemma is_Some_nodeAt_placeStart p gr q :
  is_Some (nodeAt (nodes (placeStart p gr)) q) ↔ is_Some (nodeAt (nodes gr) q).
Proof. rewrite nodeAt_placeStart, !fmap_is_Some. done. Qed.

Lemma is_Some_nodeAt_placeEnd p gr q :
  is_Some (nodeAt (nodes (placeEnd p gr)) q) ↔ is_Some (nodeAt (nodes gr) q).
Proof. rewrite nodeAt_placeEnd, !fmap_is_Some. done. Qed.

(** [grid_inv] in terms of [flags]. *)
Lemma grid_inv_flags gr :
  grid_inv gr ↔
  shape gr ∧ ∃ s e fw,
    startNode gr = Some s ∧ endNode gr = Some e ∧ s ≠ e ∧
    is_Some (nodeAt (nodes gr) s) ∧ is_Some (nodeAt (nodes gr) e) ∧
    flags gr (λ q, bool_decide (q = s)) (λ q, bool_decide (q = e)) fw ∧
    (∀ q, fw q = true → q ≠ s ∧ q ≠ e).
Proof.
  unfold grid_inv. split.
  - intros [Hs H]. split; [done|].
    destruct (startNode gr) as [s|], (endNode gr) as [e|]; try done.
    destruct H as (Hne & Hss & Hse & Hall).
    exists s, e, (λ q, isWall (deref (nodes gr) q) && bool_decide (q ≠ s)
                       && bool_decide (q ≠ e)).
    split_and!; try done.
    + intros q n Hn. rewrite Forall2_nodeAt in Hall.
      destruct (Hall q n Hn) as (H1 & H2 & H3).
      destruct (shape_nodeAt _ _ _ Hs Hn) as [Hq _]. rewrite Hq in *.
      rewrite (deref_nodeAt _ _ _ Hn). split_and!; [done|done|].
      destruct (isWall n); [|done]. destruct H3 as [? ?]; [done|].
      by rewrite !bool_decide_eq_true_2.
    + intros q. rewrite !andb_true_iff, !bool_decide_eq_true. tauto.
  - intros (Hs & s & e & fw & -> & -> & Hne & Hss & Hse & Hf & Hw).
    split; [done|]. split_and!; try done.
    apply Forall2_nodeAt. intros q n Hn.
    destruct (Hf q n Hn) as (H1 & H2 & H3).
    destruct (shape_nodeAt _ _ _ Hs Hn) as [Hq _]. unfold cell_ok.
    rewrite Hq. split_and!; [done|done|]. rewrite H3. apply Hw.
Qed.
(** ** The operations keep the invariant *)

Lemma placeStart_inv gr p :
  grid_inv gr → inb (rows gr) (cols gr) p → endNode gr ≠ Some p →
  grid_inv (placeStart p gr).
Proof.
  rewrite !grid_inv_flags.
  intros (Hs & s & e & fw & Es & Ee & Hne & Hss & Hse & Hf & Hw) Hb Hpe.
  split; [by apply shape_placeStart|].
  destruct (placeStart_fields p gr) as (_ & _ & Fs & Fe & _).
  exists p, e, (λ q, fw q && negb (bool_decide (q = p))).
  rewrite Fs, Fe, Ee. split_and!; try done.
  - congruence.
  - apply is_Some_nodeAt_placeStart. by apply shape_inb.
  - by apply is_Some_nodeAt_placeStart.
  - eapply flags_ext; [by apply flags_placeStart|].
    intros q _. simpl. split_and!; [|
      |done].
    + rewrite Es. destruct (decide (q = p)) as [->|Hqp].
      * by rewrite bool_decide_eq_true_2.
      * rewrite (bool_decide_eq_false_2 (q = p)) by done. simpl.
        destruct (decide (q = s)) as [->|Hqs].
        -- by rewrite (bool_decide_eq_true_2 (Some s = Some s)), andb_false_r.
        -- by rewrite (bool_decide_eq_false_2 (q = s)).
    + destruct (decide (q = p)) as [->|Hqp].
      * rewrite (bool_decide_eq_true_2 (p = p)) by done.
        rewrite bool_decide_eq_false_2; [done|]. congruence.
      * rewrite (bool_decide_eq_false_2 (q = p)) by done. apply andb_true_r.
  - intros q. rewrite andb_true_iff, negb_true_iff, bool_decide_eq_false.
    intros [Hq ?]. destruct (Hw q Hq). done.
Qed.

Lemma placeEnd_inv gr p :
  grid_inv gr → inb (rows gr) (cols gr) p → startNode gr ≠ Some p →
  grid_inv (placeEnd p gr).
Proof.
  rewrite !grid_inv_flags.
  intros (Hs & s & e & fw & Es & Ee & Hne & Hss & Hse & Hf & Hw) Hb Hpe.
  split; [by apply shape_placeEnd|].
  destruct (placeEnd_fields p gr) as (_ & _ & Fs & Fe & _).
  exists s, p, (λ q, fw q && negb (bool_decide (q = p))).
  rewrite Fs, Fe, Es. split_and!; try done.
  - congruence.
  - by apply is_Some_nodeAt_placeEnd.
  - apply is_Some_nodeAt_placeEnd. by apply shape_inb.
  - eapply flags_ext; [by apply flags_placeEnd|].
    intros q _. simpl. split_and!; [| |done].
    + destruct (decide (q = p)) as [->|Hqp].
      * rewrite (bool_decide_eq_true_2 (p = p)) by done.
        rewrite bool_decide_eq_false_2; [done|]. congruence.
      * rewrite (bool_decide_eq_false_2 (q = p)) by done. apply andb_true_r.
    + rewrite Ee. destruct (decide (q = p)) as [->|Hqp].
      * by rewrite bool_decide_eq_true_2.
      * rewrite (bool_decide_eq_false_2 (q = p)) by done. simpl.
        destruct (decide (q = e)) as [->|Hqs].
        -- by rewrite (bool_decide_eq_true_2 (Some e = Some e)), andb_false_r.
        -- by rewrite (bool_decide_eq_false_2 (q = e)).
  - intros q. rewrite andb_true_iff, negb_true_iff, bool_decide_eq_false.
    intros [Hq ?]. destruct (Hw q Hq). done.
Qed.
Lemma flags_set_nodes_fmap gr fn fs fe fw fs' fe' fw' :
  flags gr fs fe fw →
  (∀ q n, nodeAt (nodes gr) q = Some n →
     isStart (fn n) = fs' q ∧ isEnd (fn n) = fe' q ∧ isWall (fn n) = fw' q) →
  flags (set_nodes ((λ rw : list Node, fn <$> rw) <$> nodes gr) gr) fs' fe' fw'.
Proof.
  intros _ H q n. simpl. rewrite nodeAt_fmap.
  destruct (nodeAt (nodes gr) q) as [n0|] eqn:E; [|done].
  intros [= <-]. by apply H.
Qed.

Lemma clearWalls_spec gr :
  shape gr →
  clearWalls gr
  = Normal tt (set_nodes ((λ rw : list Node, clearWall <$> rw) <$> nodes gr) gr).
Proof.
  intros Hs. apply forCells_touch; [done|].
  intros n. unfold clearWall. by destruct (isWall n).
Qed.

Lemma clearWall_flags n :
  isStart (clearWall n) = isStart n ∧ isEnd (clearWall n) = isEnd n ∧
  isWall (clearWall n) = false ∧ row (clearWall n) = row n ∧
  col (clearWall n) = col n.
Proof. unfold clearWall. by destruct (isWall n) eqn:E. Qed.

Lemma shape_fmap gr fn :
  shape gr → (∀ n, row (fn n) = row n ∧ col (fn n) = col n) →
  shape (set_nodes ((λ rw : list Node, fn <$> rw) <$> nodes gr) gr).
Proof. intros Hs Hfn. apply shape_set_nodes; [done|]. by apply coords_fmap. Qed.

Lemma clearWalls_inv gr :
  grid_inv gr → ∃ gr', clearWalls gr = Normal tt gr' ∧ grid_inv gr' ∧
    flags gr' (λ q, bool_decide (Some q = startNode gr))
              (λ q, bool_decide (Some q = endNode gr)) (λ _, false) ∧
    gr' = set_nodes (nodes gr') gr.
Proof.
  intros Hinv. pose proof Hinv as Hinv'. apply grid_inv_flags in Hinv'.
  destruct Hinv' as (Hs & s & e & fw & Es & Ee & Hne & Hss & Hse & Hf & Hw).
  eexists. split; [by apply clearWalls_spec|].
  assert (flags (set_nodes ((λ rw : list Node, clearWall <$> rw) <$> nodes gr) gr)
            (λ q, bool_decide (q = s)) (λ q, bool_decide (q = e)) (λ _, false)) as Hf'.
  { eapply flags_set_nodes_fmap; [done|]. intros q n Hn.
    destruct (Hf q n Hn) as (H1 & H2 & _).
    destruct (clearWall_flags n) as (-> & -> & -> & _). done. }
  split_and!.
  - apply grid_inv_flags. split.
    { apply shape_fmap; [done|]. intros n. by destruct (clearWall_flags n) as (_&_&_&?&?). }
    exists s, e, (λ _, false). simpl. split_and!; try done.
    + rewrite nodeAt_fmap. by apply fmap_is_Some.
    + rewrite nodeAt_fmap. by apply fmap_is_Some.
  - rewrite Es, Ee. eapply flags_ext; [exact Hf'|]. intros q _. simpl.
    split_and!; [| |done]; apply bool_decide_ext; naive_solver.
  - by destruct gr.
Qed.

Lemma clickWall_fields u n :
  isStart n = false → isEnd n = false →
  isStart (clickWall u n) = false ∧ isEnd (clickWall u n) = false ∧
  row (clickWall u n) = row n ∧ col (clickWall u n) = col n.
Proof.
  intros H1 H2. unfold clickWall, toggleWall. rewrite H1, H2. simpl.
  by destruct (negb (isWall n)).
Qed.

Lemma clickWall_rowcol u n :
  row (clickWall u n) = row n ∧ col (clickWall u n) = col n.
Proof.
  destruct (toggleWall_fields n) as (H1 & H2 & _).
  unfold clickWall. by destruct (isWall (toggleWall n)).
Qed.

Lemma handleMouseDown_inv gr r c u :
  grid_inv gr → ∃ gr', handleMouseDown r c u gr = Normal tt gr' ∧ grid_inv gr'.
Proof.
  intros Hinv. pose proof Hinv as Hinv'. apply grid_inv_flags in Hinv'.
  destruct Hinv' as (Hs & s & e & fw & Es & Ee & Hne & Hss & Hse & Hf & Hw).
  destruct (nodeAt (nodes gr) (r, c)) as [n|] eqn:Hn.
  - eexists. split; [by apply handleMouseDown_spec|].
    destruct (Hf _ _ Hn) as (H1 & H2 & H3).
    destruct (isStart n) eqn:E1; [|destruct (isEnd n) eqn:E2].
    + by destruct gr.
    + by destruct gr.
    + symmetry in H1, H2. apply bool_decide_eq_false in H1, H2.
      destruct (clickWall_fields u n E1 E2) as (C1 & C2 & C3 & C4).
      apply grid_inv_flags. split.
      { apply (shape_set_nodes (set_currentMode ModeWall (set_mouseIsPressed true gr)));
          [exact Hs|]. simpl. apply coords_updNode.
        apply clickWall_rowcol. }
      exists s, e, (λ q, if decide (q = (r, c)) then isWall (clickWall u n) else fw q).
      unfold flags. cbn [nodes set_nodes startNode endNode set_currentMode set_mouseIsPressed].
      split_and!; try done.
      * rewrite nodeAt_updNode. case_decide; [by apply fmap_is_Some|done].
      * rewrite nodeAt_updNode. case_decide; [by apply fmap_is_Some|done].
      * intros q n'. rewrite nodeAt_updNode. case_decide as Hq.
        -- subst q. rewrite Hn. intros [= <-]. rewrite decide_True by done.
           rewrite C1, C2. split_and!; [|
             |done]; symmetry; by apply bool_decide_eq_false.
        -- intros Hn'. rewrite decide_False by done. by apply Hf.
      * intros q. case_decide; [subst; done|]. apply Hw.
  - exists gr. split; [by apply handleMouseDown_outside|done].
Qed.
(** ** Construction and reset *)

Lemma initializeGrid_shape gr : shape (initializeGrid gr).
Proof.
  unfold shape, initializeGrid, coords, coordGrid. simpl.
  rewrite <- list_fmap_compose. apply list_fmap_ext. intros _ r _. simpl.
  rewrite <- list_fmap_compose. by apply list_fmap_ext.
Qed.

Lemma initializeGrid_nodeAt gr q n :
  nodeAt (nodes (initializeGrid gr)) q = Some n → n = newNode q.1 q.2.
Proof.
  intros Hn. apply nodeAt_Some in Hn as (H1 & H2 & rw & Hrw & Hn).
  unfold initializeGrid in Hrw. simpl in Hrw.
  apply list_lookup_fmap_Some in Hrw as (r & -> & Hr).
  apply list_lookup_fmap_Some in Hn as (c & -> & Hc).
  apply lookup_upto in Hr as [-> _], Hc as [-> _]. f_equal; lia.
Qed.

Lemma initializeGrid_flags gr :
  flags (initializeGrid gr) (λ _, false) (λ _, false) (λ _, false).
Proof. intros q n Hn. by rewrite (initializeGrid_nodeAt _ _ _ Hn). Qed.

Lemma quarter_bounds k n : 0 ≤ k < 4 → 1 ≤ n → 0 ≤ k * n / 4 < n.
Proof.
  intros Hk Hn. split.
  - apply Z.div_pos; nia.
  - apply Z.div_lt_upper_bound; nia.
Qed.

Lemma quarter_distinct n : 2 ≤ n → 1 * n / 4 ≠ 3 * n / 4.
Proof.
  intros Hn.
  assert (1 * n / 4 + 1 ≤ 3 * n / 4); [|lia].
  rewrite <- (Z.div_add (1 * n) 1 4) by lia.
  apply Z.div_le_mono; lia.
Qed.

Lemma setDefaultStartEnd_ok gr R C :
  shape gr → rows gr = Some R → cols gr = Some C → 1 ≤ R → 1 ≤ C →
  setDefaultStartEnd gr
  = Normal tt (placeEnd (3 * R / 4, 3 * C / 4) (placeStart (1 * R / 4, 1 * C / 4) gr)).
Proof.
  intros Hs HR HC H1 H2. unfold setDefaultStartEnd, mbind, M_bind.
  rewrite HR, HC.
  change (quarter 1 (Some R)) with (Some (1 * R / 4)).
  change (quarter 1 (Some C)) with (Some (1 * C / 4)).
  change (quarter 3 (Some R)) with (Some (3 * R / 4)).
  change (quarter 3 (Some C)) with (Some (3 * C / 4)).
  assert (inb (rows gr) (cols gr) (1 * R / 4, 1 * C / 4)) as Hbs.
  { rewrite HR, HC. split; apply quarter_bounds; lia. }
  pose proof (setStartNode_inb gr _ Hs Hbs) as E. cbn [fst snd] in E. rewrite E.
  destruct (placeStart_fields (1 * R / 4, 1 * C / 4) gr) as (FR & FC & _).
  apply (setEndNode_inb _ (3 * R / 4, 3 * C / 4)); [by apply shape_placeStart|].
  rewrite FR, FC, HR, HC. split; apply quarter_bounds; lia.
Qed.

(** Default placement on a grid without flags gives a grid with the
    invariant and without walls. *)
Lemma default_placement_inv gr R C :
  shape gr → rows gr = Some R → cols gr = Some C → 1 ≤ R → 1 ≤ C →
  2 ≤ R ∨ 2 ≤ C →
  flags gr (λ _, false) (λ _, false) (λ _, false) →
  let ds := (1 * R / 4, 1 * C / 4) in
  let de := (3 * R / 4, 3 * C / 4) in
  let gr' := placeEnd de (placeStart ds gr) in
  grid_inv gr' ∧
  flags gr' (λ q, bool_decide (q = ds)) (λ q, bool_decide (q = de)) (λ _, false) ∧
  rows gr' = Some R ∧ cols gr' = Some C ∧
  startNode gr' = Some ds ∧ endNode gr' = Some de.
Proof.
  intros Hs HR HC H1 H2 H3 Hf ds de gr'.
  assert (ds ≠ de) as Hne.
  { unfold ds, de. intros [= E1 E2].
    destruct H3; [by apply (quarter_distinct R)|by apply (quarter_distinct C)]. }
  assert (inb (rows gr) (cols gr) ds) as Hbs.
  { rewrite HR, HC. split; apply quarter_bounds; lia. }
  assert (inb (rows gr) (cols gr) de) as Hbe.
  { rewrite HR, HC. split; apply quarter_bounds; lia. }
  destruct (placeStart_fields ds gr) as (FR & FC & FS & FE & _).
  destruct (placeEnd_fields de (placeStart ds gr)) as (GR & GC & GS & GE & _).
  fold gr' in GR, GC, GS, GE.
  assert (flags gr' (λ q, bool_decide (q = ds)) (λ q, bool_decide (q = de))
                (λ _, false)) as Hf'.
  { eapply flags_ext.
    { apply flags_placeEnd, flags_placeStart, Hf. }
    intros q _. simpl. split_and!; [| |done].
    - rewrite orb_false_r. destruct (decide (q = de)) as [->|].
      + rewrite (bool_decide_eq_true_2 (de = de)) by done.
        rewrite andb_false_r. symmetry. by apply bool_decide_eq_false_2.
      + rewrite (bool_decide_eq_false_2 (q = de)) by done. apply andb_true_r.
    - by rewrite orb_false_r. }
  split_and!; try done; try congruence.
  apply grid_inv_flags. split; [by apply shape_placeEnd, shape_placeStart|].
  exists ds, de, (λ _, false). split_and!; try done; try congruence.
  - by apply is_Some_nodeAt_placeEnd, is_Some_nodeAt_placeStart, shape_inb.
  - by apply is_Some_nodeAt_placeEnd, is_Some_nodeAt_placeStart, shape_inb.
Qed.

Lemma resetGrid_inv gr R C :
  rows gr = Some R → cols gr = Some C → 1 ≤ R → 1 ≤ C → 2 ≤ R ∨ 2 ≤ C →
  ∃ gr', resetGrid gr = Normal tt gr' ∧ grid_inv gr' ∧
    flags gr' (λ q, bool_decide (q = (1 * R / 4, 1 * C / 4)))
              (λ q, bool_decide (q = (3 * R / 4, 3 * C / 4))) (λ _, false) ∧
    rows gr' = Some R ∧ cols gr' = Some C ∧
    startNode gr' = Some (1 * R / 4, 1 * C / 4) ∧
    endNode gr' = Some (3 * R / 4, 3 * C / 4).
Proof.
  intros HR HC H1 H2 H3. eexists. split.
  - unfold resetGrid. apply (setDefaultStartEnd_ok _ R C); try done.
    apply initializeGrid_shape.
  - apply (default_placement_inv (initializeGrid gr) R C); try done.
    + apply initializeGrid_shape.
    + apply initializeGrid_flags.
Qed.

Lemma newGrid_inv R C :
  1 ≤ R → 1 ≤ C → 2 ≤ R ∨ 2 ≤ C →
  ∃ gr', newGrid (Some R) (Some C) = Normal tt gr' ∧ grid_inv gr' ∧
    rows gr' = Some R ∧ cols gr' = Some C.
Proof.
  intros H1 H2 H3.
  destruct (resetGrid_inv (mkGrid (Some R) (Some C) [] None None false ModeWall) R C)
    as (gr' & E & Hinv & _ & HR & HC & _); try done.
  by exists gr'.
Qed.

Lemma resize_inv gr R C :
  1 ≤ R → 1 ≤ C → 2 ≤ R ∨ 2 ≤ C →
  ∃ gr', resize (Some R) (Some C) gr = Normal tt gr' ∧ grid_inv gr' ∧
    flags gr' (λ q, bool_decide (q = (1 * R / 4, 1 * C / 4)))
              (λ q, bool_decide (q = (3 * R / 4, 3 * C / 4))) (λ _, false) ∧
    rows gr' = Some R ∧ cols gr' = Some C ∧
    startNode gr' = Some (1 * R / 4, 1 * C / 4) ∧
    endNode gr' = Some (3 * R / 4, 3 * C / 4).
Proof. intros H1 H2 H3. unfold resize. by apply resetGrid_inv. Qed.
(** ** The invariant as the specification words it *)

Lemma filter_none {A : Type} (P : A → Prop) `{!∀ x, Decision (P x)} (l : list A) :
  (∀ x, x ∈ l → ¬ P x) → filter P l = [].
Proof.
  induction l as [|x l IH]; intros Hall; [done|].
  rewrite filter_cons_False by (apply Hall; left).
  apply IH. intros y Hy. apply Hall. by right.
Qed.

Lemma elem_of_concat_nodeAt ns n :
  n ∈ concat ns ↔ ∃ q, nodeAt ns q = Some n.
Proof.
  rewrite list_elem_of_In, in_concat. split.
  - intros (rw & Hrw & Hn). apply list_elem_of_In, list_elem_of_lookup in Hrw as [i Hi].
    apply list_elem_of_In, list_elem_of_lookup in Hn as [j Hj].
    exists (Z.of_nat i, Z.of_nat j). apply nodeAt_Some. simpl.
    rewrite !Nat2Z.id. split_and!; [lia|lia|]. by exists rw.
  - intros (q & Hq). apply nodeAt_Some in Hq as (_ & _ & rw & Hrw & Hn).
    exists rw. split; apply list_elem_of_In; by eapply list_elem_of_lookup_2.
Qed.

(** A flag carried by exactly the cell [s] is carried by exactly one
    node of the list of all cells. *)
Lemma filter_flag_cells (P : Node → bool) ns s n_s :
  (∀ q n, nodeAt ns q = Some n → P n = bool_decide (q = s)) →
  nodeAt ns s = Some n_s →
  filter (λ n, P n = true) (concat ns) = [n_s].
Proof.
  intros HP Hs. pose proof Hs as Hs'.
  apply nodeAt_Some in Hs' as (H1 & H2 & rw & Hrw & Hn).
  rewrite <- (take_drop_middle _ _ _ Hrw), concat_app, concat_cons.
  rewrite <- (take_drop_middle _ _ _ Hn).
  rewrite !list.filter_app, filter_cons_True.
  2:{ rewrite (HP s n_s Hs). by apply bool_decide_eq_true_2. }
  assert (∀ i j rw' n, ns !! i = Some rw' → rw' !! j = Some n →
            (i, j) ≠ (Z.to_nat s.1, Z.to_nat s.2) → ¬ (P n = true)) as Hoff.
  { intros i j rw' n Hi Hj Hne.
    rewrite (HP (Z.of_nat i, Z.of_nat j) n).
    - rewrite bool_decide_eq_true. intros <-. simpl in Hne.
      by rewrite !Nat2Z.id in Hne.
    - apply nodeAt_Some. simpl. rewrite !Nat2Z.id. split_and!; [lia|lia|].
      by exists rw'. }
  rewrite (filter_none _ (concat (take _ ns))), (filter_none _ (take _ rw)),
    (filter_none _ (drop _ rw)), (filter_none _ (concat (drop _ ns))); [done|..].
  - intros n Hin. apply list_elem_of_In, in_concat in Hin as (rw' & Hrw' & Hin).
    apply list_elem_of_In, list_elem_of_lookup in Hrw' as [i Hi].
    apply list_elem_of_In, list_elem_of_lookup in Hin as [j Hj].
    rewrite lookup_drop in Hi. eapply Hoff; [exact Hi|exact Hj|].
    intros [= E _]. lia.
  - intros n Hin. apply list_elem_of_lookup in Hin as [j Hj].
    rewrite lookup_drop in Hj. eapply Hoff; [exact Hrw|exact Hj|].
    intros [= E]. lia.
  - intros n Hin. apply elem_of_take in Hin as (j & Hj & Hlt).
    eapply Hoff; [exact Hrw|exact Hj|]. intros [= E]. lia.
  - intros n Hin. apply list_elem_of_In, in_concat in Hin as (rw' & Hrw' & Hin).
    apply list_elem_of_In, elem_of_take in Hrw' as (i & Hi & Hlt).
    apply list_elem_of_In, list_elem_of_lookup in Hin as [j Hj].
    eapply Hoff; [exact Hi|exact Hj|]. intros [= E _]. lia.
Qed.

Lemma grid_inv_layout gr : grid_inv gr → layout_inv gr.
Proof.
  intros Hinv. pose proof Hinv as [_ Hcells].
  apply grid_inv_flags in Hinv.
  destruct Hinv as (Hs & s & e & fw & Es & Ee & Hne & [ns Hns] & [ne Hne'] & Hf & Hw).
  unfold layout_inv, cells. split_and!.
  - rewrite (filter_flag_cells isStart _ s ns); [done| |done].
    intros q n Hn. by destruct (Hf q n Hn) as (-> & _).
  - rewrite (filter_flag_cells isEnd _ e ne); [done| |done].
    intros q n Hn. by destruct (Hf q n Hn) as (_ & -> & _).
  - apply Forall_forall. intros n Hin.
    apply elem_of_concat_nodeAt in Hin as [q Hq].
    destruct (Hf q n Hq) as (H1 & H2 & H3). unfold exclusive.
    rewrite H1, H2, H3.
    destruct (fw q) eqn:E.
    + destruct (Hw q E). by rewrite !bool_decide_eq_false_2.
    + rewrite !andb_false_r. simpl. rewrite andb_true_r.
      destruct (decide (q = s)) as [->|].
      * by rewrite (bool_decide_eq_false_2 (s = e)), andb_false_r.
      * by rewrite (bool_decide_eq_false_2 (q = s)).
  - by rewrite Es.
  - by rewrite Ee.
  - rewrite Es, Ee. congruence.
Qed.
(** ** C5: setStartNode and setEndNode *)

Lemma setAsStart_unset n : setAsStart (set_isStart false n) = setAsStart n.
Proof. done. Qed.

Lemma setAsEnd_unset n : setAsEnd (set_isEnd false n) = setAsEnd n.
Proof. done. Qed.

Lemma handleMouseEnter_guard gr r c u n :
  shape gr → mouseIsPressed gr = true → nodeAt (nodes gr) (r, c) = Some n →
  (currentMode gr = ModeStart → isEnd n = true ∨ isWall n = true →
   handleMouseEnter r c u gr = Normal tt gr) ∧
  (currentMode gr = ModeEnd → isStart n = true ∨ isWall n = true →
   handleMouseEnter r c u gr = Normal tt gr).
Proof.
  intros Hs Hp Hn. unfold handleMouseEnter, mbind, M_bind, gets.
  rewrite Hp. simpl. rewrite getNode_spec, Hn by done. simpl.
  split; intros -> [E|E]; rewrite E; simpl; by rewrite ?andb_false_r.
Qed.

(** C5, as the code has it: [setStartNode] and [setEndNode] do not
    validate.  On a cell of the grid they move the role there (the target
    becomes [setAsStart]/[setAsEnd] of itself: role set, opposite role and
    obstacle flag cleared), clear the role on the previous holder and touch
    no other cell, also when the target holds the opposite role; off the
    grid they throw.  The rejection of a target that holds the opposite
    role or an obstacle is the guard of [handleMouseEnter]. *)
Theorem setStartNode_setEndNode_move gr p u n :
  shape gr → nodeAt (nodes gr) p = Some n →
  (∃ gr', setStartNode (Some p.1) (Some p.2) gr = Normal tt gr' ∧
     startNode gr' = Some p ∧ endNode gr' = endNode gr ∧
     rows gr' = rows gr ∧ cols gr' = cols gr ∧
     ∀ q, nodeAt (nodes gr') q =
          (λ m, if decide (q = p) then setAsStart m
                else if decide (startNode gr = Some q) then set_isStart false m
                else m) <$> nodeAt (nodes gr) q) ∧
  (∃ gr', setEndNode (Some p.1) (Some p.2) gr = Normal tt gr' ∧
     endNode gr' = Some p ∧ startNode gr' = startNode gr ∧
     rows gr' = rows gr ∧ cols gr' = cols gr ∧
     ∀ q, nodeAt (nodes gr') q =
          (λ m, if decide (q = p) then setAsEnd m
                else if decide (endNode gr = Some q) then set_isEnd false m
                else m) <$> nodeAt (nodes gr) q) ∧
  (∀ r c, ¬ inb (rows gr) (cols gr) (r, c) →
     (∃ gr', setStartNode (Some r) (Some c) gr = Thrown gr') ∧
     (∃ gr', setEndNode (Some r) (Some c) gr = Thrown gr')) ∧
  (mouseIsPressed gr = true → currentMode gr = ModeStart →
   isEnd n = true ∨ isWall n = true →
   handleMouseEnter p.1 p.2 u gr = Normal tt gr) ∧
  (mouseIsPressed gr = true → currentMode gr = ModeEnd →
   isStart n = true ∨ isWall n = true →
   handleMouseEnter p.1 p.2 u gr = Normal tt gr).
Proof.
  intros Hs Hn. destruct (shape_nodeAt _ _ _ Hs Hn) as [_ Hb].
  split_and!.
  - exists (placeStart p gr). split; [by apply setStartNode_inb|].
    destruct (placeStart_fields p gr) as (? & ? & ? & ? & _).
    split_and!; try done. intros q. rewrite nodeAt_placeStart.
    destruct (nodeAt (nodes gr) q) as [m|]; [|done]. simpl.
    destruct (decide (p = q)) as [->|].
    + rewrite (decide_True (P := q = q)) by done. destruct (decide _); reflexivity.
    + rewrite (decide_False (P := q = p)) by done. destruct (decide _); reflexivity.
  - exists (placeEnd p gr). split; [by apply setEndNode_inb|].
    destruct (placeEnd_fields p gr) as (? & ? & ? & ? & _).
    split_and!; try done. intros q. rewrite nodeAt_placeEnd.
    destruct (nodeAt (nodes gr) q) as [m|]; [|done]. simpl.
    destruct (decide (p = q)) as [->|].
    + rewrite (decide_True (P := q = q)) by done. destruct (decide _); reflexivity.
    + rewrite (decide_False (P := q = p)) by done. destruct (decide _); reflexivity.
  - intros r c Hoob. split.
    + destruct (setStartNode_oob gr (Some r) (Some c) Hs) as (gr' & E & _).
      * by intros ? ? [= <-] [= <-].
      * by exists gr'.
    + destruct (setEndNode_oob gr (Some r) (Some c) Hs) as (gr' & E & _).
      * by intros ? ? [= <-] [= <-].
      * by exists gr'.
  - intros Hp Hm Hflag. destruct p as [pr pc].
    destruct (handleMouseEnter_guard gr pr pc u n Hs Hp Hn) as [G _]. by apply G.
  - intros Hp Hm Hflag. destruct p as [pr pc].
    destruct (handleMouseEnter_guard gr pr pc u n Hs Hp Hn) as [_ G]. by apply G.
Qed.

Lemma setStartNode_setEndNode_move_witness :
  shape grid3 ∧
  nodeAt (nodes grid3) (1, 1) = Some (newNode 1 1) ∧
  ∃ gr', setStartNode (Some 1) (Some 1) grid3 = Normal tt gr' ∧
         startNode gr' = Some (1, 1).
Proof.
  assert (shape grid3) as Hs by (vm_compute; reflexivity).
  assert (nodeAt (nodes grid3) (1, 1) = Some (newNode 1 1)) as Hn
    by (vm_compute; reflexivity).
  destruct (setStartNode_setEndNode_move grid3 (1, 1) true _ Hs Hn)
    as ((gr' & E & Hst & _) & _).
  split; [exact Hs|]. split; [exact Hn|]. exists gr'. split; [exact E|exact Hst].
Defined.

(** C5 as stated fails: a [setStartNode] on the goal cell is not rejected;
    it takes the goal flag off the cell and leaves the grid without a
    goal. *)
Lemma setStartNode_on_goal_counterexample :
  endNode grid3 = Some (2, 2) ∧
  isEnd (deref (nodes grid3) (2, 2)) = true ∧
  ∃ gr', setStartNode (Some 2) (Some 2) grid3 = Normal tt gr' ∧
         gr' ≠ grid3 ∧
         isStart (deref (nodes gr') (2, 2)) = true ∧
         isEnd (deref (nodes gr') (2, 2)) = false ∧
         filter (λ n, isEnd n = true) (cells gr') = [].
Proof.
  split; [reflexivity|]. split; [reflexivity|].
  eexists. split; [vm_compute; reflexivity|].
  split; [|split; [reflexivity|split; reflexivity]].
  intros E. apply (f_equal (λ gr, isEnd (deref (nodes gr) (2, 2)))) in E.
  vm_compute in E. discriminate.
Qed.
(** ** Export *)






(** ** Import *)

Lemma bind_Normal {A B : Type} (m : M A) (k : A → M B) gr a gr' :
  m gr = Normal a gr' → (m ≫= k) gr = k a gr'.
Proof. intros E. unfold mbind, M_bind. by rewrite E. Qed.

Lemma bind_Thrown {A B : Type} (m : M A) (k : A → M B) gr gr' :
  m gr = Thrown gr' → (m ≫= k) gr = Thrown gr'.
Proof. intros E. unfold mbind, M_bind. by rewrite E. Qed.

Lemma sameCell_true o r c : sameCell o r c = true ↔ o = Some (r, c).
Proof.
  unfold sameCell. destruct o as [[pr pc]|]; simpl; [|done].
  rewrite andb_true_iff, !bool_decide_eq_true. naive_solver.
Qed.

Lemma clearedGrid_shape gr :
  shape gr → shape (clearedGrid gr) ∧
  rows (clearedGrid gr) = rows gr ∧ cols (clearedGrid gr) = cols gr.
Proof.
  intros Hs. unfold clearedGrid. cbv zeta.
  set (gr1 := set_nodes _ gr).
  assert (shape gr1) as Hs1.
  { apply shape_fmap; [done|]. intros n. by destruct (clearWall_flags n) as (_&_&_&?&?). }
  set (gr2 := match startNode gr1 with Some _ => _ | None => _ end).
  assert (shape gr2 ∧ rows gr2 = rows gr ∧ cols gr2 = cols gr) as (Hs2 & R2 & C2).
  { unfold gr2. destruct (startNode gr1); [|done]. split; [|done].
    apply (shape_set_nodes (set_startNode None gr1)); [done|]. by apply coords_updNode. }
  destruct (endNode gr2); [|done]. split; [|done].
  apply (shape_set_nodes (set_endNode None gr2)); [done|]. by apply coords_updNode.
Qed.

Lemma clearedGrid_flags gr :
  grid_inv gr → flags (clearedGrid gr) (λ _, false) (λ _, false) (λ _, false).
Proof.
  intros Hinv. apply grid_inv_flags in Hinv.
  destruct Hinv as (Hs & s & e & fw & Es & Ee & Hne & Hss & Hse & Hf & Hw).
  unfold clearedGrid. cbv zeta. simpl. rewrite Es. simpl. rewrite Ee.
  intros q n. simpl. rewrite !nodeAt_updNode, nodeAt_fmap.
  destruct (nodeAt (nodes gr) q) as [n0|] eqn:E; [|by repeat case_decide].
  destruct (Hf q n0 E) as (H1 & H2 & H3).
  destruct (clearWall_flags n0) as (C1 & C2 & C3 & _).
  repeat case_decide; simpl; intros [= <-]; simpl; rewrite ?C1, ?C2, ?C3, ?H1, ?H2;
    split_and!; try done; by apply bool_decide_eq_false_2.
Qed.

Lemma loadBase_shape d gr :
  shape gr → shape (loadBase d gr) ∧
  rows (loadBase d gr) = Data.rows d ∧ cols (loadBase d gr) = Data.cols d.
Proof.
  intros Hs. unfold loadBase.
  destruct (bool_decide (Data.rows d ≠ rows gr)) eqn:E1;
    [|destruct (bool_decide (Data.cols d ≠ cols gr)) eqn:E2]; simpl.
  - split; [apply initializeGrid_shape|done].
  - split; [apply initializeGrid_shape|done].
  - apply bool_decide_eq_false in E1, E2.
    destruct (clearedGrid_shape gr Hs) as (? & -> & ->).
    split; [done|]. split; symmetry; by apply dec_stable.
Qed.

Lemma loadBase_flags d gr :
  grid_inv gr → flags (loadBase d gr) (λ _, false) (λ _, false) (λ _, false).
Proof.
  intros Hinv. unfold loadBase. destruct (_ || _).
  - apply initializeGrid_flags.
  - by apply clearedGrid_flags.
Qed.

Lemma restoreDims_eq d gr :
  shape gr →
  restoreDims d gr = setDefaultStartEnd (loadBase d gr).
Proof.
  intros Hs. unfold restoreDims, loadBase, mbind, M_bind, gets. simpl.
  destruct (_ || _); [done|].
  rewrite clearWalls_spec by done. done.
Qed.
Lemma restoreWall_spec d u w gr :
  shape gr →
  restoreWall d u w gr =
  Normal tt
    (if bool_decide (is_Some (nodeAt (nodes gr) (Wall.row w, Wall.col w)))
        && negb (sameCell (Data.startNode d) (Wall.row w) (Wall.col w))
        && negb (sameCell (Data.endNode d) (Wall.row w) (Wall.col w))
     then set_nodes (updNode (Wall.row w, Wall.col w)
                       (λ n, set_wallType
                               (Some (orElse (Wall.type w) (getRandomWallType u)))
                               (set_isWall true n)) (nodes gr)) gr
     else gr).
Proof.
  intros Hs. unfold restoreWall. rewrite (bind_Normal _ _ _ _ _ (getNode_spec _ _ _ Hs)).
  destruct (nodeAt (nodes gr) (Wall.row w, Wall.col w)) as [n|]; simpl.
  - by destruct (_ && _).
  - done.
Qed.

Lemma wallIn_snoc d ws w q :
  wallIn d (ws ++ [w]) q =
  wallIn d ws q
  || (bool_decide (q = (Wall.row w, Wall.col w))
      && negb (sameCell (Data.startNode d) q.1 q.2)
      && negb (sameCell (Data.endNode d) q.1 q.2)).
Proof.
  unfold wallIn.
  assert (bool_decide (q ∈ wallCoords (ws ++ [w]))
          = bool_decide (q ∈ wallCoords ws)
            || bool_decide (q = (Wall.row w, Wall.col w))) as ->.
  { apply eq_true_iff_eq. rewrite orb_true_iff, !bool_decide_eq_true.
    unfold wallCoords. rewrite fmap_app, elem_of_app.
    change ((λ w0, (Wall.row w0, Wall.col w0)) <$> [w])
      with [(Wall.row w, Wall.col w)].
    by rewrite list_elem_of_singleton. }
  destruct (bool_decide (q ∈ _)), (bool_decide (q = _)), (sameCell _ _ _),
    (sameCell _ _ _); done.
Qed.

Lemma restoreWalls_loop d rnd ws gr fs fe fw :
  shape gr → flags gr fs fe fw →
  ∃ gr', forM (zip (seq 0 (length ws)) ws) (λ iw, restoreWall d (rnd iw.1) iw.2) gr
         = Normal tt gr' ∧
    shape gr' ∧ rows gr' = rows gr ∧ cols gr' = cols gr ∧
    startNode gr' = startNode gr ∧ endNode gr' = endNode gr ∧
    flags gr' fs fe (λ q, fw q || wallIn d ws q).
Proof.
  intros Hs Hf.
  set (I := λ (i : nat) (gr' : Grid),
    shape gr' ∧ rows gr' = rows gr ∧ cols gr' = cols gr ∧
    startNode gr' = startNode gr ∧ endNode gr' = endNode gr ∧
    flags gr' fs fe (λ q, fw q || wallIn d (take i ws) q)).
  assert (hoare (I 0%nat)
            (forM (zip (seq 0 (length ws)) ws) (λ iw, restoreWall d (rnd iw.1) iw.2))
            (λ _, I (length (zip (seq 0 (length ws)) ws)))) as H.
  { apply hoare_forM. intros i [i' w] Hi.
    apply lookup_zip_with_Some in Hi as (? & ? & [= <- <-] & Hi' & Hw).
    intros gr1 (Hs1 & R1 & C1 & S1 & E1 & F1). cbn [fst snd].
    eexists tt, _. split; [by apply restoreWall_spec|].
    unfold I. rewrite (take_S_r _ _ _ Hw).
    destruct (bool_decide (is_Some _) && _ && _) eqn:Hc.
    - apply andb_true_iff in Hc as [Hc Hc3]. apply andb_true_iff in Hc as [Hc1 Hc2].
      apply bool_decide_eq_true in Hc1.
      split_and!; try done.
      + apply shape_set_nodes; [done|]. simpl. by apply coords_updNode.
      + intros q n. simpl. rewrite nodeAt_updNode, wallIn_snoc. case_decide as Hq.
        * subst q. destruct Hc1 as [n0 Hn0]. rewrite Hn0. simpl. intros [= <-].
          destruct (F1 _ _ Hn0) as (? & ? & ?). simpl.
          rewrite bool_decide_eq_true_2, Hc2, Hc3 by done. simpl.
          by rewrite !orb_true_r.
        * intros Hn. destruct (F1 _ _ Hn) as (? & ? & ->).
          rewrite (bool_decide_eq_false_2 (q = _)) by done. simpl.
          by rewrite orb_false_r.
    - split_and!; try done. intros q n Hn.
      destruct (F1 _ _ Hn) as (? & ? & ->). rewrite wallIn_snoc.
      split_and!; [done|done|].
      destruct (decide (q = (Wall.row w, Wall.col w))) as [->|Hq].
      + simpl. rewrite bool_decide_eq_true_2 in Hc by by eexists.
        simpl in Hc. rewrite (bool_decide_eq_true_2 (_ = _)) by done.
        simpl. rewrite Hc. by rewrite !orb_false_r.
      + rewrite (bool_decide_eq_false_2 (q = _)) by done. simpl.
        by rewrite orb_false_r. }
  destruct (H gr) as ([] & gr' & E & Hs' & R' & C' & S' & E' & F').
  { split_and!; try done. eapply flags_ext; [exact Hf|]. intros q _.
    split_and!; [done|done|]. unfold wallIn, wallCoords. simpl.
    by rewrite ?orb_false_r. }
  exists gr'. split_and!; try done.
  rewrite length_zip_with, length_seq, Nat.min_id, firstn_all in F'. exact F'.
Qed.

Lemma restoreWalls_spec d rnd gr fs fe fw :
  shape gr → flags gr fs fe fw →
  ∃ gr', restoreWalls d rnd gr = Normal tt gr' ∧
    shape gr' ∧ rows gr' = rows gr ∧ cols gr' = cols gr ∧
    startNode gr' = startNode gr ∧ endNode gr' = endNode gr ∧
    flags gr' fs fe (λ q, fw q || wallIn d (default [] (Data.walls d)) q).
Proof.
  intros Hs Hf. unfold restoreWalls. destruct (Data.walls d) as [ws|]; simpl.
  - by apply restoreWalls_loop.
  - exists gr. split_and!; try done. eapply flags_ext; [exact Hf|]. intros q _.
    split_and!; [done|done|]. unfold wallIn, wallCoords. simpl.
    by rewrite ?orb_false_r.
Qed.

(** Every grid has its flags. *)
Lemma flags_actual gr :
  flags gr (λ q, isStart (deref (nodes gr) q)) (λ q, isEnd (deref (nodes gr) q))
           (λ q, isWall (deref (nodes gr) q)).
Proof. intros q n Hn. by rewrite (deref_nodeAt _ _ _ Hn). Qed.
Lemma restoreDims_throws d gr :
  shape gr → ¬ dims_ok d → ∃ gr', restoreDims d gr = Thrown gr'.
Proof.
  intros Hs Hd. rewrite restoreDims_eq by done.
  destruct (loadBase_shape d gr Hs) as (Hsb & HR & HC).
  unfold setDefaultStartEnd.
  destruct (setStartNode_oob (loadBase d gr) (quarter 1 (rows (loadBase d gr)))
              (quarter 1 (cols (loadBase d gr))) Hsb) as (gr' & E & _).
  - rewrite HR, HC. intros zr zc Er Ec Hb. apply Hd. unfold dims_ok.
    destruct (Data.rows d) as [R|], (Data.cols d) as [C|]; try done.
    simpl in Hb. lia.
  - exists gr'. by apply bind_Thrown.
Qed.

Lemma restoreDims_ok d gr R C :
  shape gr → Data.rows d = Some R → Data.cols d = Some C → 1 ≤ R → 1 ≤ C →
  let gr1 := placeEnd (3 * R / 4, 3 * C / 4)
               (placeStart (1 * R / 4, 1 * C / 4) (loadBase d gr)) in
  restoreDims d gr = Normal tt gr1 ∧ shape gr1 ∧
  rows gr1 = Some R ∧ cols gr1 = Some C.
Proof.
  intros Hs HR HC H1 H2 gr1. rewrite restoreDims_eq by done.
  destruct (loadBase_shape d gr Hs) as (Hsb & ER & EC).
  rewrite HR in ER. rewrite HC in EC.
  split; [by apply setDefaultStartEnd_ok|].
  split; [by apply shape_placeEnd, shape_placeStart|]. subst gr1.
  destruct (placeEnd_fields (3 * R / 4, 3 * C / 4)
              (placeStart (1 * R / 4, 1 * C / 4) (loadBase d gr))) as (-> & -> & _).
  destruct (placeStart_fields (1 * R / 4, 1 * C / 4) (loadBase d gr)) as (-> & -> & _).
  done.
Qed.

Lemma restoreEnds_spec d gr :
  shape gr →
  restoreEnds d gr =
  match Data.startNode d with
  | Some s =>
      if bool_decide (inb (rows gr) (cols gr) s) then
        match Data.endNode d with
        | Some e =>
            if bool_decide (inb (rows gr) (cols gr) e)
            then Normal tt (placeEnd e (placeStart s gr))
            else Thrown (grid_of (setEndNode (Some e.1) (Some e.2) (placeStart s gr)))
        | None => Normal tt (placeStart s gr)
        end
      else Thrown (grid_of (setStartNode (Some s.1) (Some s.2) gr))
  | None =>
      match Data.endNode d with
      | Some e =>
          if bool_decide (inb (rows gr) (cols gr) e)
          then Normal tt (placeEnd e gr)
          else Thrown (grid_of (setEndNode (Some e.1) (Some e.2) gr))
      | None => Normal tt gr
      end
  end.
Proof.
  intros Hs. unfold restoreEnds.
  assert (∀ gr0 e, shape gr0 →
            setEndNode (Some e.1) (Some e.2) gr0 =
            if bool_decide (inb (rows gr0) (cols gr0) e)
            then Normal tt (placeEnd e gr0)
            else Thrown (grid_of (setEndNode (Some e.1) (Some e.2) gr0))) as Hend.
  { intros gr0 e Hs0. case_bool_decide as Hb.
    - by apply setEndNode_inb.
    - destruct (setEndNode_oob gr0 (Some e.1) (Some e.2) Hs0) as (gr' & E & _).
      + intros ? ? [= <-] [= <-]. by destruct e.
      + by rewrite E. }
  destruct (Data.startNode d) as [s|].
  - case_bool_decide as Hb.
    + rewrite (bind_Normal _ _ _ _ _ (setStartNode_inb _ _ Hs Hb)).
      destruct (placeStart_fields s gr) as (FR & FC & _).
      destruct (Data.endNode d) as [e|]; [|done].
      rewrite Hend by by apply shape_placeStart. rewrite FR, FC.
      by case_bool_decide.
    + destruct (setStartNode_oob gr (Some s.1) (Some s.2) Hs) as (gr' & E & _).
      * intros ? ? [= <-] [= <-]. by destruct s.
      * rewrite (bind_Thrown _ _ _ _ E). by rewrite E.
  - unfold mbind, M_bind. simpl. destruct (Data.endNode d) as [e|]; [|done].
    by apply Hend.
Qed.

Lemma loadGridData_try_prefix d rnd gr R C :
  shape gr → Data.rows d = Some R → Data.cols d = Some C → 1 ≤ R → 1 ≤ C →
  let gr1 := placeEnd (3 * R / 4, 3 * C / 4)
               (placeStart (1 * R / 4, 1 * C / 4) (loadBase d gr)) in
  ∃ gr2, loadGridData_try d rnd gr = restoreEnds d gr2 ∧
    restoreWalls d rnd gr1 = Normal tt gr2 ∧ shape gr2 ∧
    rows gr2 = Some R ∧ cols gr2 = Some C ∧
    startNode gr2 = startNode gr1 ∧ endNode gr2 = endNode gr1 ∧
    ∀ fs fe fw, flags gr1 fs fe fw →
      flags gr2 fs fe (λ q, fw q || wallIn d (default [] (Data.walls d)) q).
Proof.
  intros Hs HR HC H1 H2 gr1.
  destruct (restoreDims_ok d gr R C Hs HR HC H1 H2) as (E1 & Hs1 & R1 & C1).
  fold gr1 in E1, Hs1, R1, C1.
  destruct (restoreWalls_spec d rnd gr1 _ _ _ Hs1 (flags_actual gr1))
    as (gr2 & E2 & Hs2 & R2 & C2 & S2 & N2 & _).
  exists gr2. split_and!; try done; try congruence.
  - unfold loadGridData_try. rewrite (bind_Normal _ _ _ _ _ E1).
    by rewrite (bind_Normal _ _ _ _ _ E2).
  - intros fs fe fw Hf.
    destruct (restoreWalls_spec d rnd gr1 _ _ _ Hs1 Hf) as (gr2' & E2' & _ & _ & _ & _ & _ & Hf').
    rewrite E2 in E2'. by injection E2' as <-.
Qed.

(** [loadGridData] succeeds exactly on the payloads with positive
    dimensions whose declared endpoints are in bounds; the wall entries
    have no part in it. *)
Lemma loadGridData_result gr d rnd :
  shape gr → (loadGridData (Some d) rnd gr).1 = bool_decide (importable d).
Proof.
  intros Hs. apply eq_true_iff_eq. rewrite bool_decide_eq_true.
  unfold loadGridData, importable.
  destruct (decide (dims_ok d)) as [Hd|Hd].
  - pose proof Hd as Hd'. unfold dims_ok in Hd'. unfold end_ok.
    destruct (Data.rows d) as [R|] eqn:HR; [|done].
    destruct (Data.cols d) as [C|] eqn:HC; [|done]. destruct Hd' as [H1 H2].
    destruct (loadGridData_try_prefix d rnd gr R C Hs HR HC H1 H2)
      as (gr2 & -> & _ & Hs2 & R2 & C2 & _).
    rewrite (restoreEnds_spec d gr2 Hs2), R2, C2.
    destruct (Data.startNode d) as [s|], (Data.endNode d) as [e|];
      repeat case_bool_decide; simpl; naive_solver.
  - destruct (restoreDims_throws d gr Hs Hd) as (gr' & E).
    unfold loadGridData_try. rewrite (bind_Thrown _ _ _ _ E). simpl. naive_solver.
Qed.
Lemma wallIn_not_ends d ws q s e :
  Data.startNode d = Some s → Data.endNode d = Some e →
  wallIn d ws q = true → q ≠ s ∧ q ≠ e.
Proof.
  intros Es Ee. unfold wallIn. rewrite Es, Ee.
  rewrite !andb_true_iff, !negb_true_iff. intros [[_ H1] H2].
  split; intros ->.
  - assert (sameCell (Some s) s.1 s.2 = true) by (apply sameCell_true; by destruct s).
    congruence.
  - assert (sameCell (Some e) e.1 e.2 = true) by (apply sameCell_true; by destruct e).
    congruence.
Qed.

(** The import of a payload with positive dimensions and two distinct
    endpoints in bounds. *)
Lemma loadGridData_try_ok gr d rnd :
  grid_inv gr → payload_ok d →
  ∃ gr', loadGridData_try d rnd gr = Normal tt gr' ∧ grid_inv gr' ∧
    rows gr' = Data.rows d ∧ cols gr' = Data.cols d ∧
    startNode gr' = Data.startNode d ∧ endNode gr' = Data.endNode d ∧
    ∀ q n, nodeAt (nodes gr') q = Some n →
      isWall n = wallIn d (default [] (Data.walls d)) q.
Proof.
  intros Hinv [Hd Hp]. pose proof Hinv as [Hs _].
  pose proof Hd as Hd'. unfold dims_ok in Hd'.
  destruct (Data.rows d) as [R|] eqn:HR; [|done].
  destruct (Data.cols d) as [C|] eqn:HC; [|done]. destruct Hd' as [H1 H2].
  destruct (Data.startNode d) as [s|] eqn:Es; [|done].
  destruct (Data.endNode d) as [e|] eqn:Ee; [|done].
  destruct Hp as (Hbs & Hbe & Hne).
  assert (2 ≤ R ∨ 2 ≤ C) as H3.
  { destruct s as [sr sc], e as [er ec]. simpl in Hbs, Hbe.
    destruct (decide (2 ≤ R)); [by left|]. destruct (decide (2 ≤ C)); [by right|].
    exfalso. apply Hne. f_equal; lia. }
  destruct (loadGridData_try_prefix d rnd gr R C Hs HR HC H1 H2)
    as (gr2 & E & _ & Hs2 & R2 & C2 & S2 & N2 & F2).
  destruct (loadBase_shape d gr Hs) as (Hsb & RB & CB).
  rewrite HR in RB. rewrite HC in CB.
  destruct (default_placement_inv (loadBase d gr) R C Hsb RB CB H1 H2 H3
              (loadBase_flags d gr Hinv)) as (_ & F1 & _ & _ & S1 & N1).
  rewrite S1 in S2. rewrite N1 in N2.
  apply F2 in F1. clear F2.
  rewrite E, (restoreEnds_spec d gr2 Hs2), Es, Ee, R2, C2.
  rewrite !bool_decide_eq_true_2 by done.
  exists (placeEnd e (placeStart s gr2)). split; [done|].
  destruct (placeStart_fields s gr2) as (PR & PC & PS & PE & _).
  destruct (placeEnd_fields e (placeStart s gr2)) as (QR & QC & QS & QE & _).
  assert (flags (placeEnd e (placeStart s gr2))
            (λ q, bool_decide (q = s)) (λ q, bool_decide (q = e))
            (wallIn d (default [] (Data.walls d)))) as Hf.
  { eapply flags_ext; [apply flags_placeEnd, flags_placeStart, F1|].
    intros q _. cbv beta. rewrite S2, PE, N2.
    destruct (wallIn d (default [] (Data.walls d)) q) eqn:Hw;
      [destruct (wallIn_not_ends _ _ _ _ _ Es Ee Hw)|];
      repeat case_bool_decide; simplify_eq; simpl; try done; try congruence. }
  split_and!; try congruence.
  - apply grid_inv_flags. split; [by apply shape_placeEnd, shape_placeStart|].
    exists s, e, (wallIn d (default [] (Data.walls d))).
    split_and!; try done; try congruence.
    + apply is_Some_nodeAt_placeEnd, is_Some_nodeAt_placeStart, shape_inb; [done|].
      by rewrite R2, C2.
    + apply is_Some_nodeAt_placeEnd, is_Some_nodeAt_placeStart, shape_inb; [done|].
      by rewrite R2, C2.
    + intros q. by apply wallIn_not_ends.
  - intros q n Hn. by destruct (Hf q n Hn) as (_ & _ & ?).
Qed.
(** ** C3: failure of an import *)

(** C3, as the code has it: a payload that is missing, has a missing or
    non-positive [rows] or [cols], or declares a start or goal out of
    bounds makes [loadGridData] return [false] (nothing is thrown); every
    other payload is accepted, whatever its obstacle entries: one that is
    out of bounds is skipped.  Nothing is said of the grid a failed import
    leaves. *)
Theorem loadGridData_reports_failure gr d rnd :
  shape gr →
  loadGridData None rnd gr = (false, gr) ∧
  (loadGridData (Some d) rnd gr).1 = bool_decide (importable d) ∧
  (¬ dims_ok d → (loadGridData (Some d) rnd gr).1 = false) ∧
  (∀ p, Data.startNode d = Some p → ¬ inb (Data.rows d) (Data.cols d) p →
        (loadGridData (Some d) rnd gr).1 = false) ∧
  (∀ p, Data.endNode d = Some p → ¬ inb (Data.rows d) (Data.cols d) p →
        (loadGridData (Some d) rnd gr).1 = false) ∧
  (∀ ws, importable d →
     (loadGridData
        (Some (Data.mk (Data.rows d) (Data.cols d) ws
                       (Data.startNode d) (Data.endNode d))) rnd gr).1 = true).
Proof.
  intros Hs. split; [done|]. split; [by apply loadGridData_result|].
  split_and!.
  - intros Hd. rewrite loadGridData_result by done.
    apply bool_decide_eq_false_2. unfold importable. tauto.
  - intros p Ep Hp. rewrite loadGridData_result by done.
    apply bool_decide_eq_false_2. unfold importable, end_ok. rewrite Ep. tauto.
  - intros p Ep Hp. rewrite loadGridData_result by done.
    apply bool_decide_eq_false_2. unfold importable, end_ok. rewrite Ep. tauto.
  - intros ws Hi. rewrite loadGridData_result by done.
    by apply bool_decide_eq_true_2.
Qed.

Lemma loadGridData_reports_failure_witness :
  shape grid3 ∧
  (loadGridData (Some (Data.mk None (Some 3) None None None)) (λ _, true) grid3).1
  = false.
Proof.
  assert (shape grid3) as Hs by (vm_compute; reflexivity).
  split; [exact Hs|].
  destruct (loadGridData_reports_failure grid3
              (Data.mk None (Some 3) None None None) (λ _, true) Hs)
    as (_ & _ & H & _).
  apply H. vm_compute. tauto.
Defined.

(** C3 as stated fails: the import of a payload whose start is out of
    bounds returns [false] but has by then removed the obstacles and the
    start of the grid; and an obstacle entry out of bounds is no failure. *)
Lemma loadGridData_no_rollback_counterexample :
  ¬ inb (Data.rows payload_bad_start) (Data.cols payload_bad_start) (5, 5) ∧
  isWall (deref (nodes grid3_wall) (1, 1)) = true ∧
  (∃ gr', loadGridData (Some payload_bad_start) (λ _, true) grid3_wall = (false, gr') ∧
          gr' ≠ grid3_wall ∧
          isWall (deref (nodes gr') (1, 1)) = false ∧
          filter (λ n, isStart n = true) (cells gr') = []) ∧
  ¬ inb (Data.rows payload_far_wall) (Data.cols payload_far_wall) (9, 9) ∧
  (loadGridData (Some payload_far_wall) (λ _, true) grid3_wall).1 = true.
Proof.
  split; [vm_compute; intros [[_ H] _]; done|].
  split; [reflexivity|]. split.
  - eexists. split; [vm_compute; reflexivity|].
    split; [|split; reflexivity].
    intros E. apply (f_equal (λ gr, isWall (deref (nodes gr) (1, 1)))) in E.
    vm_compute in E. discriminate.
  - split; [vm_compute; intros [[_ H] _]; done|]. reflexivity.
Qed.

(** ** C4: the invariant *)

Lemma completed_Normal o gr' :
  o = Normal tt gr' → completed o = (true, gr').
Proof. by intros ->. Qed.

(** C4, as the code has it: the operations of the specification, used
    within [op_ok], succeed and leave a grid with the invariant: exactly
    one start node, exactly one goal node, no node with two of the three
    flags, start and goal distinct. *)
Theorem operations_keep_invariant o gr :
  op_ok o gr →
  ∃ gr', run_op o gr = (true, gr') ∧ grid_inv gr' ∧ layout_inv gr'.
Proof.
  intros Hok.
  assert (∃ gr', run_op o gr = (true, gr') ∧ grid_inv gr') as (gr' & E & Hinv);
    [|exists gr'; split_and!; [done|done|by apply grid_inv_layout]].
  destruct o as [R C|r c|r c|r c u| |R C|d rnd]; simpl in Hok; simpl.
  - destruct Hok as (H1 & H2 & H3).
    destruct (newGrid_inv R C H1 H2 H3) as (gr' & E & Hinv & _).
    exists gr'. by rewrite E.
  - destruct Hok as (Hinv & Hb & Hne). pose proof Hinv as [Hs _].
    exists (placeStart (r, c) gr). split; [|by apply placeStart_inv].
    apply completed_Normal. by apply (setStartNode_inb gr (r, c)).
  - destruct Hok as (Hinv & Hb & Hne). pose proof Hinv as [Hs _].
    exists (placeEnd (r, c) gr). split; [|by apply placeEnd_inv].
    apply completed_Normal. by apply (setEndNode_inb gr (r, c)).
  - destruct (handleMouseDown_inv gr r c u Hok) as (gr' & E & Hinv).
    exists gr'. by rewrite E.
  - destruct (clearWalls_inv gr Hok) as (gr' & E & Hinv & _).
    exists gr'. by rewrite E.
  - destruct Hok as (H1 & H2 & H3).
    destruct (resize_inv gr R C H1 H2 H3) as (gr' & E & Hinv & _).
    exists gr'. by rewrite E.
  - destruct Hok as (Hinv & Hp).
    destruct (loadGridData_try_ok gr d rnd Hinv Hp) as (gr' & E & Hinv' & _).
    exists gr'. unfold loadGridData. by rewrite E.
Qed.

Lemma operations_keep_invariant_witness :
  op_ok (OpSetStart 1 1) grid3 ∧
  ∃ gr', run_op (OpSetStart 1 1) grid3 = (true, gr') ∧ grid_inv gr' ∧ layout_inv gr'.
Proof.
  assert (op_ok (OpSetStart 1 1) grid3) as Hok
    by (apply (bool_decide_unpack _); vm_compute; exact I).
  split; [exact Hok|]. exact (operations_keep_invariant _ _ Hok).
Defined.

(** C4 as stated fails: a [setStartNode] on the goal cell leaves a grid
    without a goal node, and a 1×1 grid is constructed without a start
    node. *)
Lemma invariant_broken_counterexample :
  layout_inv grid3 ∧
  (∃ gr', setStartNode (Some 2) (Some 2) grid3 = Normal tt gr' ∧ ¬ layout_inv gr') ∧
  (∃ gr', newGrid (Some 1) (Some 1) = Normal tt gr' ∧ ¬ layout_inv gr').
Proof.
  split; [apply (bool_decide_unpack _); vm_compute; exact I|]. split.
  - eexists. split; [vm_compute; reflexivity|].
    intros (_ & H & _). vm_compute in H. discriminate.
  - eexists. split; [vm_compute; reflexivity|].
    intros (H & _). vm_compute in H. discriminate.
Qed.
(** ** C2: export then import *)



Lemma fmap_concat {A B : Type} (fn : A → B) (ls : list (list A)) :
  fn <$> concat ls = concat ((λ l : list A, fn <$> l) <$> ls).
Proof.
  induction ls as [|l ls IH]; [done|]. simpl. by rewrite fmap_app, IH.
Qed.




Lemma grid_inv_dims gr s :
  grid_inv gr → startNode gr = Some s →
  ∃ R C, rows gr = Some R ∧ cols gr = Some C ∧ 1 ≤ R ∧ 1 ≤ C.
Proof.
  intros Hinv Es. apply grid_inv_flags in Hinv.
  destruct Hinv as (Hs & s' & e' & fw & Es' & Ee' & Hne & [ns Hns] & _).
  destruct (shape_nodeAt _ _ _ Hs Hns) as [_ Hb]. unfold inb in Hb.
  destruct (rows gr) as [R|], (cols gr) as [C|]; try done.
  exists R, C. split_and!; try done; lia.
Qed.


(** ** Walks and the breadth-first oracle *)

Lemma elem_of_nbrs p q : q ∈ nbrs p ↔ adjacent p q.
Proof.
  unfold nbrs, directions, adjacent. destruct p as [pr pc], q as [qr qc]. simpl.
  rewrite !elem_of_cons, elem_of_nil. split.
  - intros [E|[E|[E|[E|[]]]]]; injection E as -> ->; lia.
  - intros H.
    assert ((qr = pr - 1 ∧ qc = pc) ∨ (qr = pr ∧ qc = pc + 1) ∨
            (qr = pr + 1 ∧ qc = pc) ∨ (qr = pr ∧ qc = pc - 1)) as Hc by lia.
    destruct Hc as [[-> ->]|[[-> ->]|[[-> ->]|[-> ->]]]].
    + left. f_equal; lia.
    + right; left. f_equal; lia.
    + do 2 right; left. f_equal; lia.
    + do 3 right; left. f_equal; lia.
Qed.

Lemma adjacent_sym p q : adjacent p q → adjacent q p.
Proof. unfold adjacent. lia. Qed.

Section walks.
Variable free : Ref → bool.
Variable s : Ref.

Lemma walk_app k p i q :
  walk free s k p → walk free p i q → walk free s (k + i) q.
Proof.
  intros Hk Hi. induction Hi as [|i q r Hi IH Hadj Hfree].
  - by rewrite Nat.add_0_r.
  - rewrite Nat.add_succ_r. by eapply walk_step.
Qed.

Lemma walk_split k i q :
  walk free s (k + i) q → ∃ p, walk free s k p ∧ walk free p i q.
Proof.
  revert q. induction i as [|i IH]; intros q Hw.
  - rewrite Nat.add_0_r in Hw. exists q. split; [done|constructor].
  - rewrite Nat.add_succ_r in Hw. inversion Hw as [|? r ? Hr Hadj Hfree]; subst.
    destruct (IH r Hr) as (p & Hp & Hpr). exists p. split; [done|].
    by eapply walk_step.
Qed.

Lemma walk_S_inv k q :
  walk free s (S k) q → ∃ p, walk free s k p ∧ adjacent p q ∧ free q = true.
Proof. inversion 1; subst. eauto. Qed.
End walks.

Lemma elem_of_bfs_next ns visited frontier q :
  q ∈ bfs_next ns visited frontier ↔
  (q ∉ visited) ∧ ∃ p, p ∈ frontier ∧ adjacent p q ∧ passable ns q = true.
Proof.
  unfold bfs_next. rewrite elem_of_remove_dups, list_elem_of_filter, list_elem_of_bind.
  split.
  - intros (Hv & p & Hq & Hp). apply list_elem_of_filter in Hq as [Hfree Hq].
    apply elem_of_nbrs in Hq. eauto.
  - intros (Hv & p & Hp & Hadj & Hfree). split; [done|]. exists p. split; [|done].
    apply list_elem_of_filter. split; [done|]. by apply elem_of_nbrs.
Qed.

Section bfs.
Variable ns : list (list Node).
Variable s goal : Ref.
Let free := passable ns.

(** The layers of the search are the cells by distance from [s]. *)
Lemma bfs_layers_dist fuel visited frontier depth D :
  (∀ q, q ∈ visited ↔ ∃ k, (k ≤ depth)%nat ∧ walk free s k q) →
  (∀ q, q ∈ frontier ↔
        walk free s depth q ∧ ∀ k, (k < depth)%nat → ¬ walk free s k q) →
  walk free s D goal → (∀ k, walk free s k goal → (D ≤ k)%nat) →
  (depth ≤ D)%nat → (D - depth ≤ fuel)%nat →
  bfs_layers fuel ns goal visited frontier depth = Some D.
Proof.
  revert visited frontier depth.
  induction fuel as [|fuel IH]; intros visited frontier depth HV HF HD Hmin Hle Hfuel.
  - assert (depth = D) as -> by lia. simpl.
    rewrite bool_decide_eq_true_2; [done|]. apply HF. split; [done|].
    intros k Hk Hw. apply Hmin in Hw. lia.
  - simpl. case_bool_decide as Hg.
    { apply HF in Hg as [Hw _]. apply Hmin in Hw. f_equal. lia. }
    assert (depth < D)%nat as Hlt.
    { destruct (decide (depth = D)) as [->|]; [|lia]. exfalso. apply Hg, HF.
      split; [done|]. intros k Hk Hw. apply Hmin in Hw. lia. }
    assert (∀ q, q ∈ bfs_next ns visited frontier ↔
                 walk free s (S depth) q ∧
                 ∀ k, (k < S depth)%nat → ¬ walk free s k q) as HF'.
    { intros q. rewrite elem_of_bfs_next. split.
      - intros (Hv & p & Hp & Hadj & Hfree). apply HF in Hp as [Hp _]. split.
        + by eapply walk_step.
        + intros k Hk Hw. apply Hv, HV. exists k. split; [lia|done].
      - intros [Hw Hno]. split.
        + intros Hv. apply HV in Hv as (k & Hk & Hw'). apply (Hno k); [lia|done].
        + apply walk_S_inv in Hw as (p & Hp & Hadj & Hfree).
          exists p. split; [|done]. apply HF. split; [done|].
          intros k Hk Hw'. apply (Hno (S k)); [lia|]. by eapply walk_step. }
    assert (∀ q, q ∈ visited ++ bfs_next ns visited frontier ↔
                 ∃ k, (k ≤ S depth)%nat ∧ walk free s k q) as HV'.
    { intros q. rewrite elem_of_app, HV, HF'. split.
      - intros [(k & Hk & Hw)|[Hw _]]; [exists k|exists (S depth)];
          (split; [lia|done]).
      - intros (k & Hk & Hw).
        destruct (decide (q ∈ visited)) as [Hv|Hv]; [left; by apply HV|].
        right. assert (k = S depth) as ->.
        { destruct (decide (k = S depth)); [done|]. exfalso. apply Hv, HV.
          exists k. split; [lia|done]. }
        split; [done|]. intros k' Hk' Hw'. apply Hv, HV. exists k'.
        split; [lia|done]. }
    destruct (bfs_next ns visited frontier) as [|x next] eqn:En.
    { exfalso. replace D with (S depth + (D - S depth))%nat in HD by lia.
      apply walk_split in HD as (p & Hp & Hrest).
      assert (p ∈ []) as Hin; [|by apply elem_of_nil in Hin].
      apply HF'. split; [done|]. intros k Hk Hw.
      pose proof (walk_app _ _ _ _ _ _ Hw Hrest) as Hw'.
      apply Hmin in Hw'. lia. }
    apply IH; try done; lia.
Qed.

(** The oracle returns the least number of cells of a walk from [s]
    to [goal], if the fuel reaches that far. *)
Lemma bfs_layers_shortest fuel D :
  walk free s D goal → (∀ k, walk free s k goal → (D ≤ k)%nat) →
  (D ≤ fuel)%nat →
  bfs_layers fuel ns goal [s] [s] 0 = Some D.
Proof.
  intros HD Hmin Hfuel. apply bfs_layers_dist; try done; try lia.
  - intros q. rewrite list_elem_of_singleton. split.
    + intros ->. exists 0%nat. split; [done|constructor].
    + intros (k & Hk & Hw). assert (k = 0)%nat as -> by lia. by inversion Hw.
  - intros q. rewrite list_elem_of_singleton. split.
    + intros ->. split; [constructor|]. intros; lia.
    + intros [Hw _]. by inversion Hw.
Qed.
End bfs.
(** ** The search: the array under the scratch writes *)

Lemma deref_updNode_field {A : Type} (fld : Node → A) ns p q fn :
  (∀ n, fld (fn n) = fld n) →
  fld (deref (updNode p fn ns) q) = fld (deref ns q).
Proof.
  intros Hfn. unfold deref. rewrite nodeAt_updNode.
  case_decide; [|done]. destruct (nodeAt ns q); simpl; [apply Hfn|done].
Qed.

Lemma same_statics_refl ns : same_statics ns ns.
Proof. done. Qed.

Lemma same_statics_updNode ns ns0 p fn :
  (∀ n, static (fn n) = static n) →
  same_statics ns ns0 → same_statics (updNode p fn ns) ns0.
Proof.
  intros Hfn [Hc Hst]. split.
  - rewrite <- Hc. apply coords_updNode. intros n. specialize (Hfn n).
    unfold static in Hfn. injection Hfn; intros; done.
  - intros q. rewrite <- Hst. by apply (deref_updNode_field static).
Qed.

Lemma coords_is_Some ns ns0 p :
  coords ns = coords ns0 → is_Some (nodeAt ns p) ↔ is_Some (nodeAt ns0 p).
Proof.
  intros Hc. rewrite !nodeAt_unfold. case_bool_decide; [|done].
  assert ((λ n, (row n, col n)) <$> (ns !! Z.to_nat p.1 ≫= (.!! Z.to_nat p.2))
          = (λ n, (row n, col n)) <$> (ns0 !! Z.to_nat p.1 ≫= (.!! Z.to_nat p.2))) as E.
  { by rewrite <- !coords_lookup, Hc. }
  destruct (ns !! _ ≫= _), (ns0 !! _ ≫= _); simpl in E; try done; split; eauto.
Qed.

Lemma same_statics_passable ns ns0 p :
  same_statics ns ns0 → passable ns p = passable ns0 p.
Proof.
  intros [Hc Hst]. unfold passable.
  pose proof (coords_is_Some ns ns0 p Hc) as Hi.
  specialize (Hst p). unfold deref in Hst.
  destruct (nodeAt ns p) as [n|], (nodeAt ns0 p) as [n0|]; simpl in *.
  - unfold static in Hst. injection Hst; intros; congruence.
  - destruct Hi as [Hi _]. by destruct Hi.
  - destruct Hi as [_ Hi]. by destruct Hi.
  - done.
Qed.

Lemma same_statics_field ns ns0 p :
  same_statics ns ns0 →
  row (deref ns p) = row (deref ns0 p) ∧ col (deref ns p) = col (deref ns0 p) ∧
  isWall (deref ns p) = isWall (deref ns0 p) ∧
  isStart (deref ns p) = isStart (deref ns0 p) ∧
  isEnd (deref ns p) = isEnd (deref ns0 p) ∧
  weight (deref ns p) = weight (deref ns0 p).
Proof.
  intros [_ Hst]. specialize (Hst p). unfold static in Hst.
  injection Hst; intros; done.
Qed.

Section rect.
Variable ns0 : list (list Node).
Variables R C : option Z.
Hypothesis Hrect : coords ns0 = coordGrid R C.

Lemma rect_nodeAt p n :
  nodeAt ns0 p = Some n → (row n, col n) = p ∧ inb R C p.
Proof.
  intros Hn.
  apply (shape_nodeAt (mkGrid R C ns0 None None false ModeWall) p n); done.
Qed.

Lemma rect_inb p : inb R C p → is_Some (nodeAt ns0 p).
Proof.
  intros Hb. apply (shape_inb (mkGrid R C ns0 None None false ModeWall) p); done.
Qed.

Lemma rect_deref_pos p : (row (deref ns0 p), col (deref ns0 p)) = p.
Proof.
  unfold deref. destruct (nodeAt ns0 p) as [n|] eqn:E; simpl.
  - by destruct (rect_nodeAt p n E).
  - by destruct p.
Qed.

Lemma rect_lengths :
  length ns0 = length (upto R) ∧
  ∀ i rw, ns0 !! i = Some rw → length rw = length (upto C).
Proof.
  split.
  - apply (f_equal length) in Hrect. unfold coords, coordGrid in Hrect.
    by rewrite !length_fmap in Hrect.
  - intros i rw Hi.
    assert (coords ns0 !! i = coordGrid R C !! i) as E by by rewrite Hrect.
    unfold coords, coordGrid in E. rewrite !list_lookup_fmap, Hi in E. simpl in E.
    destruct (upto R !! i) as [r|]; [|done].
    injection E as E. apply (f_equal length) in E. by rewrite !length_fmap in E.
Qed.

Lemma rect_inb_lengths r c :
  inb R C (r, c) ↔
  0 ≤ r ∧ r < Z.of_nat (length ns0) ∧ 0 ≤ c ∧
  c < Z.of_nat (length (default [] (ns0 !! 0%nat))).
Proof.
  destruct rect_lengths as [HR HC]. rewrite length_upto in HR.
  split.
  - intros Hb. destruct (rect_inb _ Hb) as [n Hn].
    apply nodeAt_Some in Hn as (H1 & H2 & rw & Hrw & Hn). simpl in *.
    apply lookup_lt_Some in Hrw as Hlt.
    destruct (ns0 !! 0%nat) as [rw0|] eqn:E0.
    + simpl. apply lookup_lt_Some in Hn.
      rewrite (HC _ _ Hrw) in Hn. rewrite (HC _ _ E0). lia.
    + apply lookup_ge_None in E0. lia.
  - intros (H1 & H2 & H3 & H4).
    destruct (ns0 !! 0%nat) as [rw0|] eqn:E0; simpl in H4; [|lia].
    rewrite (HC _ _ E0), length_upto in H4.
    unfold inb. destruct R as [zr|], C as [zc|]; simpl in *; try lia.
Qed.

Lemma isValidPosition_spec r c :
  isValidPosition r c ns0 = Some (passable ns0 (r, c)).
Proof.
  unfold isValidPosition, passable.
  destruct (decide (inb R C (r, c))) as [Hb|Hb].
  - pose proof Hb as Hb'. apply rect_inb_lengths in Hb' as (?&?&?&?).
    rewrite !bool_decide_eq_true_2 by done. simpl.
    destruct (rect_inb _ Hb) as [n ->]. done.
  - assert (nodeAt ns0 (r, c) = None) as ->.
    { destruct (nodeAt ns0 (r, c)) as [n|] eqn:E; [|done].
      by destruct (rect_nodeAt _ _ E). }
    rewrite rect_inb_lengths in Hb.
    repeat case_bool_decide; simpl; try done. tauto.
Qed.

Lemma getNeighbors_spec p :
  getNeighbors (deref ns0 p) ns0
  = Some (filter (λ q, passable ns0 q = true) (nbrs p)).
Proof.
  unfold getNeighbors, nbrs.
  pose proof (rect_deref_pos p) as Hp. destruct p as [pr pc].
  injection Hp as Hr Hc. cbn [fst snd].
  induction directions as [|d ds IH]; [done|].
  simpl. rewrite isValidPosition_spec, IH, Hr, Hc. simpl.
  destruct (passable ns0 (pr + d.1, pc + d.2)) eqn:E.
  - by rewrite filter_cons_True.
  - rewrite filter_cons_False; [done|]. by rewrite E.
Qed.

(** A list of distinct cells of the grid is no longer than the grid
    has cells. *)
Lemma cells_bound (l : list Ref) :
  NoDup l → (∀ p, p ∈ l → is_Some (nodeAt ns0 p)) →
  (length l ≤ cellCount ns0)%nat.
Proof.
  intros Hnd Hin. unfold cellCount.
  assert (length (concat ns0) = length (concat (coords ns0))) as ->.
  { unfold coords. rewrite <- fmap_concat. by rewrite length_fmap. }
  apply submseteq_length, NoDup_submseteq; [done|].
  intros p Hp. destruct (Hin p Hp) as [n Hn].
  destruct (rect_nodeAt p n Hn) as [Hpos _].
  unfold coords. rewrite <- fmap_concat. apply list_elem_of_fmap.
  exists n. split; [done|]. apply elem_of_concat_nodeAt. by exists p.
Qed.
End rect.
(** ** The search: one iteration *)

Lemma removeFromArray_NoDup (l : list Ref) x :
  NoDup l →
  NoDup (removeFromArray l x) ∧ ∀ p, p ∈ removeFromArray l x ↔ p ∈ l ∧ p ≠ x.
Proof.
  induction l as [|y l IH]; intros Hnd.
  { split; [constructor|]. intros p. simpl. rewrite elem_of_nil. tauto. }
  apply NoDup_cons in Hnd as [Hy Hnd]. destruct (IH Hnd) as [IH1 IH2].
  simpl. case_bool_decide as E.
  - subst y. split; [done|]. intros p. rewrite elem_of_cons. split.
    + intros Hp. split; [by right|]. by intros ->.
    + intros [[->|Hp] Hne]; done.
  - split.
    + apply NoDup_cons. split; [|done]. rewrite IH2. tauto.
    + intros p. rewrite !elem_of_cons, IH2. split.
      * intros [->|[? ?]]; [split; [by left|done]|split; [by right|done]].
      * intros [[->|?] ?]; [by left|by right].
Qed.

Lemma assignBetter_fields t c ne n :
  g (assignBetter t c ne n) = t ∧ parent (assignBetter t c ne n) = Some c ∧
  h (assignBetter t c ne n) = manhattan n ne ∧
  f (assignBetter t c ne n) = num_add t (manhattan n ne) ∧
  static (assignBetter t c ne n) = static n.
Proof. done. Qed.

Lemma markVisited_sets cur a :
  openSet (markVisited cur a) = openSet a ∧
  closedSet (markVisited cur a) = closedSet a ∧
  isRunning (markVisited cur a) = isRunning a ∧
  path (markVisited cur a) = path a ∧
  coords (nodes (grid (markVisited cur a))) = coords (nodes (grid a)).
Proof.
  unfold markVisited. destruct (_ && _); [|done]. simpl.
  split_and!; try done. by apply coords_updNode.
Qed.

Lemma markVisited_field {A : Type} (fld : Node → A) cur a p :
  (∀ n, fld (set_isVisited true n) = fld n) →
  fld (deref (nodes (grid (markVisited cur a))) p)
  = fld (deref (nodes (grid a)) p).
Proof.
  intros Hfld. unfold markVisited. destruct (_ && _); [|done]. simpl.
  by apply deref_updNode_field.
Qed.

(** The two ways a call of [relax] ends: nothing changes, or the
    neighbour is not closed, is improved and is in the open set. *)
Lemma relax_cases cur e a nb :
  is_Some (nodeAt (nodes (grid a)) nb) →
  let ns := nodes (grid a) in
  let t := num_add (g (deref ns cur)) (weight (deref ns nb)) in
  (relax cur e a nb = a ∧
   (nb ∈ closedSet a ∨ isWall (deref ns nb) = true ∨ num_ltb t (g (deref ns nb)) = false)) ∨
  ((nb ∉ closedSet a) ∧ isWall (deref ns nb) = false ∧
   num_ltb t (g (deref ns nb)) = true ∧
   closedSet (relax cur e a nb) = closedSet a ∧
   isRunning (relax cur e a nb) = isRunning a ∧
   path (relax cur e a nb) = path a ∧
   nodes (grid (relax cur e a nb))
   = updNode nb (assignBetter t cur (deref ns e)) ns ∧
   nb ∈ openSet (relax cur e a nb) ∧
   (∀ p, p ∈ openSet (relax cur e a nb) ↔ p ∈ openSet a ∨ p = nb) ∧
   (NoDup (openSet a) → NoDup (openSet (relax cur e a nb))) ∧
   ∀ p, deref (nodes (grid (relax cur e a nb))) p
        = if decide (nb = p) then assignBetter t cur (deref ns e) (deref ns p)
          else deref ns p).
Proof.
  intros Hin ns t. unfold relax. fold ns. fold t.
  case_bool_decide as Hc; simpl; [left; by eauto|].
  destruct (isWall (deref ns nb)) eqn:Hw; [left; by eauto|].
  destruct (num_ltb t (g (deref ns nb))) eqn:Hlt; [|left; by eauto].
  right. split_and!; try done.
  - by case_bool_decide.
  - by case_bool_decide.
  - by case_bool_decide.
  - by case_bool_decide.
  - case_bool_decide; [done|]. simpl. apply elem_of_app. right. by left.
  - intros p. case_bool_decide as Ho; simpl.
    + split; [by left|]. by intros [?| ->].
    + rewrite elem_of_app, list_elem_of_singleton. done.
  - intros Hnd. case_bool_decide as Ho; simpl; [done|].
    apply NoDup_app. split_and!; [done| |apply NoDup_singleton].
    intros p Hp. rewrite list_elem_of_singleton. by intros ->.
  - intros p. case_bool_decide; simpl; by apply deref_updNode.
Qed.
Lemma fold_left_prefix_inv {A B : Type} (P : list B → A → Prop)
    (fn : A → B → A) (l : list B) (a : A) :
  P [] a →
  (∀ l1 x l2 a', l = l1 ++ x :: l2 → P l1 a' → P (l1 ++ [x]) (fn a' x)) →
  P l (fold_left fn l a).
Proof.
  intros H0 Hstep.
  assert (∀ l2 l1 a', l = l1 ++ l2 → P l1 a' → P l (fold_left fn l2 a')) as H.
  { induction l2 as [|x l2 IH]; intros l1 a' El Hl1; simpl.
    - rewrite app_nil_r in El. by subst.
    - apply (IH (l1 ++ [x])).
      + by rewrite <- app_assoc.
      + by apply (Hstep l1 x l2). }
  by apply (H l []).
Qed.

Lemma fold_left_inv {A B : Type} (P : A → Prop) (fn : A → B → A)
    (l : list B) (a : A) :
  P a → (∀ a' x, x ∈ l → P a' → P (fn a' x)) → P (fold_left fn l a).
Proof.
  intros H0 Hstep. apply (fold_left_prefix_inv (λ _, P)); [done|].
  intros l1 x l2 a' -> Ha'. apply Hstep; [|done].
  apply elem_of_app. right. by left.
Qed.

Section search.
Variable ns0 : list (list Node).
Variables R C : option Z.
Variables s e : Ref.
Hypothesis Hrect : coords ns0 = coordGrid R C.
Hypothesis Hs0 : is_Some (nodeAt ns0 s).
Hypothesis He0 : is_Some (nodeAt ns0 e).

Lemma core_in_grid a p :
  astar_core ns0 s e a → is_Some (nodeAt ns0 p) →
  is_Some (nodeAt (nodes (grid a)) p).
Proof.
  intros ([Hc _] & _) Hp. by apply (coords_is_Some _ ns0).
Qed.

Lemma closeNode_core a cur :
  astar_core ns0 s e a → cur ∈ openSet a → cur ≠ e →
  astar_core ns0 s e (closeNode cur a) ∧ s ∈ closedSet (closeNode cur a).
Proof.
  intros (Hst & Hrun & Hpath & Hno & Hnc & Hdis & Hec & Hin & Hs & Hps & Hpar)
    Hcur Hne.
  destruct (removeFromArray_NoDup (openSet a) cur Hno) as [Hno' Hmem].
  assert (s ∈ closedSet a ++ [cur]) as Hs'.
  { apply elem_of_app. destruct Hs as [?|[Ho _]]; [by left|right].
    rewrite Ho in Hcur. apply list_elem_of_singleton in Hcur as ->. by left. }
  split; [|done]. unfold astar_core, closeNode. simpl. split_and!; try done.
  - apply NoDup_app. split_and!; [done| |apply NoDup_singleton].
    intros p Hp. rewrite list_elem_of_singleton. intros ->. by apply (Hdis cur).
  - intros p Hp. apply Hmem in Hp as [Hp Hpc]. rewrite elem_of_app.
    intros [Hc|Hc]; [by apply (Hdis p)|]. by apply list_elem_of_singleton in Hc.
  - rewrite elem_of_app, list_elem_of_singleton. intros [?|?]; done.
  - intros p [Hp|Hp]; apply Hin.
    + left. by apply Hmem in Hp as [? _].
    + apply elem_of_app in Hp as [?|Hp]; [by right|].
      apply list_elem_of_singleton in Hp as ->. by left.
  - by left.
  - intros p Hp Hps'.
    assert (p ∈ openSet a ∨ p ∈ closedSet a) as Hp'.
    { destruct Hp as [Hp|Hp].
      - left. by apply Hmem in Hp as [? _].
      - apply elem_of_app in Hp as [?|Hp]; [by right|].
        apply list_elem_of_singleton in Hp as ->. by left. }
    destruct (Hpar p Hp' Hps') as (q & i & Hq & Hi & Hadj & Hfree & Hord).
    exists q, i. split_and!; try done.
    + by apply lookup_app_l_Some.
    + intros j Hj. apply lookup_app_Some in Hj as [Hj|[Hj _]]; [by apply Hord|].
      apply lookup_lt_Some in Hi. lia.
Qed.

Lemma markVisited_core a cur :
  astar_core ns0 s e a → astar_core ns0 s e (markVisited cur a).
Proof.
  intros (Hst & Hrun & Hpath & Hno & Hnc & Hdis & Hec & Hin & Hs & Hps & Hpar).
  destruct (markVisited_sets cur a) as (Eo & Ec & Er & Ep & Eco).
  unfold astar_core. rewrite Eo, Ec, Er, Ep. split_and!; try done.
  - destruct Hst as [Hc Hst]. split; [congruence|].
    intros p. rewrite <- Hst. by apply (markVisited_field static).
  - by rewrite (markVisited_field parent).
  - intros p Hp Hps'.
    destruct (Hpar p Hp Hps') as (q & i & Hq & Hi & Hadj & Hfree & Hord).
    exists q, i. by rewrite (markVisited_field parent).
Qed.

Lemma relax_core a cur nb l :
  astar_core ns0 s e a → closedSet a = l ++ [cur] → s ∈ closedSet a →
  adjacent cur nb → passable ns0 nb = true →
  astar_core ns0 s e (relax cur e a nb) ∧
  closedSet (relax cur e a nb) = closedSet a.
Proof.
  intros Hcore Hl Hsc Hadj Hfree.
  assert (is_Some (nodeAt ns0 nb)) as Hnb0.
  { unfold passable in Hfree. by destruct (nodeAt ns0 nb). }
  pose proof (core_in_grid a nb Hcore Hnb0) as Hnb.
  destruct (relax_cases cur e a nb Hnb)
    as [[-> _]|(Hncl & _ & _ & Ec & Er & Ep & En & Hno' & Hmem & Hnd & Hd)];
    [done|].
  destruct Hcore
    as (Hst & Hrun & Hpath & Hno & Hnc & Hdis & Hec & Hin & Hs & Hps & Hpar).
  split; [|done]. unfold astar_core. rewrite Ec, Er, Ep.
  assert (nb ≠ s) as Hnbs by (by intros ->).
  split_and!; try done.
  - rewrite En. apply same_statics_updNode; [|done].
    intros n. apply assignBetter_fields.
  - by apply Hnd.
  - intros p Hp. apply Hmem in Hp as [Hp| ->]; [by apply Hdis|done].
  - intros p [Hp|Hp]; [|apply Hin; by right].
    apply Hmem in Hp as [Hp| ->]; [apply Hin; by left|done].
  - by left.
  - rewrite Hd. by rewrite decide_False.
  - intros p Hp Hps'. rewrite Hd. case_decide as Hpn.
    + subst p. exists cur, (length l). split_and!; try done.
      * rewrite Hl. by apply list_lookup_middle.
      * intros j Hj. exfalso. apply Hncl. by eapply list_elem_of_lookup_2.
    + apply Hpar; [|done]. destruct Hp as [Hp|Hp]; [|by right].
      apply Hmem in Hp as [Hp| ->]; [by left|done].
Qed.

Lemma expand_core a cur :
  astar_core ns0 s e a → cur ∈ openSet a → cur ≠ e →
  astar_core ns0 s e (expand cur e a) ∧
  closedSet (expand cur e a) = closedSet a ++ [cur].
Proof.
  intros Hcore Hcur Hne.
  destruct (closeNode_core a cur Hcore Hcur Hne) as [Hc1 Hs1].
  apply (markVisited_core _ cur) in Hc1.
  destruct (markVisited_sets cur (closeNode cur a)) as (_ & Ec & _).
  unfold expand.
  apply (fold_left_inv (λ a', astar_core ns0 s e a' ∧
                             closedSet a' = closedSet a ++ [cur])).
  { split; [done|]. by rewrite Ec. }
  intros a' nb Hnb [Hc' Ecl]. apply list_elem_of_filter in Hnb as [Hfree Hnb].
  apply elem_of_nbrs in Hnb.
  destruct Hcore as (Hst & _).
  rewrite (same_statics_passable _ ns0) in Hfree by done.
  destruct (relax_core a' cur nb (closedSet a) Hc' Ecl) as [Hc'' Ecl']; try done.
  - rewrite Ecl. exact Hs1.
  - split; [done|]. congruence.
Qed.
End search.
(** ** The search: the loop and the reconstruction of the path *)

Lemma reconstructPath_back ns p l :
  back ns p l → ∀ fuel acc, (length l ≤ fuel)%nat →
  reconstructPath fuel ns (Some p) acc = Some (reverse l ++ acc).
Proof.
  induction 1 as [p Hp|p q l Hp Hb IH]; intros fuel acc Hfuel.
  - destruct fuel as [|fuel]; [simpl in Hfuel; lia|]. simpl. rewrite Hp.
    by destruct fuel.
  - destruct fuel as [|fuel]; [simpl in Hfuel; lia|]. simpl. rewrite Hp.
    rewrite IH by (simpl in Hfuel; lia).
    by rewrite reverse_cons, <- app_assoc.
Qed.

Lemma linked_snoc l p q :
  last l = Some p → linked l → adjacent p q → linked (l ++ [q]).
Proof.
  induction l as [|x [|y l] IH]; intros Hlast Hl Hadj; [done| |].
  - simpl in *. by simplify_eq.
  - destruct Hl as [Hxy Hl]. split; [done|]. by apply IH.
Qed.

Lemma linked_reverse l : linked l → linked (reverse l).
Proof.
  induction l as [|x [|y l] IH]; intros Hl; [done|done|].
  destruct Hl as [Hxy Hl]. rewrite reverse_cons.
  apply (linked_snoc _ y x); [|by apply IH|by apply adjacent_sym].
  by rewrite reverse_cons, last_snoc.
Qed.

Lemma back_head ns p l : back ns p l → head l = Some p.
Proof. by destruct 1. Qed.

Section search_loop.
Variable ns0 : list (list Node).
Variables R C : option Z.
Variables s e : Ref.
Hypothesis Hrect : coords ns0 = coordGrid R C.
Hypothesis Hs0 : is_Some (nodeAt ns0 s).
Hypothesis He0 : is_Some (nodeAt ns0 e).
Hypothesis Hsfree : passable ns0 s = true.

Lemma selected_in_open a cur :
  getLowestFNode (nodes (grid a)) (openSet a) = Some cur → cur ∈ openSet a.
Proof.
  intros E. pose proof (getLowestFNode_spec (nodes (grid a)) (openSet a)) as H.
  rewrite E in H. destruct H as (i & Hi & _). by eapply list_elem_of_lookup_2.
Qed.

Lemma findPath_loop_step fuel a cur :
  astar_core ns0 s e a →
  getLowestFNode (nodes (grid a)) (openSet a) = Some cur → cur ≠ e →
  findPath_loop (S fuel) e a = findPath_loop fuel e (expand cur e a).
Proof.
  intros Hcore Hsel Hne. pose proof (selected_in_open a cur Hsel) as Hcur.
  pose proof Hcore as (Hst & Hrun & _).
  simpl. rewrite Hrun, Hsel.
  rewrite bool_decide_eq_true_2
    by (destruct (openSet a); [by apply elem_of_nil in Hcur|simpl; lia]).
  simpl. rewrite (bool_decide_eq_false_2 (cur = e)) by done.
  fold (closeNode cur a).
  destruct (closeNode_core ns0 s e a cur Hcore Hcur Hne) as [Hc1 _].
  apply (markVisited_core _ _ _ _ cur) in Hc1.
  destruct Hc1 as ([Hco Hst2] & _).
  rewrite (getNeighbors_spec _ R C) by congruence.
  unfold expand. f_equal. f_equal. apply list_filter_iff. intros q.
  rewrite (same_statics_passable _ ns0) by done.
  by rewrite (same_statics_passable (nodes (grid a)) ns0).
Qed.

(** The loop ends within the fuel, on an empty open set or on the
    selection of the goal, in a state that has every invariant the
    iterations keep. *)
Lemma findPath_loop_ends (I : AStar → Prop) :
  (∀ a, I a → astar_core ns0 s e a) →
  (∀ a cur, I a → getLowestFNode (nodes (grid a)) (openSet a) = Some cur →
            cur ≠ e → I (expand cur e a)) →
  ∀ fuel a, I a → (cellCount ns0 < fuel + length (closedSet a))%nat →
  ∃ a', I a' ∧
    ((openSet a' = [] ∧
      findPath_loop fuel e a = Resolved None (set_isRunning false a')) ∨
     (getLowestFNode (nodes (grid a')) (openSet a') = Some e ∧
      findPath_loop fuel e a =
      match reconstructPath (S (cellCount (nodes (grid a'))))
              (nodes (grid a')) (Some e) [] with
      | None => OutOfFuel
      | Some p =>
          Resolved (Some (Result.mk p (visitedNodes a') (Z.of_nat (length p))
                                    (nodesExplored a')))
                   (set_isRunning false (set_path p a'))
      end)).
Proof.
  intros Hcore Hstep. induction fuel as [|fuel IH]; intros a Ha Hbound.
  - exfalso. destruct (Hcore a Ha) as (_ & _ & _ & _ & Hnc & _ & _ & Hin & _).
    assert (length (closedSet a) ≤ cellCount ns0)%nat; [|lia].
    apply (cells_bound ns0 R C); try done. intros p Hp. apply Hin. by right.
  - pose proof (Hcore a Ha) as Hc. pose proof Hc as (_ & Hrun & _).
    destruct (getLowestFNode (nodes (grid a)) (openSet a)) as [cur|] eqn:Hsel.
    + destruct (decide (cur = e)) as [->|Hne].
      * exists a. split; [done|]. right. split; [done|].
        pose proof (selected_in_open a e Hsel) as Hcur.
        simpl. rewrite Hrun, Hsel.
        rewrite bool_decide_eq_true_2
          by (destruct (openSet a); [by apply elem_of_nil in Hcur|simpl; lia]).
        simpl. by rewrite bool_decide_eq_true_2.
      * rewrite (findPath_loop_step fuel a cur) by done.
        apply IH; [by apply Hstep|].
        destruct (expand_core ns0 s e a cur Hc (selected_in_open a cur Hsel) Hne)
          as [_ ->].
        rewrite length_app. simpl. lia.
    + exists a. split; [done|]. left.
      pose proof (getLowestFNode_spec (nodes (grid a)) (openSet a)) as H.
      rewrite Hsel in H. split; [done|]. simpl. by rewrite H.
Qed.

(** The chain of parents of a closed node: distinct closed nodes, each
    next to its parent, none an obstacle, ending at the start. *)
Lemma back_closed a :
  astar_core ns0 s e a →
  ∀ i p, closedSet a !! i = Some p →
  ∃ l, back (nodes (grid a)) p l ∧ last l = Some s ∧ linked l ∧
       Forall (λ x, passable ns0 x = true) l ∧ NoDup l ∧
       (length l ≤ S i)%nat ∧
       ∀ x, x ∈ l → ∃ j, (j ≤ i)%nat ∧ closedSet a !! j = Some x.
Proof.
  intros (Hst & Hrun & Hpath & Hno & Hnc & Hdis & Hec & Hin & Hs & Hps & Hpar).
  induction i as [i IH] using lt_wf_ind. intros p Hp.
  destruct (decide (p = s)) as [->|Hne].
  - exists [s]. split_and!; try done.
    + by constructor.
    + by apply Forall_singleton.
    + apply NoDup_singleton.
    + simpl. lia.
    + intros x Hx. apply list_elem_of_singleton in Hx as ->. by exists i.
  - destruct (Hpar p) as (q & i' & Hq & Hi' & Hadj & Hfree & Hord);
      [right; by eapply list_elem_of_lookup_2|done|].
    specialize (Hord i Hp).
    destruct (IH i' Hord q Hi') as (l & Hb & Hlast & Hlink & Hall & Hnd & Hlen & Hidx).
    exists (p :: l). split_and!.
    + by eapply back_step.
    + rewrite last_cons, Hlast. done.
    + pose proof (back_head _ _ _ Hb) as Hh. destruct l as [|y l]; [done|].
      simpl in Hh. injection Hh as ->. split; [by apply adjacent_sym|done].
    + by apply Forall_cons.
    + apply NoDup_cons. split; [|done]. intros Hpl.
      destruct (Hidx p Hpl) as (j & Hj & Hjp).
      assert (j = i) by (by apply (NoDup_lookup (closedSet a) j i p)). lia.
    + simpl. lia.
    + intros x Hx. apply elem_of_cons in Hx as [->|Hx]; [by exists i|].
      destruct (Hidx x Hx) as (j & Hj & Hjx). exists j. split; [lia|done].
Qed.

(** The same for a node of the open set that is not the start. *)
Lemma back_open a p :
  astar_core ns0 s e a → p ∈ openSet a → p ≠ s →
  ∃ l, back (nodes (grid a)) p l ∧ head l = Some p ∧ last l = Some s ∧
       linked l ∧ Forall (λ x, passable ns0 x = true) l ∧ NoDup l ∧
       (length l ≤ S (length (closedSet a)))%nat ∧
       ∀ x, x ∈ l → x ∈ openSet a ∨ x ∈ closedSet a.
Proof.
  intros Hcore Hp Hne. pose proof Hcore as
    (Hst & Hrun & Hpath & Hno & Hnc & Hdis & Hec & Hin & Hs & Hps & Hpar).
  destruct (Hpar p) as (q & i & Hq & Hi & Hadj & Hfree & Hord); [by left|done|].
  destruct (back_closed a Hcore i q Hi)
    as (l & Hb & Hlast & Hlink & Hall & Hnd & Hlen & Hidx).
  exists (p :: l). split_and!.
  - by eapply back_step.
  - done.
  - by rewrite last_cons, Hlast.
  - pose proof (back_head _ _ _ Hb) as Hh. destruct l as [|y l]; [done|].
    simpl in Hh. injection Hh as ->. split; [by apply adjacent_sym|done].
  - by apply Forall_cons.
  - apply NoDup_cons. split; [|done]. intros Hpl.
    destruct (Hidx p Hpl) as (j & _ & Hjp).
    apply (Hdis p Hp). by eapply list_elem_of_lookup_2.
  - simpl. apply lookup_lt_Some in Hi. lia.
  - intros x Hx. apply elem_of_cons in Hx as [->|Hx]; [by left|].
    destruct (Hidx x Hx) as (j & _ & Hjx). right. by eapply list_elem_of_lookup_2.
Qed.
End search_loop.
(** ** The search with unit weights: the cost of a closed node is minimal *)

Lemma mdist_adjacent p q e : adjacent p q → mdist p e ≤ mdist q e + 1.
Proof. unfold adjacent, mdist. lia. Qed.

Lemma passable_deref ns p : passable ns p = true → isWall (deref ns p) = false.
Proof.
  unfold passable, deref. destruct (nodeAt ns p) as [n|]; simpl; [|done].
  by destruct (isWall n).
Qed.

Lemma astar_unit_weaken ns0 s e (rel rel' : Ref → Ref → Prop) a :
  (∀ c m, adjacent c m → passable ns0 m = true → rel' c m → rel c m) →
  astar_unit ns0 s e rel a → astar_unit ns0 s e rel' a.
Proof.
  intros Hrel (HW & HG & HU & HH & HR & HO). split_and!; try done.
  intros c m Hc Hadj Hfree Hcm. apply HR; try done. by apply Hrel.
Qed.

Section search_unit.
Variable ns0 : list (list Node).
Variables R C : option Z.
Variables s e : Ref.
Hypothesis Hrect : coords ns0 = coordGrid R C.
Hypothesis Hunit : ∀ p, weight (deref ns0 p) = 1.

Let all : Ref → Ref → Prop := λ _ _, True.

(** Every walk from the start ends on a closed node or has passed an
    open node whose [f] is at most the length of the walk plus the
    heuristic of its end. *)
Lemma frontier a k t :
  astar_core ns0 s e a → astar_unit ns0 s e all a →
  walk (passable ns0) s k t →
  t ∈ closedSet a ∨
  ∃ m gm, m ∈ openSet a ∧ g (deref (nodes (grid a)) m) = Fin gm ∧
          gm + mdist m e ≤ Z.of_nat k + mdist t e.
Proof.
  intros Hcore (HW & HG & HU & HH & HR & HO).
  pose proof Hcore as (_ & _ & _ & _ & _ & _ & _ & _ & Hs & _).
  induction 1 as [|k p q Hw IH Hadj Hfree].
  - destruct Hs as [Hs|[Ho _]]; [by left|]. right. exists s, 0.
    rewrite Ho. split_and!; [by left|done|lia].
  - destruct IH as [Hp|(m & gm & Hm & Hgm & Hle)].
    + destruct (HO p k Hp Hw) as (gp & Hgp & Hgpk).
      destruct (HR p q Hp Hadj Hfree I) as ([Hq|Hq] & gc & gq & Hgc & Hgq & Hle);
        [|by left].
      right. exists q, gq. split_and!; [done|done|]. rewrite Hgp in Hgc. injection Hgc as <-. lia.
    + right. exists m, gm. split_and!; [done|done|].
      pose proof (mdist_adjacent p q e Hadj). lia.
Qed.

(** The node the loop selects has the least cost of all walks to it. *)
Lemma selected_optimal a cur k :
  astar_core ns0 s e a → astar_unit ns0 s e all a →
  getLowestFNode (nodes (grid a)) (openSet a) = Some cur →
  walk (passable ns0) s k cur →
  ∃ gc, g (deref (nodes (grid a)) cur) = Fin gc ∧ gc ≤ Z.of_nat k.
Proof.
  intros Hcore Hu Hsel Hw. pose proof (selected_in_open a cur Hsel) as Hcur.
  destruct (frontier a k cur Hcore Hu Hw) as [Hc|(m & gm & Hm & Hgm & Hle)].
  { destruct Hcore as (_ & _ & _ & _ & _ & Hdis & _). by destruct (Hdis cur Hcur). }
  destruct Hu as (HW & HG & HU & HH & HR & HO).
  destruct (HW cur (or_introl Hcur)) as (kc & Hgc & _).
  exists (Z.of_nat kc). split; [done|].
  pose proof (getLowestFNode_spec (nodes (grid a)) (openSet a)) as Hspec.
  rewrite Hsel in Hspec. destruct Hspec as (i & _ & Hmin & _).
  apply list_elem_of_lookup in Hm as [j Hj]. specialize (Hmin j m Hj).
  apply not_true_iff_false in Hmin. rewrite better_spec in Hmin.
  destruct (HH m) as [Hhm Hfm]; [by eapply list_elem_of_lookup_2|].
  destruct (HH cur Hcur) as [Hhc Hfc].
  rewrite Hfm, Hfc, Hgm, Hgc in Hmin. simpl in Hmin. lia.
Qed.

Lemma closeNode_unit a cur :
  astar_core ns0 s e a → astar_unit ns0 s e all a →
  getLowestFNode (nodes (grid a)) (openSet a) = Some cur →
  astar_unit ns0 s e (λ c m, c ≠ cur) (closeNode cur a).
Proof.
  intros Hcore Hu Hsel. pose proof (selected_in_open a cur Hsel) as Hcur.
  pose proof (λ k, selected_optimal a cur k Hcore Hu Hsel) as Hopt.
  destruct Hu as (HW & HG & HU & HH & HR & HO).
  pose proof Hcore as (_ & _ & _ & Hno & _).
  destruct (removeFromArray_NoDup (openSet a) cur Hno) as [_ Hmem].
  unfold astar_unit, closeNode. simpl. split_and!.
  - intros p Hp. apply HW. rewrite Hmem, elem_of_app, list_elem_of_singleton in Hp.
    destruct Hp as [[? _]|[?| ->]]; auto.
  - done.
  - intros p Hpo Hpc. rewrite elem_of_app, list_elem_of_singleton in Hpc.
    rewrite Hmem in Hpo. apply HU; [|tauto].
    intros Hp. apply Hpo. split; [done|]. intros ->. tauto.
  - intros p Hp. apply HH. apply Hmem in Hp. tauto.
  - intros c m Hc Hadj Hfree Hne.
    rewrite elem_of_app, list_elem_of_singleton in Hc.
    destruct Hc as [Hc|Hc]; [|done].
    destruct (HR c m Hc Hadj Hfree I) as (Hm & Hg). split; [|done].
    rewrite Hmem, elem_of_app, list_elem_of_singleton.
    destruct (decide (m = cur)); [right; by right|]. destruct Hm; auto.
  - intros c k Hc Hw. rewrite elem_of_app, list_elem_of_singleton in Hc.
    destruct Hc as [Hc| ->]; [by apply HO|by apply Hopt].
Qed.

Lemma markVisited_unit rel a cur :
  astar_unit ns0 s e rel a → astar_unit ns0 s e rel (markVisited cur a).
Proof.
  intros (HW & HG & HU & HH & HR & HO).
  destruct (markVisited_sets cur a) as (Eo & Ec & _).
  unfold astar_unit. cbv zeta. rewrite Eo, Ec.
  split_and!.
  - intros p Hp. destruct (HW p Hp) as (k & Hk & Hw & Hq). exists k.
    rewrite (markVisited_field g) by done. split_and!; try done.
    intros Hne. destruct (Hq Hne) as (q & Hpq & Hgq). exists q.
    by rewrite (markVisited_field parent), (markVisited_field g).
  - by rewrite (markVisited_field g).
  - intros p Hpo Hpc. rewrite (markVisited_field g) by done. by apply HU.
  - intros p Hp.
    rewrite (markVisited_field h), (markVisited_field f), (markVisited_field g)
      by done.
    by apply HH.
  - intros c m Hc Hadj Hfree Hcm. rewrite !(markVisited_field g) by done.
    by apply HR.
  - intros c k Hc Hw. rewrite (markVisited_field g) by done. by apply HO.
Qed.
Lemma relax_unit a cur nb l done :
  astar_core ns0 s e a → closedSet a = l ++ [cur] → s ∈ closedSet a →
  adjacent cur nb → passable ns0 nb = true →
  astar_unit ns0 s e (λ c m, c ≠ cur ∨ m ∈ done) a →
  astar_unit ns0 s e (λ c m, c ≠ cur ∨ m ∈ done ++ [nb]) (relax cur e a nb).
Proof.
  intros Hcore Hl Hsc Hadj Hfree (HW & HG & HU & HH & HR & HO).
  pose proof Hcore as (Hst & _ & _ & _ & _ & _ & _ & _ & _ & _ & Hpar).
  assert (is_Some (nodeAt ns0 nb)) as Hnb0.
  { unfold passable in Hfree. by destruct (nodeAt ns0 nb). }
  pose proof (core_in_grid ns0 s e a nb Hcore Hnb0) as Hnb.
  assert (cur ∈ closedSet a) as Hcur.
  { rewrite Hl, elem_of_app, list_elem_of_singleton. by right. }
  destruct (HW cur (or_intror Hcur)) as (kc & Hgc & Hwc & _).
  assert (walk (passable ns0) s (S kc) nb) as Hwnb by by eapply walk_step.
  assert (weight (deref (nodes (grid a)) nb) = 1) as Hwt.
  { destruct (same_statics_field _ _ nb Hst) as (_ & _ & _ & _ & _ & ->).
    apply Hunit. }
  assert (isWall (deref (nodes (grid a)) nb) = false) as Hnw.
  { apply passable_deref. by rewrite (same_statics_passable _ ns0). }
  destruct (relax_cases cur e a nb Hnb) as
    [[-> Hwhy]|(Hnc & _ & Hlt & Ecl & _ & _ & _ & Hnbo & Hopen & _ & Hder)].
  - split_and!; try done.
    intros c m Hc Hadjc Hfreec [Hne|Hm]; [apply HR; auto|].
    rewrite elem_of_app, list_elem_of_singleton in Hm.
    destruct Hm as [Hm| ->]; [apply HR; auto|].
    destruct (decide (c = cur)) as [->|Hne]; [|apply HR; auto].
    rewrite Hgc, Hwt in Hwhy. simpl in Hwhy.
    destruct Hwhy as [Hcl|[Hw|Hlt]]; [|congruence|].
    + split; [by right|]. destruct (HO nb (S kc) Hcl Hwnb) as (gn & Hgn & Hle).
      exists (Z.of_nat kc), gn. split_and!; [done|done|lia].
    + destruct (g (deref (nodes (grid a)) nb)) as [gn|] eqn:Hgn; [|done].
      simpl in Hlt. apply Z.ltb_ge in Hlt. split.
      * destruct (decide (nb ∈ openSet a)); [by left|].
        destruct (decide (nb ∈ closedSet a)); [by right|].
        rewrite HU in Hgn; done.
      * exists (Z.of_nat kc), gn. done.
  - rewrite Hgc, Hwt in Hder, Hlt. simpl in Hder, Hlt.
    assert (nb ≠ cur) as Hnbc by (by intros ->).
    assert (nb ≠ s) as Hnbs by (by intros ->).
    assert (∀ p, p ∈ closedSet a →
              deref (nodes (grid (relax cur e a nb))) p = deref (nodes (grid a)) p)
      as Hsame.
    { intros p Hp. rewrite Hder. case_decide; [by subst|done]. }
    unfold astar_unit. cbv zeta. rewrite Ecl. split_and!.
    + intros p Hp. destruct (decide (p = nb)) as [->|Hne].
      * exists (S kc). rewrite Hder, decide_True by done.
        split_and!; [simpl; f_equal; lia|done|].
        intros _. exists cur. split; [done|]. rewrite (Hsame cur Hcur), Hgc.
        f_equal. lia.
      * assert (p ∈ openSet a ∨ p ∈ closedSet a) as Hp'.
        { rewrite Hopen in Hp. destruct Hp as [[?|?]|?]; auto. done. }
        destruct (HW p Hp') as (k & Hk & Hw & Hq). exists k.
        rewrite Hder, decide_False by done. split_and!; try done.
        intros Hps. destruct (Hq Hps) as (q & Hpq & Hgq). exists q.
        split; [done|]. rewrite Hsame; [done|].
        destruct (Hpar p Hp' Hps) as (q' & i & Hpq' & Hi & _).
        assert (q = q') as -> by congruence. by eapply list_elem_of_lookup_2.
    + by rewrite (Hsame s Hsc).
    + intros p Hpo Hpc. rewrite Hopen in Hpo.
      rewrite Hder, decide_False by (intros ->; tauto). apply HU; tauto.
    + intros p Hp. rewrite Hder. case_decide as Hd.
      * subst p. simpl. split; [|done]. unfold manhattan, mdist. cbn [row col set_g set_parent].
        destruct (same_statics_field _ _ nb Hst) as (-> & -> & _).
        destruct (same_statics_field _ _ e Hst) as (-> & -> & _).
        pose proof (rect_deref_pos ns0 R C Hrect nb) as E1.
        pose proof (rect_deref_pos ns0 R C Hrect e) as E2.
        destruct nb, e. simpl. injection E1 as -> ->. by injection E2 as -> ->.
      * apply HH. apply Hopen in Hp as [?|?]; [done|by subst].
    + intros c m Hc Hadjc Hfreec Hrel. rewrite (Hsame c Hc).
      destruct (decide (m = nb)) as [->|Hne].
      * split; [by left|]. rewrite Hder, decide_True by done. simpl.
        destruct (decide (c = cur)) as [->|Hcc].
        { exists (Z.of_nat kc), (Z.of_nat kc + 1). split_and!; [done|done|lia]. }
        destruct (HR c nb Hc Hadjc Hfreec (or_introl Hcc))
          as (_ & gc & gm & Hgc' & Hgm & Hle).
        rewrite Hgm in Hlt. simpl in Hlt. apply Z.ltb_lt in Hlt.
        exists gc, (Z.of_nat kc + 1). split_and!; [done|done|lia].
      * rewrite Hder, decide_False by done.
        assert (c ≠ cur ∨ m ∈ done) as Hrel'.
        { destruct Hrel as [?|Hm]; [by left|].
          rewrite elem_of_app, list_elem_of_singleton in Hm. tauto. }
        destruct (HR c m Hc Hadjc Hfreec Hrel') as (Hm & Hg). split; [|done].
        rewrite Hopen. tauto.
    + intros c k Hc Hw. rewrite (Hsame c Hc). by apply HO.
Qed.

(** An iteration of the loop keeps the invariant of the costs. *)
Lemma expand_unit a cur :
  astar_core ns0 s e a → astar_unit ns0 s e all a →
  getLowestFNode (nodes (grid a)) (openSet a) = Some cur → cur ≠ e →
  astar_unit ns0 s e all (expand cur e a).
Proof.
  intros Hcore Hu Hsel Hne. pose proof (selected_in_open a cur Hsel) as Hcur.
  destruct (closeNode_core ns0 s e a cur Hcore Hcur Hne) as [Hc1 Hs1].
  apply (markVisited_core _ _ _ _ cur) in Hc1.
  destruct (markVisited_sets cur (closeNode cur a)) as (_ & Ec & _).
  pose proof (markVisited_unit _ _ cur (closeNode_unit a cur Hcore Hu Hsel)) as Hu1.
  pose proof Hcore as (Hst & _).
  unfold expand.
  set (nbs := filter (λ q, passable (nodes (grid a)) q = true) (nbrs cur)).
  assert (∀ nb, nb ∈ nbs ↔ adjacent cur nb ∧ passable ns0 nb = true) as Hnbs.
  { intros nb. unfold nbs. rewrite list_elem_of_filter, elem_of_nbrs.
    rewrite (same_statics_passable _ ns0) by done. tauto. }
  eapply astar_unit_weaken; [|
    apply (fold_left_prefix_inv
      (λ done a', (astar_core ns0 s e a' ∧
                   closedSet a' = closedSet a ++ [cur]) ∧
                  astar_unit ns0 s e (λ c m, c ≠ cur ∨ m ∈ done) a'))].
  - intros c m Hadj Hfree _. destruct (decide (c = cur)) as [->|?]; [|by left].
    right. by apply Hnbs.
  - split; [split; [done|by rewrite Ec]|].
    eapply astar_unit_weaken; [|exact Hu1]. intros c m _ _ [?|Hm]; [done|].
    by apply elem_of_nil in Hm.
  - intros l1 nb l2 a' El [[Hc' Ecl] Hu'].
    assert (nb ∈ nbs) as Hnb.
    { rewrite El, elem_of_app, elem_of_cons. tauto. }
    apply Hnbs in Hnb as [Hadj Hfree].
    assert (s ∈ closedSet a') as Hs'.
    { rewrite Ecl. exact Hs1. }
    destruct (relax_core ns0 s e a' cur nb (closedSet a) Hc' Ecl Hs' Hadj Hfree)
      as [Hc'' Ecl'].
    split; [split; [done|congruence]|].
    by apply (relax_unit a' cur nb (closedSet a) l1).
Qed.
End search_unit.
(** ** The search from its first statement *)

Lemma cellCount_coords ns ns' : coords ns = coords ns' → cellCount ns = cellCount ns'.
Proof.
  intros E. unfold cellCount.
  assert (∀ l : list (list Node), length (concat l) = length (concat (coords l))) as H.
  { intros l. unfold coords. rewrite <- fmap_concat. by rewrite length_fmap. }
  by rewrite !H, E.
Qed.

Lemma deref_reset ns p :
  deref ((λ rw : list Node, resetNode <$> rw) <$> ns) p = resetNode (deref ns p).
Proof. unfold deref. rewrite nodeAt_fmap. by destruct (nodeAt ns p). Qed.

Lemma unit_weights_deref ns p : unit_weights ns → weight (deref ns p) = 1.
Proof.
  intros H. unfold deref. destruct (nodeAt ns p) as [n|] eqn:E; [|done].
  simpl. by apply (proj1 (Forall2_nodeAt _ ns) H p n).
Qed.

Lemma grid_inv_ready a s e :
  grid_inv (grid a) → isRunning a = false →
  startNode (grid a) = Some s → endNode (grid a) = Some e → ready a s e.
Proof.
  intros [Hsh Hinv] Hrun Es Ee. rewrite Es, Ee in Hinv.
  destruct Hinv as (Hne & [n Hn] & He & Hcells).
  split_and!; try done. unfold passable. rewrite Hn.
  destruct (shape_nodeAt _ _ _ Hsh Hn) as [Hpos _].
  destruct (proj1 (Forall2_nodeAt _ _) Hcells s n Hn) as (_ & _ & Hw).
  destruct (isWall n); [|done]. by destruct (Hw eq_refl).
Qed.

(** [findPath] enters its loop with the start as the only open node. *)
Lemma findPath_init a s e :
  ready a s e →
  ∃ a3, findPath a = findPath_loop (S (cellCount (nodes (grid a)))) e a3 ∧
        astar_core (nodes (grid a)) s e a3 ∧ closedSet a3 = [] ∧
        astar_unit (nodes (grid a)) s e (λ _ _, True) a3.
Proof.
  intros (Hsh & Hrun & Es & Ee & Hfree & [ne Hne]).
  assert (∃ nst, nodeAt (nodes (grid a)) s = Some nst) as [nst Hns].
  { unfold passable in Hfree. destruct (nodeAt (nodes (grid a)) s); [eauto|done]. }
  set (ns := nodes (grid a)) in *.
  set (nsr := (λ rw : list Node, resetNode <$> rw) <$> ns).
  set (ns3 := updNode s (initStart (resetNode ne)) nsr).
  assert (∀ p, deref ns3 p = if decide (s = p)
                             then initStart (resetNode ne) (resetNode (deref ns p))
                             else resetNode (deref ns p)) as Hder.
  { intros p. unfold ns3. rewrite deref_updNode.
    - unfold nsr. by rewrite deref_reset.
    - unfold nsr. rewrite nodeAt_fmap, Hns. by eexists. }
  assert (coords ns3 = coords ns) as Hco.
  { unfold ns3. rewrite coords_updNode by done. unfold nsr. by apply coords_fmap. }
  exists (mkAStar (set_nodes ns3 (grid a)) [s] [] [] [] true 0). split_and!.
  - unfold findPath. rewrite Hrun, Es, Ee. unfold reset. cbn [grid set_isRunning
      set_openSet set_closedSet set_path set_visitedNodes set_nodesExplored].
    rewrite resetPathfinding_spec by done. fold ns. fold nsr.
    cbn [grid set_grid nodes set_nodes]. unfold nsr at 1 2.
    rewrite !nodeAt_fmap. fold ns. rewrite Hns, Hne. cbn [fmap option_fmap option_map].
    rewrite <- (cellCount_coords ns3 ns Hco). reflexivity.
  - unfold astar_core. cbn. split_and!; try done.
    + split; [done|]. intros p. rewrite Hder. by case_decide.
    + apply NoDup_singleton.
    + constructor.
    + intros p _. apply not_elem_of_nil.
    + apply not_elem_of_nil.
    + intros p [Hp|Hp]; [|by apply elem_of_nil in Hp].
      apply list_elem_of_singleton in Hp as ->. by eexists.
    + by right.
    + rewrite Hder. by rewrite decide_True.
    + intros p [Hp|Hp] Hps; [|by apply elem_of_nil in Hp].
      by apply list_elem_of_singleton in Hp.
  - done.
  - unfold astar_unit. cbn. split_and!.
    + intros p [Hp|Hp]; [|by apply elem_of_nil in Hp].
      apply list_elem_of_singleton in Hp as ->. exists 0%nat.
      rewrite Hder, decide_True by done. split_and!; [done|constructor|done].
    + by rewrite Hder, decide_True.
    + intros p Hp _. rewrite list_elem_of_singleton in Hp.
      rewrite Hder, decide_False by done. done.
    + intros p Hp. apply list_elem_of_singleton in Hp as ->.
      rewrite Hder, decide_True by done. split; [|done].
      rewrite (deref_nodeAt _ _ _ Hns). cbn. unfold mdist.
      destruct (shape_nodeAt _ _ _ Hsh Hns) as [E1 _].
      destruct (shape_nodeAt _ _ _ Hsh Hne) as [E2 _].
      rewrite <- E1, <- E2. reflexivity.
    + intros c m Hc. by apply elem_of_nil in Hc.
    + intros c k Hc. by apply elem_of_nil in Hc.
Qed.
(** ** Routes and walks *)

Lemma walk_cons free p q k t :
  adjacent p q → free q = true → walk free q k t → walk free p (S k) t.
Proof.
  intros Hadj Hfree Hw.
  apply (walk_app free p 1 q k t); [|done].
  by apply (walk_step free p 0 p q); [constructor| |].
Qed.

Lemma route_walk ns s e l :
  route ns s e l → walk (passable ns) s (length l - 1) e.
Proof.
  intros (Hh & Hl & Hlink & Hall). revert s Hh Hl Hlink Hall.
  induction l as [|x [|y l] IH]; intros s Hh Hl Hlink Hall; [done| |].
  - simpl in *. simplify_eq. constructor.
  - injection Hh as ->. destruct Hlink as [Hadj Hlink].
    apply Forall_cons in Hall as [_ Hall].
    pose proof (Forall_inv Hall) as Hy.
    replace (length (s :: y :: l) - 1)%nat with (S (length (y :: l) - 1))
      by (simpl; lia).
    apply (walk_cons _ s y); [done|done|]. by apply IH.
Qed.

Lemma sealed_walk ns region s k t :
  sealed ns region → s ∈ region → walk (passable ns) s k t → t ∈ region.
Proof.
  intros Hseal Hs. induction 1 as [|k p q Hw IH Hadj Hfree]; [done|].
  unfold sealed in Hseal. rewrite Forall_forall in Hseal.
  specialize (Hseal p IH). rewrite Forall_forall in Hseal.
  apply Hseal; [|done]. by apply elem_of_nbrs.
Qed.

Lemma sealed_no_route ns region s e l :
  sealed ns region → s ∈ region → e ∉ region → ¬ route ns s e l.
Proof.
  intros Hseal Hs He Hr. apply He.
  eapply sealed_walk; [done|done|]. by apply route_walk.
Qed.

(** The cost of a node is the number of parent links back to the
    start. *)
Lemma back_cost ns0 s e a p l :
  astar_core ns0 s e a → astar_unit ns0 s e (λ _ _, True) a →
  back (nodes (grid a)) p l →
  (∀ x, x ∈ l → x ∈ openSet a ∨ x ∈ closedSet a) →
  g (deref (nodes (grid a)) p) = Fin (Z.of_nat (length l) - 1).
Proof.
  intros Hcore (HW & HG & _) Hb.
  pose proof Hcore as (_ & _ & _ & _ & _ & _ & _ & _ & _ & Hps & _).
  induction Hb as [p Hp|p q l Hp Hb IH]; intros Hin.
  - destruct (decide (p = s)) as [->|Hne]; [done|].
    destruct (HW p) as (k & _ & _ & Hq); [apply Hin; by left|].
    destruct (Hq Hne) as (q & Hpq & _). congruence.
  - assert (p ≠ s) as Hne by (intros ->; congruence).
    destruct (HW p) as (k & Hk & _ & Hq); [apply Hin; by left|].
    destruct (Hq Hne) as (q' & Hpq & Hgq).
    assert (q' = q) as -> by congruence.
    rewrite IH in Hgq by (intros x Hx; apply Hin; by right).
    rewrite Hk. injection Hgq as Hgq. f_equal. simpl length. lia.
Qed.

(** How a search ends: on an empty open set, with [null], or on the
    selection of the goal, with the reversed chain of parents of the
    goal. *)
Lemma findPath_outcome (I : AStar → Prop) a s e :
  let ns0 := nodes (grid a) in
  ready a s e →
  (∀ a', I a' → astar_core ns0 s e a') →
  (∀ a' cur, I a' → getLowestFNode (nodes (grid a')) (openSet a') = Some cur →
             cur ≠ e → I (expand cur e a')) →
  (∀ a3, astar_core ns0 s e a3 → astar_unit ns0 s e (λ _ _, True) a3 → I a3) →
  ∃ a', I a' ∧
    ((openSet a' = [] ∧ findPath a = Resolved None (set_isRunning false a')) ∨
     (∃ l, getLowestFNode (nodes (grid a')) (openSet a') = Some e ∧
           back (nodes (grid a')) e l ∧
           (∀ x, x ∈ l → x ∈ openSet a' ∨ x ∈ closedSet a') ∧
           (length l ≤ S (cellCount ns0))%nat ∧
           route ns0 s e (reverse l) ∧ NoDup (reverse l) ∧
           findPath a =
           Resolved (Some (Result.mk (reverse l) (visitedNodes a')
                                     (Z.of_nat (length (reverse l)))
                                     (nodesExplored a')))
                    (set_isRunning false (set_path (reverse l) a')))).
Proof.
  intros ns0 Hready Hcore Hstep Hinit.
  destruct (findPath_init a s e Hready) as (a3 & -> & Hc3 & Ecl & Hu3).
  destruct Hready as (Hsh & _ & _ & _ & Hfree & He).
  destruct (findPath_loop_ends ns0 (rows (grid a)) (cols (grid a)) s e Hsh I Hcore Hstep
              (S (cellCount ns0)) a3 (Hinit a3 Hc3 Hu3))
    as (a' & Ha' & Hend); [rewrite Ecl; simpl; lia|].
  exists a'. split; [done|]. destruct Hend as [?|[Hsel Hres]]; [by left|right].
  pose proof (Hcore a' Ha') as Hc'.
  pose proof (selected_in_open a' e Hsel) as Heo.
  assert (∃ l, back (nodes (grid a')) e l ∧ head l = Some e ∧ last l = Some s ∧
               linked l ∧ Forall (λ x, passable ns0 x = true) l ∧ NoDup l ∧
               (length l ≤ S (length (closedSet a')))%nat ∧
               ∀ x, x ∈ l → x ∈ openSet a' ∨ x ∈ closedSet a') as
    (l & Hb & Hh & Hl & Hlink & Hall & Hnd & Hlen & Hin).
  { destruct (decide (e = s)) as [->|Hne]; [|by apply (back_open ns0 s e)].
    exists [s]. pose proof Hc' as (_ & _ & _ & _ & _ & _ & _ & _ & _ & Hps & _).
    split_and!; try done.
    - by constructor.
    - by apply Forall_singleton.
    - apply NoDup_singleton.
    - simpl. lia.
    - intros x Hx. apply list_elem_of_singleton in Hx as ->. by left. }
  assert (length (closedSet a') ≤ cellCount ns0)%nat as Hbound.
  { pose proof Hc' as (_ & _ & _ & _ & Hnc & _ & _ & Hgrid & _).
    apply (cells_bound ns0 _ _ Hsh); [done|]. intros p Hp. apply Hgrid. by right. }
  exists l. split_and!; try done.
  - lia.
  - split_and!.
    + by rewrite head_reverse.
    + by rewrite last_reverse.
    + by apply linked_reverse.
    + by apply Forall_reverse.
  - by rewrite reverse_Permutation.
  - unfold ns0 in Hres. rewrite Hres.
    rewrite (reconstructPath_back _ e l Hb).
    + by rewrite app_nil_r.
    + destruct Hc' as ([Hco _] & _). rewrite (cellCount_coords _ ns0 Hco). lia.
Qed.
(** ** The results of a search *)





(** C1: on a grid whose cells all have weight 1 and on which an
    obstacle-free orthogonal path leads from the start to the goal,
    [findPath] resolves to a result whose path is such a path, with as many
    cells as the breadth-first search counts on a shortest one, and no more
    than any such path has. *)
Theorem findPath_shortest a s e :
  ready a s e → unit_weights (nodes (grid a)) →
  (∃ l, route (nodes (grid a)) s e l) →
  ∃ r a', findPath a = Resolved (Some r) a' ∧
    route (nodes (grid a)) s e (Result.path r) ∧
    bfs_path_length (nodes (grid a)) s e = Some (length (Result.path r)) ∧
    Result.pathLength r = Z.of_nat (length (Result.path r)) ∧
    ∀ l, route (nodes (grid a)) s e l → (length (Result.path r) ≤ length l)%nat.
Proof.
  intros Hready Hunit [l0 Hl0].
  set (ns0 := nodes (grid a)) in *.
  pose proof Hready as (Hsh & _).
  assert (∀ p, weight (deref ns0 p) = 1) as Hw
    by (intros p; by apply unit_weights_deref).
  destruct (findPath_outcome
              (λ a', astar_core ns0 s e a' ∧ astar_unit ns0 s e (λ _ _, True) a')
              a s e Hready)
    as (af & [Hc Hu] & [[Ho _]|(l & Hsel & Hb & Hin & Hlen & Hroute & _ & E)]).
  - by intros a1 [? _].
  - intros a1 cur [Hc Hu] Hsel Hne. split.
    + by apply expand_core; [|apply selected_in_open|].
    + by apply (expand_unit ns0 (rows (grid a)) (cols (grid a))).
  - done.
  - exfalso. apply route_walk in Hl0.
    destruct (frontier ns0 s e af _ e Hc Hu Hl0) as [He|(m & _ & Hm & _)].
    + by destruct Hc as (_ & _ & _ & _ & _ & _ & Hec & _).
    + rewrite Ho in Hm. by apply elem_of_nil in Hm.
  - pose proof (back_cost ns0 s e af e l Hc Hu Hb Hin) as Hg.
    pose proof (selected_in_open af e Hsel) as Heo.
    pose proof Hu as (HW & _).
    destruct (HW e (or_introl Heo)) as (k & Hk & Hwk & _).
    rewrite Hg in Hk. injection Hk as Hk.
    assert (∀ k', walk (passable ns0) s k' e → (k ≤ k')%nat) as Hmin.
    { intros k' Hk'.
      destruct (selected_optimal ns0 s e af e k' Hc Hu Hsel Hk') as (gc & Hgc & Hle).
      rewrite Hg in Hgc. injection Hgc as <-. lia. }
    eexists _, _. split; [exact E|]. cbn [Result.path Result.pathLength].
    rewrite length_reverse. split_and!; try done.
    + unfold bfs_path_length. subst ns0.
      rewrite (bfs_layers_shortest _ s e _ k) by (done || lia).
      simpl. f_equal. lia.
    + intros l' Hl'. pose proof Hl' as (Hh & _). apply route_walk in Hl'.
      apply Hmin in Hl'. destruct l'; [done|]. simpl in *. lia.
Qed.

Lemma findPath_shortest_witness :
  ready (newAStar grid3_wall) (0, 0) (2, 2) ∧
  unit_weights (nodes grid3_wall) ∧
  route (nodes grid3_wall) (0, 0) (2, 2) [(0, 0); (0, 1); (0, 2); (1, 2); (2, 2)] ∧
  ∃ r a', findPath (newAStar grid3_wall) = Resolved (Some r) a' ∧
          bfs_path_length (nodes grid3_wall) (0, 0) (2, 2)
          = Some (length (Result.path r)).
Proof.
  assert (ready (newAStar grid3_wall) (0, 0) (2, 2)) as Hr
    by (apply (bool_decide_unpack _); vm_compute; exact I).
  assert (unit_weights (nodes grid3_wall)) as Hu
    by (apply (bool_decide_unpack _); vm_compute; exact I).
  assert (route (nodes grid3_wall) (0, 0) (2, 2)
                [(0, 0); (0, 1); (0, 2); (1, 2); (2, 2)]) as Hl
    by (apply (bool_decide_unpack _); vm_compute; exact I).
  split; [exact Hr|]. split; [exact Hu|]. split; [exact Hl|].
  destruct (findPath_shortest _ _ _ Hr Hu (ex_intro _ _ Hl))
    as (r & a' & E & _ & Hbfs & _).
  exists r, a'. split; [exact E|exact Hbfs].
Defined.
(** ** What a search changes *)

Lemma scrub_updNode fn p ns :
  (∀ n, resetNode (fn n) = resetNode n) →
  (λ rw : list Node, resetNode <$> rw) <$> updNode p fn ns
  = (λ rw : list Node, resetNode <$> rw) <$> ns.
Proof.
  intros Hfn. apply nodes_ext.
  - rewrite !coords_fmap by done. apply coords_updNode. intros n.
    pose proof (Hfn n) as E. split.
    + by apply (f_equal row) in E.
    + by apply (f_equal col) in E.
  - intros q. rewrite !nodeAt_fmap, nodeAt_updNode. case_decide; [|done].
    destruct (nodeAt ns q); simpl; [|done]. by rewrite Hfn.
Qed.

Lemma scrubbed_updNode fn p gr :
  (∀ n, resetNode (fn n) = resetNode n) →
  scrubbed (set_nodes (updNode p fn (nodes gr)) gr) = scrubbed gr.
Proof. intros Hfn. unfold scrubbed. simpl. by rewrite scrub_updNode. Qed.

Lemma scrubbed_idemp gr : scrubbed (scrubbed gr) = scrubbed gr.
Proof.
  unfold scrubbed. destruct gr as [R C ns s e m md]. unfold set_nodes. simpl.
  f_equal. rewrite <- list_fmap_compose.
  apply list_fmap_ext. intros _ rw _. simpl. rewrite <- list_fmap_compose.
  apply list_fmap_ext. intros _ n _. done.
Qed.

Lemma scrubbed_shape gr gr' : shape gr → scrubbed gr' = scrubbed gr → shape gr'.
Proof.
  intros Hs E. unfold shape.
  assert (rows gr' = rows gr) as -> by (by apply (f_equal rows) in E).
  assert (cols gr' = cols gr) as -> by (by apply (f_equal cols) in E).
  rewrite <- Hs. apply (f_equal (λ g, coords (nodes g))) in E.
  unfold scrubbed in E. simpl in E. by rewrite !coords_fmap in E.
Qed.

Lemma resetPathfinding_scrubbed gr :
  shape gr → resetPathfinding gr = Normal tt (scrubbed gr).
Proof. apply resetPathfinding_spec. Qed.

Lemma scrubbed_deref gr gr' p :
  scrubbed gr' = scrubbed gr →
  resetNode (deref (nodes gr') p) = resetNode (deref (nodes gr) p).
Proof.
  intros E. rewrite <- !deref_reset.
  apply (f_equal nodes) in E. unfold scrubbed in E. simpl in E. by rewrite E.
Qed.

Lemma relax_scrubbed c e a nb :
  scrubbed (grid (relax c e a nb)) = scrubbed (grid a).
Proof.
  unfold relax. destruct (_ || _); [done|]. destruct (num_ltb _ _); [|done].
  case_bool_decide; simpl; by apply scrubbed_updNode.
Qed.

Lemma markVisited_scrubbed c a :
  scrubbed (grid (markVisited c a)) = scrubbed (grid a).
Proof.
  unfold markVisited. destruct (_ && _); [|done]. simpl. by apply scrubbed_updNode.
Qed.

(** The loop changes nothing but search fields, and ends a search that
    resolves with [isRunning] off. *)
Lemma findPath_loop_scrubbed fuel e a :
  (∀ a', state_of (findPath_loop fuel e a) = Some a' →
         scrubbed (grid a') = scrubbed (grid a)) ∧
  (∀ r a', findPath_loop fuel e a = Resolved r a' → isRunning a' = false).
Proof.
  revert a. induction fuel as [|fuel IH]; intros a; [done|].
  cbn [findPath_loop]. destruct (_ && _); [|split; intros; by simplify_eq/=].
  destruct (getLowestFNode _ _) as [cur|]; [|split; intros; by simplify_eq/=].
  case_bool_decide.
  { destruct (reconstructPath _ _ _ _); split; intros; by simplify_eq/=. }
  destruct (getNeighbors _ _) as [nbs|].
  2:{ split; [|done]. intros a' [= <-]. by rewrite markVisited_scrubbed. }
  destruct (IH (fold_left (relax cur e) nbs
                  (markVisited cur (set_closedSet (closedSet a ++ [cur])
                     (set_openSet (removeFromArray (openSet a) cur) a)))))
    as [IH1 IH2].
  split; [|done]. intros a' Ha'. rewrite (IH1 a' Ha').
  apply (fold_left_inv (λ x, scrubbed (grid x) = scrubbed (grid a))).
  - by rewrite markVisited_scrubbed.
  - intros x nb _ Hx. by rewrite relax_scrubbed.
Qed.

(** The state in which [findPath] enters its loop. *)
Lemma findPath_enter a s e :
  shape (grid a) → isRunning a = false →
  startNode (grid a) = Some s → endNode (grid a) = Some e →
  findPath a =
  match nodeAt (nodes (scrubbed (grid a))) s, nodeAt (nodes (scrubbed (grid a))) e with
  | Some _, Some ne =>
      let a3 := mkAStar (set_nodes (updNode s (initStart ne) (nodes (scrubbed (grid a))))
                                   (scrubbed (grid a))) [s] [] [] [] true 0 in
      findPath_loop (S (cellCount (nodes (grid a3)))) e a3
  | _, _ => Detached
  end.
Proof.
  intros Hsh Hrun Es Ee. unfold findPath. rewrite Hrun, Es, Ee. unfold reset.
  cbn [grid set_isRunning set_openSet set_closedSet set_path set_visitedNodes
       set_nodesExplored].
  rewrite resetPathfinding_scrubbed by done. cbn [grid set_grid].
  destruct (nodeAt _ s); [|done]. destruct (nodeAt _ e); done.
Qed.

Lemma findPath_scrubbed a a' :
  shape (grid a) → state_of (findPath a) = Some a' →
  scrubbed (grid a') = scrubbed (grid a).
Proof.
  intros Hsh Ha'. destruct (isRunning a) eqn:Hrun.
  { unfold findPath in Ha'. rewrite Hrun in Ha'. by simplify_eq/=. }
  destruct (startNode (grid a)) as [s|] eqn:Es.
  2:{ unfold findPath in Ha'. rewrite Hrun, Es in Ha'. by simplify_eq/=. }
  destruct (endNode (grid a)) as [e|] eqn:Ee.
  2:{ unfold findPath in Ha'. rewrite Hrun, Es, Ee in Ha'. by simplify_eq/=. }
  rewrite (findPath_enter a s e) in Ha' by done.
  destruct (nodeAt _ s); [|done]. destruct (nodeAt _ e) as [ne|]; [|done].
  cbv zeta in Ha'. apply findPath_loop_scrubbed in Ha'. rewrite Ha'.
  cbn [grid]. rewrite scrubbed_updNode by done. apply scrubbed_idemp.
Qed.


(** X1: a search writes search fields only.  Whatever state a call of
    [findPath] leaves, [resetPathfinding] brings its grid to the grid it
    brings the original to; the dimensions, the start and goal references
    and the mouse state are the original ones, and every cell keeps its
    position, its three flags, its weight and its obstacle image. *)
Theorem findPath_keeps_layout a a' :
  shape (grid a) → state_of (findPath a) = Some a' →
  resetPathfinding (grid a') = resetPathfinding (grid a) ∧
  set_nodes [] (grid a') = set_nodes [] (grid a) ∧
  ∀ p, (is_Some (nodeAt (nodes (grid a')) p) ↔ is_Some (nodeAt (nodes (grid a)) p)) ∧
       static (deref (nodes (grid a')) p) = static (deref (nodes (grid a)) p) ∧
       wallType (deref (nodes (grid a')) p) = wallType (deref (nodes (grid a)) p).
Proof.
  intros Hsh Ha'. pose proof (findPath_scrubbed a a' Hsh Ha') as E.
  pose proof (scrubbed_shape _ _ Hsh E) as Hsh'. split_and!.
  - rewrite !resetPathfinding_scrubbed by done. by rewrite E.
  - apply (f_equal (set_nodes [])) in E. exact E.
  - intros p. pose proof (scrubbed_deref _ _ p E) as Ep. split_and!.
    + apply coords_is_Some. apply (f_equal (λ g, coords (nodes g))) in E.
      unfold scrubbed in E. simpl in E. by rewrite !coords_fmap in E.
    + by apply (f_equal static) in Ep.
    + by apply (f_equal wallType) in Ep.
Qed.

Lemma findPath_keeps_layout_witness :
  shape grid3_wall ∧
  ∃ r a', findPath (newAStar grid3_wall) = Resolved r a' ∧
          resetPathfinding (grid a') = resetPathfinding grid3_wall ∧
          isWall (deref (nodes (grid a')) (1, 1)) = true.
Proof.
  assert (shape grid3_wall) as Hs by (vm_compute; reflexivity).
  assert (∃ r a', findPath (newAStar grid3_wall) = Resolved r a')
    as (r & a' & E) by (vm_compute; eauto).
  split; [exact Hs|]. exists r, a'. split; [exact E|].
  destruct (findPath_keeps_layout (newAStar grid3_wall) a' Hs) as (H1 & _ & H3).
  { rewrite E. reflexivity. }
  split; [exact H1|]. destruct (H3 (1, 1)) as (_ & H4 & _).
  apply (f_equal (λ x, x.1.1.1.2)) in H4. exact H4.
Defined.


(** ** The statistics of a search *)

Lemma unflagged_scrubbed gr gr' p :
  scrubbed gr' = scrubbed gr → unflagged (nodes gr') p = unflagged (nodes gr) p.
Proof.
  intros E. pose proof (scrubbed_deref _ _ p E) as Ep. unfold unflagged.
  assert (isStart (deref (nodes gr') p) = isStart (deref (nodes gr) p)) as ->
    by by apply (f_equal isStart) in Ep.
  assert (isEnd (deref (nodes gr') p) = isEnd (deref (nodes gr) p)) as ->
    by by apply (f_equal isEnd) in Ep.
  done.
Qed.

Lemma relax_stats c e a nb :
  visitedNodes (relax c e a nb) = visitedNodes a ∧
  closedSet (relax c e a nb) = closedSet a ∧
  nodesExplored (relax c e a nb) = nodesExplored a.
Proof.
  unfold relax. destruct (_ || _); [done|]. destruct (num_ltb _ _); [|done].
  by case_bool_decide.
Qed.

Lemma markVisited_stats c a :
  closedSet (markVisited c a) = closedSet a ∧
  visitedNodes (markVisited c a)
  = visitedNodes a ++ filter (λ p, unflagged (nodes (grid a)) p = true) [c] ∧
  nodesExplored (markVisited c a)
  = nodesExplored a
    + Z.of_nat (length (filter (λ p, unflagged (nodes (grid a)) p = true) [c])).
Proof.
  unfold markVisited. fold (unflagged (nodes (grid a)) c).
  rewrite filter_cons, filter_nil.
  destruct (unflagged (nodes (grid a)) c) eqn:E.
  - rewrite decide_True by done. done.
  - rewrite decide_False by done. simpl. rewrite app_nil_r. split_and!; [done|done|lia].
Qed.

(** The list of visited nodes is the closed set without the nodes that
    carry a start or goal flag, and [nodesExplored] is its length. *)
Lemma findPath_loop_stats fuel e a r a' :
  visitedNodes a = filter (λ p, unflagged (nodes (grid a)) p = true) (closedSet a) →
  nodesExplored a = Z.of_nat (length (visitedNodes a)) →
  findPath_loop fuel e a = Resolved r a' →
  visitedNodes a' = filter (λ p, unflagged (nodes (grid a')) p = true) (closedSet a') ∧
  nodesExplored a' = Z.of_nat (length (visitedNodes a')) ∧
  ∀ r0, r = Some r0 →
        Result.visitedNodes r0 = visitedNodes a' ∧
        Result.nodesExplored r0 = nodesExplored a' ∧
        Result.path r0 = path a' ∧
        Result.pathLength r0 = Z.of_nat (length (path a')).
Proof.
  revert a. induction fuel as [|fuel IH]; intros a Hv Hn E; [done|].
  cbn [findPath_loop] in E. destruct (_ && _).
  2:{ injection E as <- <-. done. }
  destruct (getLowestFNode _ _) as [cur|]; [|done].
  case_bool_decide.
  { destruct (reconstructPath _ _ _ _) as [l|]; [|done].
    injection E as <- <-. split_and!; try done. by intros r0 [= <-]. }
  destruct (getNeighbors _ _) as [nbs|]; [|done].
  set (a1 := set_closedSet (closedSet a ++ [cur])
               (set_openSet (removeFromArray (openSet a) cur) a)) in *.
  destruct (markVisited_stats cur a1) as (Ec & Evis & Ecount).
  pose proof (markVisited_scrubbed cur a1) as Escr.
  assert (let x := fold_left (relax cur e) nbs (markVisited cur a1) in
          scrubbed (grid x) = scrubbed (grid a) ∧
          visitedNodes x = visitedNodes (markVisited cur a1) ∧
          closedSet x = closedSet (markVisited cur a1) ∧
          nodesExplored x = nodesExplored (markVisited cur a1))
    as (Fs & Fv & Fc & Fn).
  { apply (fold_left_inv (λ x,
      scrubbed (grid x) = scrubbed (grid a) ∧
      visitedNodes x = visitedNodes (markVisited cur a1) ∧
      closedSet x = closedSet (markVisited cur a1) ∧
      nodesExplored x = nodesExplored (markVisited cur a1))); [done|].
    intros x nb _ (H1 & H2 & H3 & H4).
    destruct (relax_stats cur e x nb) as (-> & -> & ->).
    by rewrite relax_scrubbed. }
  apply IH in E; [done| |].
  - rewrite Fv, Fc, Evis, Ec. cbn [closedSet set_closedSet a1 visitedNodes
      set_openSet grid].
    rewrite list.filter_app, Hv. f_equal.
    + apply list_filter_iff. intros p. by rewrite (unflagged_scrubbed _ _ p Fs).
    + apply list_filter_iff. intros p. by rewrite (unflagged_scrubbed _ _ p Fs).
  - rewrite Fn, Fv, Ecount, Evis. cbn [nodesExplored a1 set_closedSet set_openSet
      visitedNodes grid].
    rewrite Hn, length_app. lia.
Qed.

Lemma findPath_stats a r a' :
  shape (grid a) → isRunning a = false → findPath a = Resolved r a' →
  is_Some (startNode (grid a)) → is_Some (endNode (grid a)) →
  visitedNodes a' = filter (λ p, unflagged (nodes (grid a)) p = true) (closedSet a') ∧
  nodesExplored a' = Z.of_nat (length (visitedNodes a')) ∧
  ∀ r0, r = Some r0 →
        Result.visitedNodes r0 = visitedNodes a' ∧
        Result.nodesExplored r0 = nodesExplored a' ∧
        Result.path r0 = path a' ∧
        Result.pathLength r0 = Z.of_nat (length (path a')).
Proof.
  intros Hsh Hrun E [s Es] [e Ee].
  assert (scrubbed (grid a') = scrubbed (grid a)) as Escr
    by (apply findPath_scrubbed; [done|by rewrite E]).
  rewrite (findPath_enter a s e) in E by done.
  destruct (nodeAt _ s); [|done]. destruct (nodeAt _ e) as [ne|]; [|done].
  cbv zeta in E. apply findPath_loop_stats in E; [|done|done].
  destruct E as (Hv & Hn & Hr). split_and!; [|done|done].
  rewrite Hv. apply list_filter_iff. intros p.
  by rewrite (unflagged_scrubbed _ _ p Escr).
Qed.

(** The chain of parents of a node consists of that node and closed
    nodes. *)
Lemma back_tail_closed ns0 s e a p l :
  astar_core ns0 s e a → back (nodes (grid a)) p l →
  (∀ x, x ∈ l → x ∈ openSet a ∨ x ∈ closedSet a) →
  ∀ x, x ∈ l → x = p ∨ x ∈ closedSet a.
Proof.
  intros Hcore Hb. pose proof Hcore as
    (_ & _ & _ & _ & _ & _ & _ & _ & _ & Hps & Hpar).
  induction Hb as [p Hp|p q l Hp Hb IH]; intros Hin x Hx.
  - apply list_elem_of_singleton in Hx. by left.
  - apply elem_of_cons in Hx as [->|Hx]; [by left|]. right.
    assert (q ∈ closedSet a) as Hq.
    { destruct (Hpar p) as (q' & i & Hq' & Hi & _).
      - apply Hin. by left.
      - intros ->. congruence.
      - assert (q' = q) as -> by congruence. by eapply list_elem_of_lookup_2. }
    destruct (IH (λ y Hy, Hin y (list_elem_of_further _ _ _ Hy)) x Hx) as [->|?]; done.
Qed.
Lemma grid_inv_unflagged gr s e p :
  grid_inv gr → startNode gr = Some s → endNode gr = Some e →
  is_Some (nodeAt (nodes gr) p) →
  unflagged (nodes gr) p = true ↔ p ≠ s ∧ p ≠ e.
Proof.
  intros [Hsh Hinv] Es Ee [n Hn]. rewrite Es, Ee in Hinv.
  destruct Hinv as (_ & _ & _ & Hcells).
  destruct (proj1 (Forall2_nodeAt _ _) Hcells p n Hn) as (H1 & H2 & _).
  destruct (shape_nodeAt _ _ _ Hsh Hn) as [Hpos _]. rewrite Hpos in H1, H2.
  unfold unflagged. rewrite (deref_nodeAt _ _ _ Hn), H1, H2.
  rewrite andb_true_iff, !negb_true_iff, !bool_decide_eq_false. done.
Qed.

(** The state a search ends in, with the path it returns. *)
Lemma findPath_final a s e r a' :
  ready a s e → findPath a = Resolved r a' →
  ∃ af, astar_core (nodes (grid a)) s e af ∧
        closedSet a' = closedSet af ∧ visitedNodes a' = visitedNodes af ∧
        match r with
        | None => openSet af = [] ∧ path a' = []
        | Some r0 =>
            route (nodes (grid a)) s e (Result.path r0) ∧
            NoDup (Result.path r0) ∧
            ∀ x, x ∈ Result.path r0 → x = e ∨ x ∈ closedSet af
        end.
Proof.
  intros Hready E.
  destruct (findPath_outcome (astar_core (nodes (grid a)) s e) a s e Hready)
    as (af & Hc & [[Ho E']|(l & _ & Hb & Hin & _ & Hroute & Hnd & E')]).
  - done.
  - intros a1 cur Hc Hsel Hne.
    by apply expand_core; [|apply selected_in_open|].
  - done.
  - rewrite E' in E. injection E as <- <-. exists af. split_and!; try done.
    by destruct Hc as (_ & _ & Hp & _).
  - rewrite E' in E. injection E as <- <-. exists af. split_and!; try done.
    intros x Hx. cbn [Result.path] in Hx. rewrite elem_of_reverse in Hx.
    by apply (back_tail_closed (nodes (grid a)) s e af e l).
Qed.

(** X3: the statistics of a search.  When [findPath] resolves on a grid
    with its invariant, the visited nodes are distinct cells that are no
    obstacles, neither the start nor the goal is among them, there are at
    most [rows * cols - 2] of them and [nodesExplored] is their number; a
    result object carries these two values, and every cell of its path
    other than the start and the goal is a visited node. *)
Theorem findPath_statistics a s e r a' :
  grid_inv (grid a) → isRunning a = false →
  startNode (grid a) = Some s → endNode (grid a) = Some e →
  findPath a = Resolved r a' →
  NoDup (visitedNodes a') ∧
  nodesExplored a' = Z.of_nat (length (visitedNodes a')) ∧
  (s ∉ visitedNodes a') ∧ (e ∉ visitedNodes a') ∧
  (∀ p, p ∈ visitedNodes a' → passable (nodes (grid a)) p = true) ∧
  (length (visitedNodes a') + 2 ≤ cellCount (nodes (grid a)))%nat ∧
  ∀ r0, r = Some r0 →
        Result.visitedNodes r0 = visitedNodes a' ∧
        Result.nodesExplored r0 = nodesExplored a' ∧
        ∀ p, p ∈ Result.path r0 → p = s ∨ p = e ∨ p ∈ visitedNodes a'.
Proof.
  intros Hinv Hrun Es Ee E. pose proof Hinv as [Hsh Hinv'].
  pose proof (grid_inv_ready a s e Hinv Hrun Es Ee) as Hready.
  destruct (findPath_stats a r a' Hsh Hrun E) as (Hv & Hn & Hr); [by eexists..|].
  destruct (findPath_final a s e r a' Hready E) as (af & Hc & Ecl & _ & Hres).
  pose proof Hc as (_ & _ & _ & _ & Hnc & _ & Hec & Hin & _ & _ & Hpar).
  rewrite Es, Ee in Hinv'. destruct Hinv' as (Hse & Hs & He & _).
  assert (∀ p, p ∈ visitedNodes a' ↔ p ∈ closedSet af ∧ p ≠ s ∧ p ≠ e) as Hmem.
  { intros p. rewrite Hv, Ecl, list_elem_of_filter. split.
    - intros [Hu Hp]. split; [done|].
      apply (grid_inv_unflagged (grid a) s e p); try done. apply Hin. by right.
    - intros (Hp & Hps). split; [|done].
      apply (grid_inv_unflagged (grid a) s e p); try done. apply Hin. by right. }
  assert (NoDup (visitedNodes a')) as Hnd.
  { rewrite Hv, Ecl. by apply NoDup_filter. }
  split_and!; try done.
  - rewrite Hmem. tauto.
  - rewrite Hmem. tauto.
  - intros p Hp. apply Hmem in Hp as (Hp & Hps & _).
    destruct (Hpar p (or_intror Hp) Hps) as (_ & _ & _ & _ & _ & Hfree & _). done.
  - assert (length (s :: e :: visitedNodes a') ≤ cellCount (nodes (grid a)))%nat
      as Hb; [|simpl in Hb; lia].
    apply (cells_bound _ _ _ Hsh).
    + apply NoDup_cons. split.
      * rewrite elem_of_cons, Hmem. intros [?|?]; [done|tauto].
      * apply NoDup_cons. split; [rewrite Hmem; tauto|done].
    + intros p. rewrite !elem_of_cons, Hmem. intros [->|[->|[Hp _]]]; [done|done|].
      apply Hin. by right.
  - intros r0 ->. destruct (Hr r0 eq_refl) as (H1 & H2 & _).
    split_and!; [done|done|]. destruct Hres as (_ & _ & Hpath).
    intros p Hp. destruct (Hpath p Hp) as [->|Hcl]; [by right; left|].
    destruct (decide (p = s)) as [->|Hps]; [by left|].
    destruct (decide (p = e)) as [->|Hpe]; [by right; left|].
    right. right. by apply Hmem.
Qed.

Lemma findPath_statistics_witness :
  grid_inv grid3_wall ∧
  ∃ r a', findPath (newAStar grid3_wall) = Resolved (Some r) a' ∧
          NoDup (Result.visitedNodes r) ∧
          Result.nodesExplored r = Z.of_nat (length (Result.visitedNodes r)).
Proof.
  assert (grid_inv grid3_wall) as Hi
    by (apply (bool_decide_unpack _); vm_compute; exact I).
  assert (∃ r a', findPath (newAStar grid3_wall) = Resolved (Some r) a')
    as (r & a' & E) by (vm_compute; eauto).
  split; [exact Hi|]. exists r, a'. split; [exact E|].
  destruct (findPath_statistics (newAStar grid3_wall) (0, 0) (2, 2) (Some r) a'
              Hi eq_refl eq_refl eq_refl E) as (H1 & H2 & _ & _ & _ & _ & H3).
  destruct (H3 r eq_refl) as (E1 & E2 & _).
  rewrite E1, E2. split; [exact H1|exact H2].
Defined.
(** ** Distances *)

Lemma mdist_step t p q : adjacent p q → mdist t q ≤ mdist t p + 1.
Proof. unfold adjacent, mdist. lia. Qed.

(** A walk is at least as long as the Manhattan distance of its ends. *)
Lemma walk_mdist free s k t : walk free s k t → mdist s t ≤ Z.of_nat k.
Proof.
  induction 1 as [|k p q Hw IH Hadj Hfree].
  - unfold mdist. lia.
  - pose proof (mdist_step s p q Hadj). lia.
Qed.

Lemma elem_of_between a b x : x ∈ between a b ↔ Z.min a b ≤ x ≤ Z.max a b.
Proof. unfold between. rewrite elem_of_seqZ. lia. Qed.

Lemma walk_row free r c1 c2 :
  (∀ c, c ∈ between c1 c2 → free (r, c) = true) →
  walk free (r, c1) (Z.to_nat (Z.abs (c2 - c1))) (r, c2).
Proof.
  assert (∀ n c2, Z.abs (c2 - c1) = Z.of_nat n →
            (∀ c, c ∈ between c1 c2 → free (r, c) = true) →
            walk free (r, c1) n (r, c2)) as H.
  { induction n as [|n IH]; intros c Hn Hfree.
    - assert (c = c1) as -> by lia. constructor.
    - set (c' := if decide (c1 ≤ c) then c - 1 else c + 1).
      assert (Z.abs (c' - c1) = Z.of_nat n) as Hn'
        by (unfold c'; case_decide; lia).
      apply (walk_step free (r, c1) n (r, c') (r, c)).
      + apply IH; [done|]. intros x Hx. apply Hfree.
        rewrite elem_of_between in *. unfold c' in *. case_decide; lia.
      + unfold adjacent, c'. simpl. case_decide; lia.
      + apply Hfree. rewrite elem_of_between. lia. }
  intros Hfree. apply H; [lia|done].
Qed.

Lemma walk_col free c r1 r2 :
  (∀ r, r ∈ between r1 r2 → free (r, c) = true) →
  walk free (r1, c) (Z.to_nat (Z.abs (r2 - r1))) (r2, c).
Proof.
  assert (∀ n r2, Z.abs (r2 - r1) = Z.of_nat n →
            (∀ r, r ∈ between r1 r2 → free (r, c) = true) →
            walk free (r1, c) n (r2, c)) as H.
  { induction n as [|n IH]; intros r Hn Hfree.
    - assert (r = r1) as -> by lia. constructor.
    - set (r' := if decide (r1 ≤ r) then r - 1 else r + 1).
      assert (Z.abs (r' - r1) = Z.of_nat n) as Hn'
        by (unfold r'; case_decide; lia).
      apply (walk_step free (r1, c) n (r', c) (r, c)).
      + apply IH; [done|]. intros x Hx. apply Hfree.
        rewrite elem_of_between in *. unfold r' in *. case_decide; lia.
      + unfold adjacent, r'. simpl. case_decide; lia.
      + apply Hfree. rewrite elem_of_between. lia. }
  intros Hfree. apply H; [lia|done].
Qed.

(** A free corridor is a walk of the Manhattan distance. *)
Lemma corridor_walk free s e :
  (∀ q, q ∈ corridor s e → free q = true) →
  walk free s (Z.to_nat (mdist s e)) e.
Proof.
  intros Hfree. destruct s as [sr sc], e as [er ec].
  unfold corridor in Hfree. simpl in Hfree.
  replace (Z.to_nat (mdist (sr, sc) (er, ec)))
    with (Z.to_nat (Z.abs (ec - sc)) + Z.to_nat (Z.abs (er - sr)))%nat
    by (unfold mdist; simpl; lia).
  apply (walk_app free (sr, sc) _ (sr, ec)).
  - apply walk_row. intros c Hc. apply Hfree, elem_of_app. left.
    by apply (list_elem_of_fmap_2 (λ c, (sr, c))).
  - apply walk_col. intros r Hr. apply Hfree, elem_of_app. right.
    by apply (list_elem_of_fmap_2 (λ r, (r, ec))).
Qed.

Lemma walk_route ns s k e :
  passable ns s = true → walk (passable ns) s k e →
  ∃ l, route ns s e l ∧ length l = S k.
Proof.
  intros Hs. induction 1 as [|k p q Hw IH Hadj Hfree].
  - exists [s]. split; [|done]. split_and!; try done. by apply Forall_singleton.
  - destruct IH as (l & (Hh & Hl & Hlink & Hall) & Hlen).
    exists (l ++ [q]). split; [|rewrite length_app; simpl; lia].
    split_and!.
    + destruct l; [done|]. done.
    + by rewrite last_snoc.
    + by apply (linked_snoc l p q).
    + apply Forall_app. split; [done|]. by apply Forall_singleton.
Qed.

(** With unit weights the search returns a path no longer than any walk
    from the start to the goal. *)
Lemma findPath_minimal a s e k :
  ready a s e → unit_weights (nodes (grid a)) →
  walk (passable (nodes (grid a))) s k e →
  ∃ r a', findPath a = Resolved (Some r) a' ∧
    route (nodes (grid a)) s e (Result.path r) ∧
    (length (Result.path r) ≤ S k)%nat.
Proof.
  intros Hready Hunit Hwalk.
  pose proof Hready as (Hsh & _).
  assert (∀ p, weight (deref (nodes (grid a)) p) = 1) as Hw
    by (intros p; by apply unit_weights_deref).
  destruct (findPath_outcome
              (λ a', astar_core (nodes (grid a)) s e a' ∧
                     astar_unit (nodes (grid a)) s e (λ _ _, True) a')
              a s e Hready)
    as (af & [Hc Hu] & [[Ho _]|(l & Hsel & Hb & Hin & Hlen & Hroute & _ & E)]).
  - by intros a1 [? _].
  - intros a1 cur [Hc Hu] Hsel Hne. split.
    + by apply expand_core; [|apply selected_in_open|].
    + by apply (expand_unit _ (rows (grid a)) (cols (grid a))).
  - done.
  - exfalso.
    destruct (frontier _ s e af _ e Hc Hu Hwalk) as [He|(m & _ & Hm & _)].
    + by destruct Hc as (_ & _ & _ & _ & _ & _ & Hec & _).
    + rewrite Ho in Hm. by apply elem_of_nil in Hm.
  - pose proof (back_cost _ s e af e l Hc Hu Hb Hin) as Hg.
    destruct (selected_optimal _ s e af e k Hc Hu Hsel Hwalk) as (gc & Hgc & Hle).
    rewrite Hg in Hgc. injection Hgc as <-.
    eexists _, _. split; [exact E|]. cbn [Result.path]. split; [done|].
    rewrite length_reverse. lia.
Qed.
(** X4: the heuristic.  On a grid of the declared shape
    [calculateHeuristic] returns, and stores in [h], the Manhattan distance
    between the two cells; it is zero only for the goal itself, changes by
    at most one between orthogonal neighbours, and never exceeds the number
    of steps of a walk to the goal, whatever cells the walk may use. *)
Theorem calculateHeuristic_admissible gr p e :
  shape gr →
  let hp := calculateHeuristic (deref (nodes gr) p) (deref (nodes gr) e) in
  hp.1 = mdist p e ∧ h hp.2 = hp.1 ∧
  hp.2 = set_h hp.1 (deref (nodes gr) p) ∧
  (hp.1 = 0 ↔ p = e) ∧
  (∀ q, adjacent p q →
        (calculateHeuristic (deref (nodes gr) q) (deref (nodes gr) e)).1 ≤ hp.1 + 1) ∧
  (∀ free k, walk free p k e → hp.1 ≤ Z.of_nat k).
Proof.
  intros Hsh.
  assert (∀ x, (calculateHeuristic (deref (nodes gr) x) (deref (nodes gr) e)).1
               = mdist x e) as Hm.
  { intros x. unfold calculateHeuristic, manhattan, mdist. cbn [fst].
    pose proof (rect_deref_pos _ _ _ Hsh x) as Ex.
    pose proof (rect_deref_pos _ _ _ Hsh e) as Ee.
    destruct x, e. simpl. injection Ex as -> ->. by injection Ee as -> ->. }
  cbv zeta. split_and!.
  - apply Hm.
  - done.
  - done.
  - rewrite Hm. unfold mdist. destruct p, e. simpl. split; [|intros [= -> ->]; lia].
    intros H. f_equal; lia.
  - intros q Hadj. rewrite !Hm. unfold adjacent, mdist in *. lia.
  - intros free k Hw. rewrite Hm. by apply (walk_mdist free).
Qed.

Lemma calculateHeuristic_admissible_witness :
  shape grid3 ∧
  (calculateHeuristic (deref (nodes grid3) (0, 0)) (deref (nodes grid3) (2, 2))).1 = 4.
Proof.
  assert (shape grid3) as Hs by (vm_compute; reflexivity).
  split; [exact Hs|].
  destruct (calculateHeuristic_admissible grid3 (0, 0) (2, 2) Hs) as (H & _).
  exact H.
Defined.

(** X5: the length of the path.  A path returned by [findPath] has at
    least as many cells as the Manhattan distance from the start to the
    goal plus one; when every weight is 1 and no cell of the row of the
    start between the two columns, nor of the column of the goal between
    the two rows, is an obstacle, [findPath] returns a path of exactly that
    many cells. *)
Theorem findPath_manhattan a s e :
  ready a s e →
  (∀ r a', findPath a = Resolved (Some r) a' →
           mdist s e + 1 ≤ Z.of_nat (length (Result.path r))) ∧
  (unit_weights (nodes (grid a)) →
   (∀ q, q ∈ corridor s e → passable (nodes (grid a)) q = true) →
   ∃ r a', findPath a = Resolved (Some r) a' ∧
           Z.of_nat (length (Result.path r)) = mdist s e + 1).
Proof.
  intros Hready.
  assert (∀ r a', findPath a = Resolved (Some r) a' →
            mdist s e + 1 ≤ Z.of_nat (length (Result.path r))) as Hlow.
  { intros r a' E.
    destruct (findPath_final a s e (Some r) a' Hready E) as (_ & _ & _ & _ & Hr & _).
    pose proof Hr as (Hh & _). apply route_walk, walk_mdist in Hr.
    destruct (Result.path r); [done|]. simpl in *. lia. }
  split; [done|]. intros Hunit Hfree.
  destruct (findPath_minimal a s e _ Hready Hunit (corridor_walk _ s e Hfree))
    as (r & a' & E & _ & Hle).
  exists r, a'. split; [done|]. specialize (Hlow r a' E).
  assert (0 ≤ mdist s e) by (unfold mdist; lia). lia.
Qed.

Lemma findPath_manhattan_witness :
  ready (newAStar grid3) (0, 0) (2, 2) ∧ unit_weights (nodes grid3) ∧
  ∃ r a', findPath (newAStar grid3) = Resolved (Some r) a' ∧
          Z.of_nat (length (Result.path r)) = 5.
Proof.
  assert (ready (newAStar grid3) (0, 0) (2, 2)) as Hr
    by (apply (bool_decide_unpack _); vm_compute; exact I).
  assert (unit_weights (nodes grid3)) as Hu
    by (apply (bool_decide_unpack _); vm_compute; exact I).
  assert (Forall (λ q, passable (nodes grid3) q = true) (corridor (0, 0) (2, 2)))
    as Hc by (apply (bool_decide_unpack _); vm_compute; exact I).
  split; [exact Hr|]. split; [exact Hu|].
  destruct (findPath_manhattan (newAStar grid3) (0, 0) (2, 2) Hr) as [_ H].
  exact (H Hu (proj1 (Forall_forall _ _) Hc)).
Defined.
(** ** The utilities of the search *)

Lemma removeFromArray_absent (l : list Ref) x : x ∉ l → removeFromArray l x = l.
Proof.
  induction l as [|y l IH]; intros Hx; [done|].
  apply not_elem_of_cons in Hx as [Hxy Hx]. simpl.
  rewrite bool_decide_eq_false_2 by done. by rewrite IH.
Qed.

Lemma removeFromArray_split (l1 l2 : list Ref) x :
  x ∉ l1 → removeFromArray (l1 ++ x :: l2) x = l1 ++ l2.
Proof.
  induction l1 as [|y l1 IH]; intros Hx; simpl.
  - by rewrite bool_decide_eq_true_2.
  - apply not_elem_of_cons in Hx as [Hxy Hx].
    rewrite bool_decide_eq_false_2 by done. by rewrite IH.
Qed.

(** X6: [removeFromArray] takes out the first occurrence of the element
    and nothing else: an array that does not hold the element is left as it
    is, and otherwise the elements before and after its first occurrence
    stay, in their order, so the array gets shorter by one. *)
Theorem removeFromArray_first (l : list Ref) x :
  (x ∉ l → removeFromArray l x = l) ∧
  (∀ l1 l2, l = l1 ++ x :: l2 → x ∉ l1 → removeFromArray l x = l1 ++ l2) ∧
  (x ∈ l → S (length (removeFromArray l x)) = length l).
Proof.
  split_and!.
  - apply removeFromArray_absent.
  - intros l1 l2 -> Hx. by apply removeFromArray_split.
  - intros Hx. apply list_elem_of_split_l in Hx as (l1 & l2 & -> & Hx).
    rewrite removeFromArray_split by done. rewrite !length_app. simpl. lia.
Qed.

Lemma removeFromArray_first_witness :
  removeFromArray [(0, 0); (0, 1); (0, 0)] (0, 0) = [(0, 1); (0, 0)] ∧
  removeFromArray [(0, 1)] (0, 0) = [(0, 1)].
Proof.
  destruct (removeFromArray_first [(0, 0); (0, 1); (0, 0)] (0, 0)) as (_ & H & _).
  destruct (removeFromArray_first [(0, 1)] (0, 0)) as (H' & _).
  split.
  - apply (H [] [(0, 1); (0, 0)]); [reflexivity|]. apply not_elem_of_nil.
  - apply H'. apply (bool_decide_unpack _). vm_compute. exact I.
Defined.

Lemma reconstructPath_Some fuel ns p acc l :
  reconstructPath fuel ns (Some p) acc = Some l →
  ∃ bl, back ns p bl ∧ l = reverse bl ++ acc ∧ (length bl ≤ fuel)%nat.
Proof.
  revert p acc. induction fuel as [|fuel IH]; intros p acc E; [done|].
  simpl in E. destruct (parent (deref ns p)) as [q|] eqn:Hp.
  - apply IH in E as (bl & Hb & -> & Hlen). exists (p :: bl). split_and!.
    + by eapply back_step.
    + by rewrite reverse_cons, <- app_assoc.
    + simpl. lia.
  - exists [p]. split_and!; [by constructor| |simpl; lia].
    destruct fuel; by injection E as <-.
Qed.

(** X7: [reconstructPath] follows the [parent] links.  It returns a list
    exactly when the chain of parents of the node ends at a node without
    parent; the list is that chain from its far end to the node itself.  On
    a chain that runs into a cycle the loop never ends. *)
Theorem reconstructPath_chain ns p :
  (∀ fuel l, reconstructPath fuel ns (Some p) [] = Some l ↔
             back ns p (reverse l) ∧ (length l ≤ fuel)%nat) ∧
  (∀ fuel l, reconstructPath fuel ns (Some p) [] = Some l → last l = Some p) ∧
  ((∀ fuel, reconstructPath fuel ns (Some p) [] = None) ↔ ¬ ∃ bl, back ns p bl).
Proof.
  assert (∀ fuel l, reconstructPath fuel ns (Some p) [] = Some l →
            back ns p (reverse l) ∧ (length l ≤ fuel)%nat) as H.
  { intros fuel l E. apply reconstructPath_Some in E as (bl & Hb & -> & Hlen).
    rewrite app_nil_r, reverse_involutive, length_reverse. done. }
  split_and!.
  - intros fuel l. split; [apply H|]. intros [Hb Hlen].
    rewrite (reconstructPath_back ns p _ Hb) by (by rewrite length_reverse).
    by rewrite reverse_involutive, app_nil_r.
  - intros fuel l E. apply H in E as [Hb _]. apply back_head in Hb.
    by rewrite head_reverse in Hb.
  - split.
    + intros Hnone [bl Hb].
      specialize (Hnone (length bl)).
      by rewrite (reconstructPath_back ns p bl Hb) in Hnone.
    + intros Hno fuel.
      destruct (reconstructPath fuel ns (Some p) []) as [l|] eqn:E; [|done].
      destruct Hno. exists (reverse l). by apply (H fuel).
Qed.

Lemma nbrs_NoDup p : NoDup (nbrs p).
Proof.
  unfold nbrs. apply NoDup_fmap_2.
  - intros [a b] [c d] [= H1 H2]. f_equal; lia.
  - apply (bool_decide_unpack _). by vm_compute.
Qed.

(** X8: the neighbours of a cell.  On a grid of the declared shape
    [getNeighbors] of the node of a cell returns, without an exception and
    in the order up, right, down, left, the orthogonally adjacent cells of
    the grid that are no obstacles: at most four, each once, never a
    diagonal one and never a cell outside the grid. *)
Theorem getNeighbors_cells gr p n :
  shape gr → nodeAt (nodes gr) p = Some n →
  ∃ l, getNeighbors n (nodes gr) = Some l ∧
       sublist l (nbrs p) ∧ NoDup l ∧ (length l ≤ 4)%nat ∧
       ∀ q, q ∈ l ↔ adjacent p q ∧ inb (rows gr) (cols gr) q ∧
                    ∃ m, nodeAt (nodes gr) q = Some m ∧ isWall m = false.
Proof.
  intros Hsh Hn. rewrite <- (deref_nodeAt _ _ _ Hn).
  rewrite (getNeighbors_spec _ _ _ Hsh p). eexists. split; [done|].
  split_and!.
  - apply sublist_filter.
  - apply NoDup_filter, nbrs_NoDup.
  - etrans; [apply length_filter|]. done.
  - intros q. rewrite list_elem_of_filter, elem_of_nbrs. unfold passable.
    split.
    + intros [Hq Hadj]. split; [done|].
      destruct (nodeAt (nodes gr) q) as [m|] eqn:Hm; [|done].
      destruct (shape_nodeAt _ _ _ Hsh Hm) as [_ Hb]. split; [done|].
      exists m. split; [done|]. by destruct (isWall m).
    + intros (Hadj & _ & m & -> & ->). done.
Qed.

Lemma getNeighbors_cells_witness :
  shape grid3_wall ∧
  getNeighbors (newNode 0 1) (nodes grid3_wall) = Some [(0, 2); (0, 0)].
Proof.
  assert (shape grid3_wall) as Hs by (vm_compute; reflexivity).
  split; [exact Hs|].
  destruct (getNeighbors_cells grid3_wall (0, 1) (newNode 0 1) Hs eq_refl)
    as (l & E & _).
  rewrite E. vm_compute in E. injection E as <-. reflexivity.
Defined.
(** ** The mouse handlers *)

(** How [handleMouseEnter] ends on a cell of the grid while the button is
    down. *)
Lemma handleMouseEnter_spec gr r c u n :
  shape gr → nodeAt (nodes gr) (r, c) = Some n →
  handleMouseEnter r c u gr =
  Normal tt
    (if negb (mouseIsPressed gr) then gr else
     match currentMode gr with
     | ModeStart => if negb (isEnd n) && negb (isWall n)
                    then placeStart (r, c) gr else gr
     | ModeEnd => if negb (isStart n) && negb (isWall n)
                  then placeEnd (r, c) gr else gr
     | ModeWall => if negb (isStart n) && negb (isEnd n) && negb (isWall n)
                   then set_nodes (updNode (r, c) (dragWall u) (nodes gr)) gr
                   else gr
     | ModeWeight => gr
     end).
Proof.
  intros Hs Hn. destruct (shape_nodeAt _ _ _ Hs Hn) as [_ Hb].
  unfold handleMouseEnter, mbind, M_bind, gets.
  destruct (mouseIsPressed gr); [|done]. simpl.
  rewrite getNode_spec, Hn by done. simpl.
  destruct (currentMode gr); try done.
  - by destruct (_ && _).
  - destruct (_ && _); [|done].
    exact (setStartNode_inb gr (r, c) Hs Hb).
  - destruct (_ && _); [|done].
    exact (setEndNode_inb gr (r, c) Hs Hb).
Qed.

Lemma handleMouseEnter_outside gr r c u :
  shape gr → nodeAt (nodes gr) (r, c) = None →
  handleMouseEnter r c u gr = Normal tt gr.
Proof.
  intros Hs Hn. unfold handleMouseEnter, mbind, M_bind, gets.
  destruct (mouseIsPressed gr); [|done]. simpl.
  by rewrite getNode_spec, Hn by done.
Qed.

Lemma handleMouseEnter_inv gr r c u :
  grid_inv gr →
  ∃ gr', handleMouseEnter r c u gr = Normal tt gr' ∧ grid_inv gr' ∧
         rows gr' = rows gr ∧ cols gr' = cols gr.
Proof.
  intros Hinv. pose proof Hinv as Hinv'. apply grid_inv_flags in Hinv'.
  destruct Hinv' as (Hs & s & e & fw & Es & Ee & Hne & Hss & Hse & Hf & Hw).
  destruct (nodeAt (nodes gr) (r, c)) as [n|] eqn:Hn.
  2:{ exists gr. split; [by apply handleMouseEnter_outside|done]. }
  eexists. split; [by apply handleMouseEnter_spec|].
  destruct (shape_nodeAt _ _ _ Hs Hn) as [_ Hb].
  destruct (Hf _ _ Hn) as (H1 & H2 & H3).
  destruct (mouseIsPressed gr); [|done]. simpl.
  destruct (currentMode gr); try done.
  - destruct (isStart n) eqn:E1; [done|]. destruct (isEnd n) eqn:E2; [done|].
    destruct (isWall n) eqn:E3; [done|]. simpl.
    symmetry in H1, H2. apply bool_decide_eq_false in H1, H2.
    split; [|done]. apply grid_inv_flags. split.
    { apply (shape_set_nodes gr); [exact Hs|]. by apply coords_updNode. }
    exists s, e, (λ q, if decide (q = (r, c)) then true else fw q).
    unfold flags. cbn [nodes set_nodes startNode endNode].
    split_and!; try done.
    + rewrite nodeAt_updNode. case_decide; [by apply fmap_is_Some|done].
    + rewrite nodeAt_updNode. case_decide; [by apply fmap_is_Some|done].
    + intros q n'. rewrite nodeAt_updNode. case_decide as Hq.
      * subst q. rewrite Hn. intros [= <-]. rewrite decide_True by done.
        cbn. rewrite E1, E2. split_and!; [| |done]; symmetry;
          by apply bool_decide_eq_false.
      * intros Hn'. rewrite decide_False by done. by apply Hf.
    + intros q. case_decide; [subst; done|]. apply Hw.
  - destruct (isEnd n) eqn:E2; [done|]. destruct (isWall n) eqn:E3; [done|].
    cbn [negb andb].
    symmetry in H2. apply bool_decide_eq_false in H2.
    destruct (placeStart_fields (r, c) gr) as (-> & -> & _).
    split; [|done]. apply placeStart_inv; [done|done|]. rewrite Ee. congruence.
  - destruct (isStart n) eqn:E1; [done|]. destruct (isWall n) eqn:E3; [done|].
    cbn [negb andb].
    symmetry in H1. apply bool_decide_eq_false in H1.
    destruct (placeEnd_fields (r, c) gr) as (-> & -> & _).
    split; [|done]. apply placeEnd_inv; [done|done|]. rewrite Es. congruence.
Qed.

Lemma handleMouseDown_dims gr r c u gr' :
  handleMouseDown r c u gr = Normal tt gr' →
  rows gr' = rows gr ∧ cols gr' = cols gr.
Proof.
  unfold handleMouseDown, mbind, M_bind, getNode, modify.
  destruct (in_bounds gr r c); [|by intros [= <-]].
  destruct (idx (nodes gr) (Some r)) as [rw|]; [|done].
  destruct (idx rw (Some c)) as [n|]; simpl; [|by intros [= <-]].
  destruct (isStart n); [by intros [= <-]|].
  destruct (isEnd n); by intros [= <-].
Qed.

(** X9: the mouse keeps the invariant.  From a grid with its invariant
    every sequence of mouse-down, mouse-enter and mouse-up events on any
    cells, inside or outside the grid, is handled without an exception and
    leaves a grid with the invariant and the same dimensions: exactly one
    start, exactly one goal, on different cells, and no obstacle on
    either. *)
Theorem mouse_events_keep_invariant gr evs :
  grid_inv gr →
  ∃ gr', forM evs mouse gr = Normal tt gr' ∧ grid_inv gr' ∧ layout_inv gr' ∧
         rows gr' = rows gr ∧ cols gr' = cols gr.
Proof.
  revert gr. induction evs as [|ev evs IH]; intros gr Hinv.
  { exists gr. split_and!; try done. by apply grid_inv_layout. }
  assert (∃ gr1, mouse ev gr = Normal tt gr1 ∧ grid_inv gr1 ∧
                 rows gr1 = rows gr ∧ cols gr1 = cols gr) as (gr1 & E & Hinv1 & HR & HC).
  { destruct ev as [r c u|r c u|]; simpl.
    - destruct (handleMouseDown_inv gr r c u Hinv) as (gr1 & E & H1).
      exists gr1. split_and!; try done; by apply (handleMouseDown_dims gr r c u).
    - by apply handleMouseEnter_inv.
    - eexists. split; [done|]. by destruct gr. }
  destruct (IH gr1 Hinv1) as (gr' & E' & Hinv' & Hl & HR' & HC').
  exists gr'. split_and!; try done; [|congruence..].
  cbn [forM]. unfold mbind, M_bind. by rewrite E.
Qed.

Lemma mouse_events_keep_invariant_witness :
  grid_inv grid3 ∧
  ∃ gr', forM [MouseDown 0 0 true; MouseEnter 2 2 true; MouseEnter 1 1 true;
               MouseUp; MouseDown 0 1 false] mouse grid3 = Normal tt gr' ∧
         layout_inv gr' ∧ startNode gr' = Some (1, 1).
Proof.
  assert (grid_inv grid3) as Hi
    by (apply (bool_decide_unpack _); vm_compute; exact I).
  split; [exact Hi|].
  destruct (mouse_events_keep_invariant grid3
              [MouseDown 0 0 true; MouseEnter 2 2 true; MouseEnter 1 1 true;
               MouseUp; MouseDown 0 1 false] Hi) as (gr' & E & _ & Hl & _).
  exists gr'. split; [exact E|]. split; [exact Hl|].
  vm_compute in E. injection E as <-. reflexivity.
Defined.
(** X10: dragging never removes an obstacle.  On a grid of the declared
    shape [handleMouseEnter] ends without an exception; it does nothing
    while the button is up; every cell that was an obstacle still is one,
    and the only cell whose obstacle flag can change is the one entered. *)
Theorem handleMouseEnter_adds_only gr r c u :
  shape gr →
  ∃ gr', handleMouseEnter r c u gr = Normal tt gr' ∧
    (mouseIsPressed gr = false → gr' = gr) ∧
    ∀ q n, nodeAt (nodes gr) q = Some n →
      ∃ n', nodeAt (nodes gr') q = Some n' ∧
            (isWall n = true → isWall n' = true) ∧
            (q ≠ (r, c) → isWall n' = isWall n).
Proof.
  intros Hs. destruct (nodeAt (nodes gr) (r, c)) as [n0|] eqn:Hn0.
  2:{ exists gr. split; [by apply handleMouseEnter_outside|]. split; [done|].
      intros q n Hn. by exists n. }
  eexists. split; [by apply handleMouseEnter_spec|].
  split; [by intros ->|]. intros q n Hn.
  destruct (mouseIsPressed gr); [|by exists n]. cbn [negb].
  destruct (currentMode gr); try by exists n.
  - destruct (_ && _) eqn:Hc; [|by exists n]. cbn [nodes set_nodes].
    rewrite nodeAt_updNode, Hn. case_decide as Hq; [|by exists n].
    eexists. split; [done|]. split; [done|]. by intros [].
  - destruct (_ && _) eqn:Hc; [|by exists n].
    rewrite nodeAt_placeStart, Hn. eexists. split; [done|].
    apply andb_true_iff in Hc as [_ Hw]. apply negb_true_iff in Hw.
    case_decide as Hq.
    + subst q. assert (n = n0) as -> by congruence. split; [congruence|done].
    + split; [|intros _]; by case_decide.
  - destruct (_ && _) eqn:Hc; [|by exists n].
    rewrite nodeAt_placeEnd, Hn. eexists. split; [done|].
    apply andb_true_iff in Hc as [_ Hw]. apply negb_true_iff in Hw.
    case_decide as Hq.
    + subst q. assert (n = n0) as -> by congruence. split; [congruence|done].
    + split; [|intros _]; by case_decide.
Qed.

Lemma handleMouseEnter_adds_only_witness :
  shape grid3_wall ∧
  ∃ gr', handleMouseEnter 0 1 true grid3_wall = Normal tt gr' ∧
         passable (nodes gr') (0, 1) = false ∧ passable (nodes gr') (1, 1) = false.
Proof.
  assert (shape grid3_wall) as Hs by (vm_compute; reflexivity).
  split; [exact Hs|].
  destruct (handleMouseEnter_adds_only grid3_wall 0 1 true Hs) as (gr' & E & _).
  exists gr'. split; [exact E|].
  vm_compute in E. injection E as <-. split; reflexivity.
Defined.

(** X11: a second click undoes the first.  Two [handleMouseDown] on the
    same cell of a grid of the declared shape leave every node as it was,
    up to the image recorded for an obstacle: the click on a free cell that
    made it an obstacle is taken back, and a click on the start or the goal
    changes no node at all. *)
Theorem handleMouseDown_twice gr r c u1 u2 :
  shape gr →
  ∃ gr1 gr2, handleMouseDown r c u1 gr = Normal tt gr1 ∧
             handleMouseDown r c u2 gr1 = Normal tt gr2 ∧
    ∀ q n, nodeAt (nodes gr) q = Some n →
      ∃ n2, nodeAt (nodes gr2) q = Some n2 ∧
            set_wallType None n2 = set_wallType None n ∧
            (isStart n || isEnd n = true → n2 = n).
Proof.
  intros Hs. destruct (nodeAt (nodes gr) (r, c)) as [n0|] eqn:Hn0.
  2:{ exists gr, gr. rewrite !handleMouseDown_outside by done.
      split_and!; try done. intros q n Hn. by exists n. }
  rewrite (handleMouseDown_spec gr r c u1 n0) by done.
  destruct (isStart n0) eqn:E1; [|destruct (isEnd n0) eqn:E2].
  - eexists _, _. split; [done|].
    rewrite (handleMouseDown_spec _ r c u2 n0), E1 by done.
    split; [done|]. intros q n Hn. by exists n.
  - eexists _, _. split; [done|].
    rewrite (handleMouseDown_spec _ r c u2 n0), E1, E2 by done.
    split; [done|]. intros q n Hn. by exists n.
  - eexists _, _. split; [done|].
    destruct (clickWall_fields u1 n0 E1 E2) as (C1 & C2 & _).
    rewrite (handleMouseDown_spec _ r c u2 (clickWall u1 n0)), C1, C2.
    + split; [done|]. intros q n Hn. cbn [nodes set_nodes set_currentMode
        set_mouseIsPressed]. rewrite !nodeAt_updNode, Hn.
      case_decide as Hq; [|by exists n]. subst q.
      assert (n = n0) as -> by congruence. eexists. split; [done|].
      rewrite E1, E2. split; [|done].
      unfold clickWall, toggleWall. rewrite E1, E2. simpl.
      destruct n0 as [? ? w ? ? ? ? ? ? ? ? ? ?]. simpl in *. subst.
      by destruct w.
    + apply (shape_set_nodes (set_currentMode ModeWall (set_mouseIsPressed true gr)));
        [exact Hs|]. apply coords_updNode, clickWall_rowcol.
    + cbn [nodes set_nodes set_currentMode set_mouseIsPressed].
      by rewrite nodeAt_updNode, decide_True, Hn0.
Qed.

Lemma handleMouseDown_twice_witness :
  shape grid3 ∧
  ∃ gr1 gr2, handleMouseDown 1 1 true grid3 = Normal tt gr1 ∧
             handleMouseDown 1 1 false gr1 = Normal tt gr2 ∧
             nodes gr2 = nodes grid3.
Proof.
  assert (shape grid3) as Hs by (vm_compute; reflexivity).
  split; [exact Hs|].
  destruct (handleMouseDown_twice grid3 1 1 true false Hs) as (gr1 & gr2 & E1 & E2 & _).
  exists gr1, gr2. split; [exact E1|]. split; [exact E2|].
  vm_compute in E1. injection E1 as <-.
  vm_compute in E2. injection E2 as <-. reflexivity.
Defined.

(** X12: the bounds of [getNode].  Outside [0 <= row < rows] and
    [0 <= col < cols] it returns [null], whatever the array holds, and
    leaves the grid alone; inside, on a grid of the declared shape, it
    returns the node of that cell, whose [row] and [col] are the
    arguments. *)
Theorem getNode_bounds gr r c :
  (¬ inb (rows gr) (cols gr) (r, c) → getNode r c gr = Normal None gr) ∧
  (shape gr → inb (rows gr) (cols gr) (r, c) →
   ∃ n, getNode r c gr = Normal (Some ((r, c), n)) gr ∧
        nodeAt (nodes gr) (r, c) = Some n ∧ row n = r ∧ col n = c).
Proof.
  split.
  - intros Hb. unfold getNode.
    destruct (in_bounds gr r c) eqn:E; [|done]. by apply in_bounds_inb in E.
  - intros Hs Hb. destruct (shape_inb _ _ Hs Hb) as [n Hn]. exists n.
    rewrite getNode_spec, Hn by done.
    destruct (shape_nodeAt _ _ _ Hs Hn) as [[= -> ->] _]. done.
Qed.

Lemma getNode_bounds_witness :
  getNode 3 0 grid3 = Normal None grid3 ∧
  getNode 2 2 grid3 = Normal (Some ((2, 2), set_isEnd true (newNode 2 2))) grid3.
Proof.
  destruct (getNode_bounds grid3 3 0) as [H _].
  destruct (getNode_bounds grid3 2 2) as [_ H'].
  split.
  - apply H. vm_compute. intros [[_ H1] _]. discriminate H1.
  - destruct H' as (n & E & _).
    + vm_compute. reflexivity.
    + vm_compute. done.
    + rewrite E. vm_compute in E. injection E as <-. reflexivity.
Defined.
(** ** Assignments that change nothing *)

Lemma updNode_ext p fn fn' ns :
  (∀ n, nodeAt ns p = Some n → fn n = fn' n) → updNode p fn ns = updNode p fn' ns.
Proof.
  intros H. unfold updNode. destruct (_ && _) eqn:E; [|done].
  apply andb_true_iff in E as [E1 E2]. apply bool_decide_eq_true in E1, E2.
  apply list_alter_ext; [|done]. intros rw Hrw.
  apply list_alter_ext; [|done]. intros n Hn. apply H.
  apply nodeAt_Some. split_and!; [done|done|]. by exists rw.
Qed.

Lemma updNode_id p fn ns :
  (∀ n, nodeAt ns p = Some n → fn n = n) → updNode p fn ns = ns.
Proof.
  intros H. rewrite (updNode_ext p fn id) by done.
  unfold updNode. destruct (_ && _); [|done].
  apply list_alter_id. intros rw. by apply list_alter_id.
Qed.

Lemma set_isStart_false_id n : isStart n = false → set_isStart false n = n.
Proof. destruct n. simpl. by intros ->. Qed.

Lemma set_isEnd_false_id n : isEnd n = false → set_isEnd false n = n.
Proof. destruct n. simpl. by intros ->. Qed.

Lemma unsetStart_nodes gr fe fw :
  flags gr (λ _, false) fe fw → nodes (unsetStart gr) = nodes gr.
Proof.
  intros Hf. unfold unsetStart. destruct (startNode gr) as [p|]; [|done]. simpl.
  apply updNode_id. intros n Hn. apply set_isStart_false_id.
  by destruct (Hf p n Hn) as (-> & _).
Qed.

Lemma unsetEnd_nodes gr fs fw :
  flags gr fs (λ _, false) fw → nodes (unsetEnd gr) = nodes gr.
Proof.
  intros Hf. unfold unsetEnd. destruct (endNode gr) as [p|]; [|done]. simpl.
  apply updNode_id. intros n Hn. apply set_isEnd_false_id.
  by destruct (Hf p n Hn) as (_ & -> & _).
Qed.

(** Placing the default start and goal on an array of fresh nodes does not
    depend on the references the grid held. *)
Lemma place_defaults_fresh gr ds de :
  flags gr (λ _, false) (λ _, false) (λ _, false) →
  placeEnd de (placeStart ds gr)
  = mkGrid (rows gr) (cols gr)
           (updNode de setAsEnd (updNode ds setAsStart (nodes gr)))
           (Some ds) (Some de) (mouseIsPressed gr) (currentMode gr).
Proof.
  intros Hf.
  assert (nodes (placeStart ds gr) = updNode ds setAsStart (nodes gr)) as E1.
  { unfold placeStart. cbn [nodes set_nodes].
    by rewrite (unsetStart_nodes gr _ _ Hf). }
  assert (nodes (unsetEnd (placeStart ds gr)) = nodes (placeStart ds gr)) as E2.
  { apply (unsetEnd_nodes _ (λ q, bool_decide (q = ds) || false) (λ q, false)).
    eapply flags_ext; [by apply flags_placeStart|]. intros q _. done. }
  destruct (placeStart_fields ds gr) as (F1 & F2 & F3 & F4 & F5 & F6).
  unfold placeEnd. rewrite E2, E1.
  assert (∀ g, rows (unsetEnd g) = rows g ∧ cols (unsetEnd g) = cols g ∧
               startNode (unsetEnd g) = startNode g ∧
               mouseIsPressed (unsetEnd g) = mouseIsPressed g ∧
               currentMode (unsetEnd g) = currentMode g) as Hu.
  { intros g. unfold unsetEnd. by destruct (endNode g). }
  destruct (Hu (placeStart ds gr)) as (U1 & U2 & U3 & U4 & U5).
  unfold set_nodes, set_endNode. cbn [rows cols nodes startNode endNode
    mouseIsPressed currentMode].
  by rewrite U1, U2, U3, U4, U5, F1, F2, F3, F5, F6.
Qed.

(** X13: a resize starts afresh.  For positive dimensions [resize] ends
    without an exception in the grid [new Grid] builds for them: no
    obstacle, no trace of a search, start and goal on their default cells;
    of the old grid only the state of the mouse is left. *)
Theorem resize_forgets gr R C :
  1 ≤ R → 1 ≤ C →
  ∃ fresh, newGrid (Some R) (Some C) = Normal tt fresh ∧
    resize (Some R) (Some C) gr
    = Normal tt (set_currentMode (currentMode gr)
                   (set_mouseIsPressed (mouseIsPressed gr) fresh)) ∧
    rows fresh = Some R ∧ cols fresh = Some C ∧
    startNode fresh = Some (1 * R / 4, 1 * C / 4) ∧
    endNode fresh = Some (3 * R / 4, 3 * C / 4) ∧
    ∀ q n, nodeAt (nodes fresh) q = Some n →
           isWall n = false ∧ resetNode n = n ∧ weight n = 1.
Proof.
  intros HR HC. unfold newGrid, resize, resetGrid.
  set (g0 := mkGrid (Some R) (Some C) [] None None false ModeWall).
  set (g1 := set_cols (Some C) (set_rows (Some R) gr)).
  rewrite (setDefaultStartEnd_ok (initializeGrid g0) R C),
          (setDefaultStartEnd_ok (initializeGrid g1) R C);
    try done; try apply initializeGrid_shape.
  rewrite !place_defaults_fresh by apply initializeGrid_flags.
  eexists. split; [done|]. split_and!; try done.
  intros q n. cbn [nodes]. rewrite !nodeAt_updNode.
  destruct (nodeAt (nodes (initializeGrid g0)) q) as [m|] eqn:Hm;
    [|by repeat case_decide].
  apply initializeGrid_nodeAt in Hm as ->.
  repeat case_decide; by intros [= <-].
Qed.

Lemma resize_forgets_witness :
  resize (Some 3) (Some 3) grid3_wall
  = Normal tt (set_mouseIsPressed true grid3).
Proof.
  destruct (resize_forgets grid3_wall 3 3) as (fresh & E & -> & _); [lia|lia|].
  vm_compute in E. injection E as <-. reflexivity.
Defined.
(** ** Searches on grids without obstacles *)

Lemma corridor_inb R C s e q :
  inb R C s → inb R C e → q ∈ corridor s e → inb R C q.
Proof.
  unfold inb, corridor. destruct R as [zr|], C as [zc|]; try done.
  intros Hs He. rewrite elem_of_app, !list_elem_of_fmap.
  intros [(c & -> & Hc)|(r & -> & Hr)]; apply elem_of_between in Hc || apply elem_of_between in Hr;
    simpl; lia.
Qed.

(** With unit weights and a free corridor the search returns a path of
    the Manhattan distance plus one cells. *)
Lemma findPath_free_corridor a s e :
  ready a s e → unit_weights (nodes (grid a)) →
  (∀ q, q ∈ corridor s e → passable (nodes (grid a)) q = true) →
  ∃ r a', findPath a = Resolved (Some r) a' ∧
          route (nodes (grid a)) s e (Result.path r) ∧
          Z.of_nat (length (Result.path r)) = mdist s e + 1.
Proof.
  intros Hready Hunit Hfree.
  destruct (findPath_minimal a s e _ Hready Hunit (corridor_walk _ s e Hfree))
    as (r & a' & E & Hr & Hle).
  exists r, a'. split; [done|]. split; [done|].
  pose proof Hr as (Hh & _). apply route_walk, walk_mdist in Hr.
  assert (0 ≤ mdist s e) by (unfold mdist; lia).
  destruct (Result.path r); [done|]. simpl in *. lia.
Qed.

(** On a grid with its invariant and no obstacle the corridor is free. *)
Lemma corridor_free gr s e fs fe :
  shape gr → is_Some (nodeAt (nodes gr) s) → is_Some (nodeAt (nodes gr) e) →
  flags gr fs fe (λ _, false) →
  ∀ q, q ∈ corridor s e → passable (nodes gr) q = true.
Proof.
  intros Hsh [ns Hs] [ne He] Hf q Hq.
  destruct (shape_nodeAt _ _ _ Hsh Hs) as [_ Hbs].
  destruct (shape_nodeAt _ _ _ Hsh He) as [_ Hbe].
  destruct (shape_inb _ _ Hsh (corridor_inb _ _ s e q Hbs Hbe Hq)) as [n Hn].
  unfold passable. rewrite Hn. by destruct (Hf q n Hn) as (_ & _ & ->).
Qed.

(** X14: after [clearWalls] the search takes a direct way.  On a grid
    with its invariant and unit weights, [clearWalls] followed by
    [findPath] of a pathfinder that is not running resolves to a path from
    the start to the goal with as many cells as their Manhattan distance
    plus one. *)
Theorem clearWalls_then_findPath a s e :
  grid_inv (grid a) → isRunning a = false → unit_weights (nodes (grid a)) →
  startNode (grid a) = Some s → endNode (grid a) = Some e →
  ∃ gr' r a', clearWalls (grid a) = Normal tt gr' ∧
    (∀ q, is_Some (nodeAt (nodes gr') q) → passable (nodes gr') q = true) ∧
    findPath (set_grid gr' a) = Resolved (Some r) a' ∧
    route (nodes gr') s e (Result.path r) ∧
    Z.of_nat (length (Result.path r)) = mdist s e + 1.
Proof.
  intros Hinv Hrun Hunit Es Ee.
  destruct (clearWalls_inv (grid a) Hinv) as (gr' & E & Hinv' & Hf & Egr).
  pose proof Hinv as [Hsh _].
  assert (nodes gr' = (λ rw : list Node, clearWall <$> rw) <$> nodes (grid a)) as En.
  { rewrite clearWalls_spec in E by done. by injection E as <-. }
  assert (startNode gr' = Some s ∧ endNode gr' = Some e) as [Es' Ee'].
  { rewrite Egr. done. }
  assert (ready (set_grid gr' a) s e) as Hready by by apply grid_inv_ready.
  assert (unit_weights (nodes gr')) as Hunit'.
  { apply Forall2_nodeAt. intros p n. rewrite En, nodeAt_fmap.
    destruct (nodeAt (nodes (grid a)) p) as [m|] eqn:Hm; [|done].
    intros [= <-]. pose proof (proj1 (Forall2_nodeAt _ _) Hunit p m Hm) as Hw.
    unfold clearWall. by destruct (isWall m). }
  pose proof Hinv' as [Hsh' Hi']. rewrite Es', Ee' in Hi'.
  destruct Hi' as (_ & Hs' & He' & _).
  destruct (findPath_free_corridor (set_grid gr' a) s e Hready Hunit')
    as (r & a' & Ef & Hr & Hlen).
  { by apply (corridor_free gr' s e _ _ Hsh' Hs' He' Hf). }
  exists gr', r, a'. split_and!; try done.
  intros q [n Hn]. unfold passable. rewrite Hn.
  by destruct (Hf q n Hn) as (_ & _ & ->).
Qed.

Lemma clearWalls_then_findPath_witness :
  grid_inv grid3_sealed ∧ unit_weights (nodes grid3_sealed) ∧
  ∃ gr' r a', clearWalls grid3_sealed = Normal tt gr' ∧
    findPath (set_grid gr' (newAStar grid3_sealed)) = Resolved (Some r) a' ∧
    Z.of_nat (length (Result.path r)) = 5.
Proof.
  assert (grid_inv grid3_sealed) as Hi
    by (apply (bool_decide_unpack _); vm_compute; exact I).
  assert (unit_weights (nodes grid3_sealed)) as Hu
    by (apply (bool_decide_unpack _); vm_compute; exact I).
  split; [exact Hi|]. split; [exact Hu|].
  destruct (clearWalls_then_findPath (newAStar grid3_sealed) (0, 0) (2, 2)
              Hi eq_refl Hu eq_refl eq_refl) as (gr' & r & a' & E1 & _ & E2 & _ & E3).
  exists gr', r, a'. split; [exact E1|]. split; [exact E2|exact E3].
Defined.

(** X15: a new grid can be searched at once.  [new Grid(rows, cols)] with
    positive dimensions, not both 1, has its invariant, and [findPath] of
    a new pathfinder on it resolves to a path from the default start to the
    default goal with as many cells as their Manhattan distance plus
    one. *)
Theorem newGrid_solvable R C :
  1 ≤ R → 1 ≤ C → 2 ≤ R ∨ 2 ≤ C →
  ∃ gr r a', newGrid (Some R) (Some C) = Normal tt gr ∧ grid_inv gr ∧
    findPath (newAStar gr) = Resolved (Some r) a' ∧
    route (nodes gr) (1 * R / 4, 1 * C / 4) (3 * R / 4, 3 * C / 4) (Result.path r) ∧
    Z.of_nat (length (Result.path r))
    = (3 * R / 4 - 1 * R / 4) + (3 * C / 4 - 1 * C / 4) + 1.
Proof.
  intros HR HC H2.
  set (g0 := mkGrid (Some R) (Some C) [] None None false ModeWall).
  destruct (resetGrid_inv g0 R C)
    as (gr & E & Hinv & Hf & ER & EC & Es & Ee); try done.
  pose proof Hinv as [Hsh Hi]. rewrite Es, Ee in Hi. destruct Hi as (_ & Hs & He & _).
  assert (nodes gr = updNode (3 * R / 4, 3 * C / 4) setAsEnd
                       (updNode (1 * R / 4, 1 * C / 4) setAsStart
                          (nodes (initializeGrid g0)))) as En.
  { pose proof E as E'. unfold resetGrid in E'.
    rewrite (setDefaultStartEnd_ok _ R C) in E';
      try done; try apply initializeGrid_shape.
    rewrite place_defaults_fresh in E' by apply initializeGrid_flags.
    by injection E' as <-. }
  assert (unit_weights (nodes gr)) as Hunit.
  { apply Forall2_nodeAt. intros q n. rewrite En, !nodeAt_updNode.
    destruct (nodeAt (nodes (initializeGrid g0)) q) as [m|] eqn:Hm;
      [|by repeat case_decide].
    apply initializeGrid_nodeAt in Hm as ->.
    repeat case_decide; by intros [= <-]. }
  destruct (findPath_free_corridor (newAStar gr) _ _
              (grid_inv_ready (newAStar gr) _ _ Hinv eq_refl Es Ee) Hunit)
    as (r & a' & Ef & Hr & Hlen).
  { by apply (corridor_free gr _ _ _ _ Hsh Hs He Hf). }
  exists gr, r, a'. split_and!; try done.
  rewrite Hlen. unfold mdist. cbn [fst snd].
  assert (1 * R / 4 ≤ 3 * R / 4) by (apply Z.div_le_mono; lia).
  assert (1 * C / 4 ≤ 3 * C / 4) by (apply Z.div_le_mono; lia).
  lia.
Qed.

Lemma newGrid_solvable_witness :
  ∃ gr r a', newGrid (Some 10) (Some 10) = Normal tt gr ∧
    findPath (newAStar gr) = Resolved (Some r) a' ∧
    Z.of_nat (length (Result.path r)) = 11.
Proof.
  destruct (newGrid_solvable 10 10) as (gr & r & a' & E1 & _ & E2 & _ & E3);
    [lia|lia|lia|].
  exists gr, r, a'. split; [exact E1|]. split; [exact E2|exact E3].
Defined.
(** ** The resize control *)

(** X16: the size field is guarded.  [Controls.handleResize] never throws;
    it resizes only when no search is running and the size is a number
    from 5 to 20, and then leaves a square grid of that size with the
    invariant and no obstacle; in every other case the grid stays as it
    is.  Either way a grid with its invariant keeps it. *)
Theorem handleResize_guarded gr running newSize :
  ∃ gr', handleResize running newSize gr = Normal tt gr' ∧
    (grid_inv gr → grid_inv gr') ∧
    (∀ n, running = false → newSize = Some n → 5 ≤ n ≤ 20 →
          grid_inv gr' ∧ rows gr' = Some n ∧ cols gr' = Some n ∧
          ∀ q, is_Some (nodeAt (nodes gr') q) → passable (nodes gr') q = true) ∧
    ((running = true ∨ ∀ n, newSize = Some n → n < 5 ∨ 20 < n) → gr' = gr).
Proof.
  unfold handleResize. destruct running.
  { exists gr. split_and!; try done. }
  destruct newSize as [n|].
  2:{ exists gr. split_and!; try done. }
  destruct (decide (5 ≤ n ≤ 20)) as [Hn|Hn].
  - rewrite !bool_decide_eq_false_2 by lia. cbn [orb].
    destruct (resize_inv gr n n) as (gr' & E & Hinv & Hf & HR & HC & _); try lia.
    exists gr'. split_and!; try done.
    + intros m _ [= <-] _. split_and!; try done.
      intros q [x Hx]. unfold passable. rewrite Hx.
      by destruct (Hf q x Hx) as (_ & _ & ->).
    + intros [?|H]; [done|]. destruct (H n eq_refl); lia.
  - exists gr. split_and!.
    + destruct (decide (n < 5)).
      * by rewrite bool_decide_eq_true_2.
      * rewrite (bool_decide_eq_false_2 (n < 5)), bool_decide_eq_true_2 by lia. done.
    + done.
    + intros m _ [= <-] ?. lia.
    + done.
Qed.

(** ** Carving a way *)

Lemma carve_spec gr r c :
  shape gr →
  carve r c gr = Normal tt (set_nodes (updNode (r, c) clearWall (nodes gr)) gr).
Proof.
  intros Hs. unfold carve, mbind, M_bind. rewrite getNode_spec by done.
  destruct (nodeAt (nodes gr) (r, c)) as [n|] eqn:Hn; simpl.
  - destruct (isWall n) eqn:Hw.
    + unfold modify. f_equal. f_equal. apply updNode_ext.
      intros m Hm. assert (m = n) as -> by congruence.
      unfold clearWall. by rewrite Hw.
    + unfold mret, M_ret. f_equal. rewrite updNode_id; [by rewrite set_nodes_nodes|].
      intros m Hm. assert (m = n) as -> by congruence.
      unfold clearWall. by rewrite Hw.
  - unfold mret, M_ret. f_equal. rewrite updNode_id; [by rewrite set_nodes_nodes|].
    intros m Hm. congruence.
Qed.

Lemma clearWall_rowcol n : row (clearWall n) = row n ∧ col (clearWall n) = col n.
Proof. by destruct (clearWall_flags n) as (_ & _ & _ & ? & ?). Qed.

Lemma carved_shape cells gr : shape gr → shape (carved cells gr).
Proof.
  intros Hs. apply shape_set_nodes; [done|]. generalize (nodes gr).
  induction cells as [|q cells IH]; intros ns; [done|]. simpl.
  rewrite IH. apply coords_updNode, clearWall_rowcol.
Qed.

Lemma carved_app l1 l2 gr : carved (l1 ++ l2) gr = carved l2 (carved l1 gr).
Proof. unfold carved. simpl. by rewrite fold_left_app. Qed.

Lemma forM_carve {A : Type} (fr fc : A → Z) (l : list A) gr :
  shape gr →
  forM l (λ x, carve (fr x) (fc x)) gr
  = Normal tt (carved ((λ x, (fr x, fc x)) <$> l) gr).
Proof.
  revert gr. induction l as [|x l IH]; intros gr Hs.
  - unfold carved. simpl. by rewrite set_nodes_nodes.
  - cbn [forM]. unfold mbind, M_bind. rewrite carve_spec by done.
    rewrite IH.
    + reflexivity.
    + apply (carved_shape [(fr x, fc x)] gr Hs).
Qed.

Lemma clearWall_idemp n : clearWall (clearWall n) = clearWall n.
Proof. unfold clearWall. by destruct (isWall n) eqn:E; simpl; rewrite ?E. Qed.

Lemma nodeAt_carved cells gr q :
  nodeAt (nodes (carved cells gr)) q
  = (if decide (q ∈ cells) then clearWall else id) <$> nodeAt (nodes gr) q.
Proof.
  unfold carved. cbn [nodes set_nodes]. generalize (nodes gr).
  induction cells as [|p cells IH]; intros ns.
  - simpl. by destruct (nodeAt ns q).
  - simpl. rewrite IH, nodeAt_updNode.
    destruct (nodeAt ns q) as [n|]; [|by repeat case_decide]. simpl.
    destruct (decide (p = q)) as [->|Hpq].
    + rewrite (decide_True (P := q ∈ q :: cells)) by by left.
      case_decide; simpl; by rewrite ?clearWall_idemp.
    + destruct (decide (q ∈ cells)) as [Hq|Hq].
      * rewrite decide_True by by right. done.
      * rewrite decide_False; [done|]. rewrite elem_of_cons. naive_solver.
Qed.

Lemma createSimplePath_spec gr s e :
  shape gr → startNode gr = Some s → endNode gr = Some e →
  createSimplePath gr = Normal tt (carved (corridor s e) gr).
Proof.
  intros Hs Es Ee. unfold createSimplePath. rewrite Es, Ee. cbv zeta.
  pose proof (f_equal fst (rect_deref_pos _ _ _ Hs s)) as Hsr.
  pose proof (f_equal snd (rect_deref_pos _ _ _ Hs s)) as Hsc.
  pose proof (f_equal fst (rect_deref_pos _ _ _ Hs e)) as Her.
  pose proof (f_equal snd (rect_deref_pos _ _ _ Hs e)) as Hec.
  cbn [fst snd] in Hsr, Hsc, Her, Hec.
  rewrite Hsr, Hsc, Her, Hec. unfold mbind, M_bind.
  rewrite (forM_carve (λ _, s.1) id) by done.
  rewrite (forM_carve id (λ _, e.2)) by by apply carved_shape.
  by rewrite <- carved_app.
Qed.
Lemma carved_inv cells gr : grid_inv gr → grid_inv (carved cells gr).
Proof.
  rewrite !grid_inv_flags.
  intros (Hs & s & e & fw & Es & Ee & Hne & Hss & Hse & Hf & Hw).
  split; [by apply carved_shape|].
  exists s, e, (λ q, fw q && negb (bool_decide (q ∈ cells))).
  split_and!; try done.
  - rewrite nodeAt_carved. by apply fmap_is_Some.
  - rewrite nodeAt_carved. by apply fmap_is_Some.
  - intros q n'. rewrite nodeAt_carved.
    destruct (nodeAt (nodes gr) q) as [n|] eqn:Hn; [|done]. simpl.
    destruct (Hf q n Hn) as (H1 & H2 & H3). intros [= <-].
    destruct (decide (q ∈ cells)) as [Hq|Hq]; cbv beta iota.
    + destruct (clearWall_flags n) as (-> & -> & -> & _).
      rewrite (bool_decide_eq_true_2 (q ∈ cells)) by done.
      by rewrite andb_false_r.
    + rewrite (bool_decide_eq_false_2 (q ∈ cells)) by done.
      by rewrite andb_true_r.
  - intros q Hq. apply andb_true_iff in Hq as [Hq _]. by apply Hw.
Qed.

Lemma carved_unit_weights cells gr :
  unit_weights (nodes gr) → unit_weights (nodes (carved cells gr)).
Proof.
  intros Hu. apply Forall2_nodeAt. intros q n'. rewrite nodeAt_carved.
  destruct (nodeAt (nodes gr) q) as [n|] eqn:Hn; [|done]. simpl. intros [= <-].
  pose proof (proj1 (Forall2_nodeAt _ _) Hu q n Hn) as Hw.
  case_decide; [|done]. unfold clearWall. by destruct (isWall n).
Qed.

Lemma start_in_corridor s e : s ∈ corridor s e.
Proof.
  unfold corridor. apply elem_of_app. left. destruct s as [sr sc]. simpl.
  apply (list_elem_of_fmap_2 (λ c, (sr, c))). apply elem_of_between. lia.
Qed.

(** X17: [createSimplePath] opens a way.  On a grid with its invariant it
    removes the obstacles on the row of the start between the columns of
    start and goal and on the column of the goal between their rows, and
    nothing else; the grid keeps its invariant; these cells then form a
    path from the start to the goal of Manhattan distance plus one cells,
    and with unit weights a search on the grid returns a path of that
    length. *)
Theorem createSimplePath_opens gr s e :
  grid_inv gr → startNode gr = Some s → endNode gr = Some e →
  ∃ gr', createSimplePath gr = Normal tt gr' ∧ grid_inv gr' ∧
    gr' = set_nodes (nodes gr') gr ∧
    (∀ q, nodeAt (nodes gr') q
          = (if decide (q ∈ corridor s e) then clearWall else id)
              <$> nodeAt (nodes gr) q) ∧
    (∀ q, q ∈ corridor s e → passable (nodes gr') q = true) ∧
    (∃ l, route (nodes gr') s e l ∧ Z.of_nat (length l) = mdist s e + 1) ∧
    (unit_weights (nodes gr) →
     ∃ r a', findPath (newAStar gr') = Resolved (Some r) a' ∧
             Z.of_nat (length (Result.path r)) = mdist s e + 1).
Proof.
  intros Hinv Es Ee. pose proof Hinv as [Hsh Hi]. rewrite Es, Ee in Hi.
  destruct Hi as (_ & Hs & He & _).
  exists (carved (corridor s e) gr).
  pose proof (carved_inv (corridor s e) gr Hinv) as Hinv'.
  assert (∀ q, q ∈ corridor s e →
               passable (nodes (carved (corridor s e) gr)) q = true) as Hfree.
  { intros q Hq. destruct Hs as [ns Hns], He as [ne Hne].
    destruct (shape_nodeAt _ _ _ Hsh Hns) as [_ Hbs].
    destruct (shape_nodeAt _ _ _ Hsh Hne) as [_ Hbe].
    destruct (shape_inb _ _ Hsh (corridor_inb _ _ s e q Hbs Hbe Hq)) as [n Hn].
    unfold passable. rewrite nodeAt_carved, Hn, decide_True by done. simpl.
    by destruct (clearWall_flags n) as (_ & _ & -> & _). }
  assert (mdist s e = Z.of_nat (Z.to_nat (mdist s e))) as Hm
    by (unfold mdist; lia).
  split_and!; try done.
  - by apply createSimplePath_spec.
  - apply nodeAt_carved.
  - destruct (walk_route _ s _ e (Hfree s (start_in_corridor s e))
                (corridor_walk _ s e Hfree)) as (l & Hl & Hlen).
    exists l. split; [done|]. lia.
  - intros Hunit.
    destruct (findPath_free_corridor (newAStar (carved (corridor s e) gr)) s e)
      as (r & a' & E & _ & Hlen); try done.
    + by apply grid_inv_ready.
    + by apply carved_unit_weights.
    + by exists r, a'.
Qed.

Lemma createSimplePath_opens_witness :
  grid_inv grid3_sealed ∧ unit_weights (nodes grid3_sealed) ∧
  ∃ gr' r a', createSimplePath grid3_sealed = Normal tt gr' ∧
    passable (nodes gr') (1, 2) = true ∧ passable (nodes gr') (2, 1) = false ∧
    findPath (newAStar gr') = Resolved (Some r) a' ∧
    Z.of_nat (length (Result.path r)) = 5.
Proof.
  assert (grid_inv grid3_sealed) as Hi
    by (apply (bool_decide_unpack _); vm_compute; exact I).
  assert (unit_weights (nodes grid3_sealed)) as Hu
    by (apply (bool_decide_unpack _); vm_compute; exact I).
  split; [exact Hi|]. split; [exact Hu|].
  destruct (createSimplePath_opens grid3_sealed (0, 0) (2, 2) Hi eq_refl eq_refl)
    as (gr' & E & _ & _ & _ & _ & _ & H).
  destruct (H Hu) as (r & a' & E1 & E2).
  exists gr', r, a'. split; [exact E|].
  split; [|split; [|split; [exact E1|exact E2]]].
  - vm_compute in E. injection E as <-. reflexivity.
  - vm_compute in E. injection E as <-. reflexivity.
Defined.
(** ** The path guards of the helpers *)

Lemma findPath_resolves a s e : ready a s e → ∃ r a', findPath a = Resolved r a'.
Proof.
  intros Hready.
  destruct (findPath_outcome (astar_core (nodes (grid a)) s e) a s e Hready)
    as (af & _ & [[_ E]|(l & _ & _ & _ & _ & _ & _ & E)]); try done.
  - intros a1 cur Hc Hsel Hne.
    by apply expand_core; [|apply selected_in_open|].
  - eauto.
  - eauto.
Qed.

Lemma scrubbed_nodeAt gr gr' q :
  scrubbed gr' = scrubbed gr →
  resetNode <$> nodeAt (nodes gr') q = resetNode <$> nodeAt (nodes gr) q.
Proof.
  intros E. rewrite <- !nodeAt_fmap.
  apply (f_equal nodes) in E. unfold scrubbed in E. simpl in E. by rewrite E.
Qed.

Lemma scrubbed_passable gr gr' q :
  scrubbed gr' = scrubbed gr → passable (nodes gr') q = passable (nodes gr) q.
Proof.
  intros E. pose proof (scrubbed_nodeAt gr gr' q E) as Hq. unfold passable.
  destruct (nodeAt (nodes gr') q) as [n'|], (nodeAt (nodes gr) q) as [n|];
    simpl in Hq; try done.
  apply (inj Some) in Hq. apply (f_equal isWall) in Hq. simpl in Hq.
  by rewrite Hq.
Qed.

Lemma scrubbed_route gr gr' s e l :
  scrubbed gr' = scrubbed gr → route (nodes gr') s e l → route (nodes gr) s e l.
Proof.
  intros E (H1 & H2 & H3 & H4). split_and!; try done.
  eapply Forall_impl; [exact H4|]. intros q Hq. simpl in Hq.
  by rewrite <- (scrubbed_passable gr gr' q E).
Qed.

Lemma grid_inv_scrubbed gr gr' :
  scrubbed gr' = scrubbed gr → grid_inv gr → grid_inv gr'.
Proof.
  intros E. rewrite !grid_inv_flags.
  intros (Hs & s & e & fw & Es & Ee & Hne & Hss & Hse & Hf & Hw).
  assert (∀ q, is_Some (nodeAt (nodes gr) q) → is_Some (nodeAt (nodes gr') q)) as Hin.
  { intros q [n Hn]. pose proof (scrubbed_nodeAt gr gr' q E) as Hq.
    rewrite Hn in Hq. destruct (nodeAt (nodes gr') q); [by eexists|done]. }
  split; [by apply (scrubbed_shape gr)|].
  exists s, e, fw. split_and!; try done.
  - rewrite <- Es. by apply (f_equal startNode) in E.
  - rewrite <- Ee. by apply (f_equal endNode) in E.
  - by apply Hin.
  - by apply Hin.
  - intros q n' Hn'. pose proof (scrubbed_nodeAt gr gr' q E) as Hq.
    rewrite Hn' in Hq. destruct (nodeAt (nodes gr) q) as [n|] eqn:Hn; [|done].
    apply (inj Some) in Hq. destruct (Hf q n Hn) as (<- & <- & <-).
    split_and!; [by apply (f_equal isStart) in Hq|by apply (f_equal isEnd) in Hq|
                 by apply (f_equal isWall) in Hq].
Qed.

(** X18: [ensurePathExists] never repairs.  The Promise [findPath]
    returns is never falsy, so [createSimplePath] is not called: from a
    grid a search can start on, [ensurePathExists] ends without an
    exception and leaves every obstacle where it was, having changed only
    search fields.  A grid without a path from the start to the goal is
    still without one afterwards. *)
Theorem ensurePathExists_never_repairs gr s e :
  ready (newAStar gr) s e →
  ∃ gr', ensurePathExists gr = Some (Normal tt gr') ∧
    resetPathfinding gr' = resetPathfinding gr ∧
    (∀ q, passable (nodes gr') q = passable (nodes gr) q) ∧
    (∀ l, route (nodes gr') s e l ↔ route (nodes gr) s e l) ∧
    ((∀ l, ¬ route (nodes gr) s e l) → ∀ l, ¬ route (nodes gr') s e l).
Proof.
  intros Hready. pose proof Hready as (Hsh & _).
  destruct (findPath_resolves _ s e Hready) as (r & a' & E).
  assert (scrubbed (grid a') = scrubbed gr) as Escr.
  { apply (findPath_scrubbed (newAStar gr) a' Hsh). by rewrite E. }
  exists (grid a'). unfold ensurePathExists. rewrite E. split; [done|].
  assert (∀ l, route (nodes (grid a')) s e l ↔ route (nodes gr) s e l) as Hroute.
  { intros l. split; [by apply scrubbed_route|]. by apply scrubbed_route. }
  split_and!; try done.
  - rewrite !resetPathfinding_scrubbed; [by rewrite Escr|done|].
    by apply (scrubbed_shape gr).
  - intros q. by apply scrubbed_passable.
  - intros Hno l Hl. apply (Hno l). by apply Hroute.
Qed.

Lemma ensurePathExists_never_repairs_witness :
  ready (newAStar grid3_sealed) (0, 0) (2, 2) ∧
  ∃ gr', ensurePathExists grid3_sealed = Some (Normal tt gr') ∧
         passable (nodes gr') (1, 2) = false ∧
         ∀ l, ¬ route (nodes gr') (0, 0) (2, 2) l.
Proof.
  assert (ready (newAStar grid3_sealed) (0, 0) (2, 2)) as Hr
    by (apply (bool_decide_unpack _); vm_compute; exact I).
  assert (∀ l, ¬ route (nodes grid3_sealed) (0, 0) (2, 2) l) as Hno.
  { intros l.
    apply (sealed_no_route _ [(0, 0); (0, 1); (0, 2); (1, 0); (1, 1); (2, 0)]);
      apply (bool_decide_unpack _); vm_compute; exact I. }
  split; [exact Hr|].
  destruct (ensurePathExists_never_repairs grid3_sealed (0, 0) (2, 2) Hr)
    as (gr' & E & _ & Hp & _ & H).
  exists gr'. split; [exact E|]. split; [|exact (H Hno)].
  rewrite Hp. reflexivity.
Defined.

(** X19: [ensureForestPath] is a [resetPathfinding].  For the same reason
    its branch that clears the top row and the last column is never
    taken: from a grid a search can start on it ends as [resetPathfinding]
    on the untouched grid does, with every obstacle in place. *)
Theorem ensureForestPath_is_reset gr s e :
  ready (newAStar gr) s e →
  ensureForestPath gr = Some (resetPathfinding gr) ∧
  resetPathfinding gr = Normal tt (scrubbed gr) ∧
  ∀ q, passable (nodes (scrubbed gr)) q = passable (nodes gr) q.
Proof.
  intros Hready. pose proof Hready as (Hsh & _).
  destruct (findPath_resolves _ s e Hready) as (r & a' & E).
  assert (scrubbed (grid a') = scrubbed gr) as Escr.
  { apply (findPath_scrubbed (newAStar gr) a' Hsh). by rewrite E. }
  split_and!.
  - unfold ensureForestPath. rewrite E. cbn [state_of fmap option_fmap option_map
      not_promise]. f_equal. unfold mbind, M_bind, mret, M_ret.
    rewrite !resetPathfinding_scrubbed; [by rewrite Escr|done|].
    by apply (scrubbed_shape gr).
  - by apply resetPathfinding_scrubbed.
  - intros q. apply scrubbed_passable, scrubbed_idemp.
Qed.

Lemma ensureForestPath_is_reset_witness :
  ready (newAStar grid3_sealed) (0, 0) (2, 2) ∧
  ensureForestPath grid3_sealed = Some (Normal tt grid3_sealed).
Proof.
  assert (ready (newAStar grid3_sealed) (0, 0) (2, 2)) as Hr
    by (apply (bool_decide_unpack _); vm_compute; exact I).
  split; [exact Hr|].
  destruct (ensureForestPath_is_reset grid3_sealed (0, 0) (2, 2) Hr) as (-> & -> & _).
  vm_compute. reflexivity.
Defined.
(** ** The random maze *)

Lemma elem_of_upto d z : z ∈ upto d ↔ ∃ n, d = Some n ∧ 0 ≤ z < n.
Proof.
  rewrite list_elem_of_lookup. split.
  - intros (i & Hi). apply lookup_upto in Hi as (-> & n & -> & Hlt).
    exists n. split; [done|lia].
  - intros (n & -> & Hz). exists (Z.to_nat z). apply lookup_upto.
    split; [lia|]. exists n. split; [done|lia].
Qed.

(** Two loop bodies that agree where an invariant of one of them holds
    give the same loop. *)
Lemma forM_ext {A : Type} (I : Grid → Prop) (l : list A) (body body' : A → M unit) gr :
  I gr →
  (∀ x g, x ∈ l → I g → body x g = body' x g) →
  (∀ x g g', x ∈ l → I g → body' x g = Normal tt g' → I g') →
  forM l body gr = forM l body' gr ∧
  ∀ g', forM l body' gr = Normal tt g' → I g'.
Proof.
  revert gr. induction l as [|x l IH]; intros gr Hgr Hext Hinv.
  { split; [done|]. by intros g' [= <-]. }
  cbn [forM]. unfold mbind, M_bind.
  rewrite (Hext x gr) by (done || by left).
  destruct (body' x gr) as [[] g1|g1] eqn:E; [|done].
  apply IH.
  - apply (Hinv x gr g1); [by left|done|done].
  - intros y g Hy. apply Hext. by right.
  - intros y g g' Hy. apply Hinv. by right.
Qed.

Lemma mazeNode_rowcol hit img n :
  row (mazeNode hit img n) = row n ∧ col (mazeNode hit img n) = col n.
Proof. unfold mazeNode. by destruct (_ && _). Qed.

Lemma mazeCell_touch hit img gr r c :
  shape gr → inb (rows gr) (cols gr) (r, c) →
  mazeCell hit img r c gr = touch (mazeNode hit img) r c gr.
Proof.
  intros Hs Hb. destruct (shape_inb _ _ Hs Hb) as [n Hn].
  destruct (shape_nodeAt _ _ _ Hs Hn) as [[= Hr Hc] _].
  rewrite touch_spec by by eexists.
  unfold mazeCell, mbind, M_bind. rewrite getNode_spec, Hn by done. simpl.
  destruct (negb (isStart n) && negb (isEnd n)) eqn:Hu;
    [destruct (hit (r, c)) eqn:Hh|].
  - unfold modify. f_equal. f_equal. apply updNode_ext.
    intros m Hm. assert (m = n) as -> by congruence.
    unfold mazeNode. by rewrite Hr, Hc, Hu, Hh.
  - unfold mret, M_ret. f_equal. rewrite updNode_id; [by rewrite set_nodes_nodes|].
    intros m Hm. assert (m = n) as -> by congruence.
    unfold mazeNode. by rewrite Hr, Hc, Hu, Hh.
  - unfold mret, M_ret. f_equal. rewrite updNode_id; [by rewrite set_nodes_nodes|].
    intros m Hm. assert (m = n) as -> by congruence.
    unfold mazeNode. by rewrite Hu.
Qed.

Lemma forCells_mazeCell hit img gr :
  shape gr →
  forCells (mazeCell hit img) gr
  = Normal tt (set_nodes ((λ rw : list Node, mazeNode hit img <$> rw) <$> nodes gr) gr).
Proof.
  intros Hs. rewrite <- (forCells_touch _ gr Hs) by apply mazeNode_rowcol.
  set (I := λ g, shape g ∧ rows g = rows gr ∧ cols g = cols gr).
  assert (∀ r c g g', I g → touch (mazeNode hit img) r c g = Normal tt g' → I g')
    as Htouch.
  { intros r c g g' (Hg & HR & HC). unfold touch.
    destruct (nodeAt (nodes g) (r, c)); [|done]. intros [= <-].
    split_and!; try done. apply shape_set_nodes; [done|].
    apply coords_updNode, mazeNode_rowcol. }
  assert (∀ r g, r ∈ upto (rows gr) → I g →
            forM (upto (cols g)) (mazeCell hit img r) g
            = forM (upto (cols g)) (touch (mazeNode hit img) r) g ∧
            ∀ g', forM (upto (cols g)) (touch (mazeNode hit img) r) g = Normal tt g' →
                  I g') as Hrow.
  { intros r g Hr Hg. apply (forM_ext I); [done| |].
    - intros c g1 Hc (Hg1 & HR1 & HC1). apply mazeCell_touch; [done|].
      destruct Hg as (_ & HR & HC). rewrite HC in Hc.
      apply elem_of_upto in Hr as (R & ER & Hr), Hc as (C & EC & Hc).
      rewrite HR1, HC1, ER, EC. simpl. lia.
    - intros c g1 g2 _. apply Htouch. }
  unfold forCells.
  apply (forM_ext I (upto (rows gr))
           (λ r g', forM (upto (cols g')) (mazeCell hit img r) g')
           (λ r g', forM (upto (cols g')) (touch (mazeNode hit img) r) g')).
  - done.
  - intros r g Hr Hg. by apply Hrow.
  - intros r g g' Hr Hg. by apply Hrow.
Qed.

(** X20: the random maze.  On a grid with its invariant [generateMaze]
    ends without an exception and keeps the invariant, the start and the
    goal; afterwards a cell is an obstacle exactly when the draw made for
    it fell below the density and it is neither the start nor the goal -
    whether or not that leaves a path: when every draw falls below the
    density and the goal is not next to the start, no path is left. *)
Theorem generateMaze_walls hit img gr s e :
  grid_inv gr → startNode gr = Some s → endNode gr = Some e →
  ∃ gr', generateMaze hit img gr = Some (Normal tt gr') ∧ grid_inv gr' ∧
    startNode gr' = Some s ∧ endNode gr' = Some e ∧
    rows gr' = rows gr ∧ cols gr' = cols gr ∧
    (∀ q n, nodeAt (nodes gr') q = Some n →
            isWall n = hit q && negb (bool_decide (q = s))
                             && negb (bool_decide (q = e))) ∧
    ((∀ q, hit q = true) → ¬ adjacent s e → ∀ l, ¬ route (nodes gr') s e l).
Proof.
  intros Hinv Es Ee.
  destruct (clearWalls_inv gr Hinv) as (gr1 & E1 & Hinv1 & Hf1 & Egr1).
  pose proof Hinv1 as [Hsh1 _].
  set (gr2 := set_nodes ((λ rw : list Node, mazeNode hit img <$> rw) <$> nodes gr1) gr1).
  assert (flags gr2 (λ q, bool_decide (q = s)) (λ q, bool_decide (q = e))
            (λ q, hit q && negb (bool_decide (q = s)) && negb (bool_decide (q = e))))
    as Hf2.
  { eapply flags_set_nodes_fmap; [exact Hf1|]. intros q n Hn.
    destruct (Hf1 q n Hn) as (H1 & H2 & H3).
    destruct (shape_nodeAt _ _ _ Hsh1 Hn) as [Hpos _].
    rewrite Es in H1. rewrite Ee in H2.
    assert (isStart n = bool_decide (q = s)) as H1'.
    { rewrite H1. apply bool_decide_ext. naive_solver. }
    assert (isEnd n = bool_decide (q = e)) as H2'.
    { rewrite H2. apply bool_decide_ext. naive_solver. }
    unfold mazeNode. rewrite Hpos, H1', H2'.
    destruct (bool_decide (q = s)) eqn:B1, (bool_decide (q = e)) eqn:B2,
      (hit q) eqn:B3; simpl; rewrite ?H1', ?H2', ?H3, ?B1, ?B2; done. }
  assert (gr1 = set_nodes (nodes gr1) gr) as Egr1' by done.
  assert (startNode gr1 = Some s ∧ endNode gr1 = Some e ∧
          rows gr1 = rows gr ∧ cols gr1 = cols gr) as (Es1 & Ee1 & ER1 & EC1).
  { rewrite Egr1. done. }
  assert (grid_inv gr2) as Hinv2.
  { apply grid_inv_flags. split.
    { apply shape_fmap; [done|]. apply mazeNode_rowcol. }
    apply grid_inv_flags in Hinv1.
    destruct Hinv1 as (_ & s1 & e1 & _ & Es1' & Ee1' & Hne & Hss & Hse & _).
    assert (s1 = s) as -> by congruence. assert (e1 = e) as -> by congruence.
    eexists s, e, _. split_and!; [done|done|done| | |exact Hf2|].
    - unfold gr2. cbn [nodes set_nodes]. rewrite nodeAt_fmap. by apply fmap_is_Some.
    - unfold gr2. cbn [nodes set_nodes]. rewrite nodeAt_fmap. by apply fmap_is_Some.
    - intros q Hq. simpl in Hq.
      apply andb_true_iff in Hq as [Hq Hqe]. apply andb_true_iff in Hq as [_ Hqs].
      apply negb_true_iff, bool_decide_eq_false in Hqs, Hqe. done. }
  assert (ready (newAStar gr2) s e) as Hready by by apply grid_inv_ready.
  destruct (findPath_resolves _ s e Hready) as (r & a' & E).
  pose proof Hinv2 as [Hsh2 _].
  assert (scrubbed (grid a') = scrubbed gr2) as Escr.
  { apply (findPath_scrubbed (newAStar gr2) a' Hsh2). by rewrite E. }
  assert (∀ q n, nodeAt (nodes (grid a')) q = Some n →
            isWall n = hit q && negb (bool_decide (q = s))
                             && negb (bool_decide (q = e))) as Hwalls.
  { intros q n' Hn'. pose proof (scrubbed_nodeAt gr2 (grid a') q Escr) as Hq.
    rewrite Hn' in Hq. destruct (nodeAt (nodes gr2) q) as [n|] eqn:Hn; [|done].
    apply (inj Some) in Hq. apply (f_equal isWall) in Hq. simpl in Hq.
    rewrite Hq. by destruct (Hf2 q n Hn) as (_ & _ & ->). }
  exists (grid a'). split_and!.
  - unfold generateMaze, mbind, M_bind. rewrite E1.
    rewrite forCells_mazeCell by done. fold gr2.
    unfold ensurePathExists. by rewrite E.
  - by apply (grid_inv_scrubbed gr2).
  - apply (f_equal startNode) in Escr. simpl in Escr. by rewrite Escr.
  - apply (f_equal endNode) in Escr. simpl in Escr. by rewrite Escr.
  - apply (f_equal rows) in Escr. simpl in Escr. by rewrite Escr.
  - apply (f_equal cols) in Escr. simpl in Escr. by rewrite Escr.
  - done.
  - intros Hall Hadj l.
    assert (s ≠ e) as Hne.
    { destruct Hinv as [_ Hi]. rewrite Es, Ee in Hi. by destruct Hi. }
    apply (sealed_no_route _ [s]).
    + apply Forall_singleton. apply Forall_forall. intros q Hq Hfree.
      apply elem_of_nbrs in Hq. unfold passable in Hfree.
      destruct (nodeAt (nodes (grid a')) q) as [n|] eqn:Hn; [|done].
      rewrite (Hwalls q n Hn), Hall in Hfree. simpl in Hfree.
      destruct (decide (q = s)) as [->|Hqs].
      { unfold adjacent in Hq. lia. }
      destruct (decide (q = e)) as [->|Hqe]; [done|].
      rewrite !bool_decide_eq_false_2 in Hfree by done. done.
    + by left.
    + by intros ->%list_elem_of_singleton.
Qed.

Lemma generateMaze_walls_witness :
  grid_inv grid3 ∧
  ∃ gr', generateMaze (λ _, true) (λ _, true) grid3 = Some (Normal tt gr') ∧
         layout_inv gr' ∧ ∀ l, ¬ route (nodes gr') (0, 0) (2, 2) l.
Proof.
  assert (grid_inv grid3) as Hi
    by (apply (bool_decide_unpack _); vm_compute; exact I).
  split; [exact Hi|].
  destruct (generateMaze_walls (λ _, true) (λ _, true) grid3 (0, 0) (2, 2)
              Hi eq_refl eq_refl) as (gr' & E & Hinv & _ & _ & _ & _ & _ & H).
  exists gr'. split; [exact E|]. split; [exact (grid_inv_layout gr' Hinv)|].
  apply H; [reflexivity|]. vm_compute. discriminate.
Defined.
(** ** Painting cells *)

Lemma painted_dims fn cells gr :
  rows (painted fn cells gr) = rows gr ∧ cols (painted fn cells gr) = cols gr ∧
  startNode (painted fn cells gr) = startNode gr ∧
  endNode (painted fn cells gr) = endNode gr.
Proof. done. Qed.

Lemma painted_shape fn cells gr :
  (∀ n, row (fn n) = row n ∧ col (fn n) = col n) →
  shape gr → shape (painted fn cells gr).
Proof.
  intros Hfn Hs. apply shape_set_nodes; [done|]. generalize (nodes gr).
  induction cells as [|q cells IH]; intros ns; [done|]. simpl.
  rewrite IH. by apply coords_updNode.
Qed.

Lemma painted_app fn l1 l2 gr :
  painted fn (l1 ++ l2) gr = painted fn l2 (painted fn l1 gr).
Proof. unfold painted. simpl. by rewrite fold_left_app. Qed.

Lemma painted_nil fn gr : painted fn [] gr = gr.
Proof. unfold painted. simpl. apply set_nodes_nodes. Qed.

Lemma nodeAt_painted fn cells gr q :
  (∀ n, fn (fn n) = fn n) →
  nodeAt (nodes (painted fn cells gr)) q
  = (if decide (q ∈ cells) then fn else id) <$> nodeAt (nodes gr) q.
Proof.
  intros Hfn. unfold painted. cbn [nodes set_nodes]. generalize (nodes gr).
  induction cells as [|p cells IH]; intros ns.
  - simpl. by destruct (nodeAt ns q).
  - simpl. rewrite IH, nodeAt_updNode.
    destruct (nodeAt ns q) as [n|]; [|by repeat case_decide]. simpl.
    destruct (decide (p = q)) as [->|Hpq].
    + rewrite (decide_True (P := q ∈ q :: cells)) by by left.
      destruct (decide (q ∈ cells)); simpl; by rewrite ?Hfn.
    + destruct (decide (q ∈ cells)) as [Hq|Hq].
      * rewrite decide_True by by right. done.
      * rewrite decide_False; [done|]. rewrite elem_of_cons. naive_solver.
Qed.

(** A loop whose body paints cells paints the cells of all its rounds. *)
Lemma forM_painted {A : Type} fn (cellsOf : A → list Ref) (l : list A)
    (body : A → M unit) gr :
  (∀ n, row (fn n) = row n ∧ col (fn n) = col n) →
  shape gr →
  (∀ x g, x ∈ l → shape g → rows g = rows gr → cols g = cols gr →
          body x g = Normal tt (painted fn (cellsOf x) g)) →
  forM l body gr = Normal tt (painted fn (l ≫= cellsOf) gr).
Proof.
  intros Hfn. revert gr. induction l as [|x l IH]; intros gr Hs Hbody.
  - simpl. by rewrite painted_nil.
  - cbn [forM]. unfold mbind at 1, M_bind.
    rewrite (Hbody x gr) by (done || by left).
    rewrite IH.
    + by rewrite bind_cons, painted_app.
    + by apply painted_shape.
    + intros y g Hy Hg HR HC. apply Hbody; [by right|done..].
Qed.

Lemma dragWall_fields u n :
  row (dragWall u n) = row n ∧ col (dragWall u n) = col n ∧
  isStart (dragWall u n) = isStart n ∧ isEnd (dragWall u n) = isEnd n ∧
  isWall (dragWall u n) = true ∧ weight (dragWall u n) = weight n.
Proof. done. Qed.

Lemma plantNode_fields img n :
  row (plantNode img n) = row n ∧ col (plantNode img n) = col n ∧
  isStart (plantNode img n) = isStart n ∧ isEnd (plantNode img n) = isEnd n ∧
  isWall (plantNode img n) = (negb (isStart n) && negb (isEnd n)) || isWall n ∧
  weight (plantNode img n) = weight n.
Proof. unfold plantNode. by destruct (_ && _). Qed.

Lemma plantNode_idemp img n : plantNode img (plantNode img n) = plantNode img n.
Proof.
  unfold plantNode. destruct (negb (isStart n) && negb (isEnd n)) eqn:E; simpl.
  - by rewrite E.
  - by rewrite E.
Qed.

Lemma plant_spec img gr r c :
  shape gr →
  plant (img (r, c)) r c gr = Normal tt (painted (plantNode img) [(r, c)] gr).
Proof.
  intros Hs. unfold plant, mbind, M_bind, painted. rewrite getNode_spec by done.
  cbn [fold_left].
  destruct (nodeAt (nodes gr) (r, c)) as [n|] eqn:Hn; simpl.
  - destruct (shape_nodeAt _ _ _ Hs Hn) as [[= Hr Hc] _].
    destruct (negb (isStart n) && negb (isEnd n)) eqn:Hu.
    + unfold modify. f_equal. f_equal. apply updNode_ext.
      intros m Hm. assert (m = n) as -> by congruence.
      unfold plantNode. by rewrite Hu, Hr, Hc.
    + unfold mret, M_ret. f_equal. rewrite updNode_id; [by rewrite set_nodes_nodes|].
      intros m Hm. assert (m = n) as -> by congruence.
      unfold plantNode. by rewrite Hu.
  - unfold mret, M_ret. f_equal. rewrite updNode_id; [by rewrite set_nodes_nodes|].
    intros m Hm. congruence.
Qed.

Lemma elem_of_stride c C : c ∈ stride 2 4 (Some C) ↔ 2 ≤ c < C ∧ c mod 4 = 2.
Proof.
  unfold stride. rewrite list_elem_of_fmap. split.
  - intros (j & -> & Hj). apply elem_of_seqZ in Hj.
    revert Hj. Z.div_mod_to_equations. lia.
  - intros [Hc Hm]. exists ((c - 2) / 4). rewrite elem_of_seqZ.
    revert Hm. Z.div_mod_to_equations. lia.
Qed.
(** ** The pattern of walls with a gap *)

Lemma simpleWalls_spec img gr :
  shape gr →
  simpleWalls img gr
  = Normal tt (painted (plantNode img) (wallCells (rows gr) (cols gr))
                 (set_nodes ((λ rw : list Node, clearWall <$> rw) <$> nodes gr) gr)).
Proof.
  intros Hs. unfold simpleWalls, mbind at 1, M_bind.
  rewrite clearWalls_spec by done.
  set (gr1 := set_nodes _ gr).
  assert (shape gr1) as Hs1 by (apply shape_fmap; [done|apply clearWall_rowcol]).
  assert (∀ n, row (plantNode img n) = row n ∧ col (plantNode img n) = col n) as Hfn.
  { intros n. by destruct (plantNode_fields img n) as (? & ? & _). }
  change (cols gr1) with (cols gr). unfold wallCells.
  apply (forM_painted (plantNode img)
           (λ c, upto (rows gr) ≫= λ r, if offMiddle (rows gr) r then [(r, c)] else []));
    [done|done|].
  intros c g _ Hg HR HC. rewrite HR. change (rows gr1) with (rows gr).
  apply (forM_painted (plantNode img)
           (λ r, if offMiddle (rows gr) r then [(r, c)] else [])); [done|done|].
  intros r g' _ Hg' HR' _. rewrite HR', HR. change (rows gr1) with (rows gr).
  destruct (offMiddle (rows gr) r).
  - by apply plant_spec.
  - by rewrite painted_nil.
Qed.

Lemma elem_of_wallCells R C q :
  q ∈ wallCells (Some R) (Some C) ↔
  (2 ≤ q.2 < C ∧ q.2 mod 4 = 2) ∧ 0 ≤ q.1 < R ∧ q.1 ≠ R / 2 ∧ q.1 ≠ R / 2 - 1.
Proof.
  unfold wallCells. rewrite list_elem_of_bind. split.
  - intros (c & Hq & Hc). apply elem_of_stride in Hc.
    apply list_elem_of_bind in Hq as (r & Hq & Hr).
    apply elem_of_upto in Hr as (R' & [= <-] & Hr).
    destruct (offMiddle (Some R) r) eqn:Ho; [|by apply elem_of_nil in Hq].
    apply list_elem_of_singleton in Hq as ->. simpl.
    unfold offMiddle, half in Ho. simpl in Ho.
    apply andb_true_iff in Ho as [H1 H2].
    apply bool_decide_eq_true in H1, H2. split_and!; try done; try lia; congruence.
  - intros (Hc & Hr & H1 & H2). exists q.2. split; [|by apply elem_of_stride].
    apply list_elem_of_bind. exists q.1. split.
    + assert (offMiddle (Some R) q.1 = true) as ->.
      { unfold offMiddle, half. simpl. apply andb_true_iff.
        split; apply bool_decide_eq_true; congruence. }
      destruct q. by left.
    + apply elem_of_upto. by exists R.
Qed.

Lemma painted_plant_inv img cells gr :
  grid_inv gr → grid_inv (painted (plantNode img) cells gr).
Proof.
  rewrite !grid_inv_flags.
  intros (Hs & s & e & fw & Es & Ee & Hne & Hss & Hse & Hf & Hw).
  assert (∀ n, row (plantNode img n) = row n ∧ col (plantNode img n) = col n) as Hfn.
  { intros n. by destruct (plantNode_fields img n) as (? & ? & _). }
  split; [by apply painted_shape|].
  exists s, e, (λ q, (bool_decide (q ∈ cells) && negb (bool_decide (q = s))
                      && negb (bool_decide (q = e))) || fw q).
  split_and!; try done.
  - rewrite nodeAt_painted by apply plantNode_idemp. by apply fmap_is_Some.
  - rewrite nodeAt_painted by apply plantNode_idemp. by apply fmap_is_Some.
  - intros q n'. rewrite nodeAt_painted by apply plantNode_idemp.
    destruct (nodeAt (nodes gr) q) as [n|] eqn:Hn; [|done]. simpl.
    destruct (Hf q n Hn) as (H1 & H2 & H3). intros [= <-].
    destruct (decide (q ∈ cells)) as [Hq|Hq]; cbv beta iota.
    + destruct (plantNode_fields img n) as (_ & _ & -> & -> & -> & _).
      rewrite (bool_decide_eq_true_2 (q ∈ cells)) by done.
      by rewrite H1, H2, H3.
    + rewrite (bool_decide_eq_false_2 (q ∈ cells)) by done. done.
  - intros q Hq. apply orb_true_iff in Hq as [Hq|Hq]; [|by apply Hw].
    apply andb_true_iff in Hq as [Hq Hqe]. apply andb_true_iff in Hq as [_ Hqs].
    apply negb_true_iff, bool_decide_eq_false in Hqs, Hqe. done.
Qed.
(** A walk through the gap: from any free cell to any other, by the column
    next to a wall column, the middle row and back. *)
Lemma gap_walk (free : Ref → bool) R C s e :
  1 ≤ R → 0 ≤ s.1 < R → 0 ≤ s.2 < C → 0 ≤ e.1 < R → 0 ≤ e.2 < C →
  free s = true → free e = true →
  (∀ q, 0 ≤ q.1 < R → 0 ≤ q.2 < C → q.2 mod 4 ≠ 2 ∨ q.1 = R / 2 →
        free q = true) →
  ∃ k, walk free s k e.
Proof.
  intros HR Hs1 Hs2 He1 He2 Hs He Hfree.
  destruct s as [sr sc], e as [er ec]. simpl in *.
  set (m := R / 2).
  assert (0 ≤ m < R) as Hm by (unfold m; Z.div_mod_to_equations; lia).
  set (fs := if decide (sc mod 4 = 2) then sc - 1 else sc).
  set (fe := if decide (ec mod 4 = 2) then ec - 1 else ec).
  assert (0 ≤ fs < C ∧ fs mod 4 ≠ 2 ∧ (fs = sc ∨ fs = sc - 1)) as (Hfs & Hfsm & Hfsc).
  { unfold fs. case_decide as Hc; [|lia]. revert Hc. Z.div_mod_to_equations. lia. }
  assert (0 ≤ fe < C ∧ fe mod 4 ≠ 2 ∧ (fe = ec ∨ fe = ec - 1)) as (Hfe & Hfem & Hfec).
  { unfold fe. case_decide as Hc; [|lia]. revert Hc. Z.div_mod_to_equations. lia. }
  assert (walk free (sr, sc) (Z.to_nat (Z.abs (fs - sc))) (sr, fs)) as W1.
  { apply walk_row. intros c Hc. apply elem_of_between in Hc.
    destruct (decide (c = sc)) as [->|Hne]; [done|].
    apply Hfree; simpl; [lia|lia|]. left. assert (c = fs) as -> by lia. done. }
  assert (walk free (sr, fs) (Z.to_nat (Z.abs (m - sr))) (m, fs)) as W2.
  { apply walk_col. intros r Hr. apply elem_of_between in Hr.
    apply Hfree; simpl; [lia|lia|]. by left. }
  assert (walk free (m, fs) (Z.to_nat (Z.abs (fe - fs))) (m, fe)) as W3.
  { apply walk_row. intros c Hc. apply elem_of_between in Hc.
    apply Hfree; simpl; [lia|lia|]. by right. }
  assert (walk free (m, fe) (Z.to_nat (Z.abs (er - m))) (er, fe)) as W4.
  { apply walk_col. intros r Hr. apply elem_of_between in Hr.
    apply Hfree; simpl; [lia|lia|]. by left. }
  assert (walk free (er, fe) (Z.to_nat (Z.abs (ec - fe))) (er, ec)) as W5.
  { apply walk_row. intros c Hc. apply elem_of_between in Hc.
    destruct (decide (c = ec)) as [->|Hne]; [done|].
    apply Hfree; simpl; [lia|lia|]. left. assert (c = fe) as -> by lia. done. }
  eexists.
  apply (walk_app _ _ _ _ _ _ (walk_app _ _ _ _ _ _ (walk_app _ _ _ _ _ _
           (walk_app _ _ _ _ _ _ W1 W2) W3) W4) W5).
Qed.

(** X21: the pattern of walls with a gap.  On a grid with its invariant
    [patterns.simpleWalls] ends without an exception and keeps the
    invariant, the start and the goal; afterwards the obstacles are the
    cells of the columns 2, 6, 10, ... outside the two middle rows, the
    start and the goal excepted; and there is always a way: with unit
    weights a search on the grid returns a path from the start to the
    goal. *)
Theorem simpleWalls_solvable img gr s e R :
  grid_inv gr → unit_weights (nodes gr) →
  startNode gr = Some s → endNode gr = Some e → rows gr = Some R →
  ∃ gr', simpleWalls img gr = Normal tt gr' ∧ grid_inv gr' ∧
    startNode gr' = Some s ∧ endNode gr' = Some e ∧
    (∀ q n, nodeAt (nodes gr') q = Some n →
       (isWall n = true ↔
        q.2 mod 4 = 2 ∧ q.1 ≠ R / 2 ∧ q.1 ≠ R / 2 - 1 ∧ q ≠ s ∧ q ≠ e)) ∧
    ∃ r a', findPath (newAStar gr') = Resolved (Some r) a' ∧
            route (nodes gr') s e (Result.path r).
Proof.
  intros Hinv Hunit Es Ee ER.
  destruct (clearWalls_inv gr Hinv) as (gr1 & E1 & Hinv1 & Hf1 & Egr1).
  pose proof Hinv as [Hsh _].
  assert (gr1 = set_nodes ((λ rw : list Node, clearWall <$> rw) <$> nodes gr) gr)
    as Egr1'.
  { rewrite clearWalls_spec in E1 by done. by injection E1 as <-. }
  destruct (grid_inv_dims gr s Hinv Es) as (R' & C & ER' & EC & HR & HC).
  assert (R' = R) as -> by congruence.
  set (gr' := painted (plantNode img) (wallCells (rows gr) (cols gr)) gr1).
  assert (grid_inv gr') as Hinv' by by apply painted_plant_inv.
  pose proof Hinv' as [Hsh' Hi'].
  assert (startNode gr' = Some s ∧ endNode gr' = Some e ∧
          rows gr' = Some R ∧ cols gr' = Some C) as (Es' & Ee' & ER2 & EC2).
  { unfold gr'. rewrite Egr1'. done. }
  rewrite Es', Ee' in Hi'. destruct Hi' as (Hne & [ns Hns] & [ne Hne'] & Hcells).
  assert (∀ q n, nodeAt (nodes gr') q = Some n →
            (isWall n = true ↔
             q.2 mod 4 = 2 ∧ q.1 ≠ R / 2 ∧ q.1 ≠ R / 2 - 1 ∧ q ≠ s ∧ q ≠ e)) as Hwalls.
  { intros q n' Hn'. pose proof Hn' as Hn1.
    destruct (shape_nodeAt _ _ _ Hsh' Hn') as [_ Hb].
    rewrite ER2, EC2 in Hb. simpl in Hb.
    unfold gr' in Hn1. rewrite nodeAt_painted in Hn1 by apply plantNode_idemp.
    destruct (nodeAt (nodes gr1) q) as [n|] eqn:Hn; [|done]. simpl in Hn1.
    destruct (Hf1 q n Hn) as (H1 & H2 & H3). rewrite Es in H1. rewrite Ee in H2.
    injection Hn1 as <-. rewrite ER', EC.
    destruct (decide (q ∈ wallCells (Some R) (Some C))) as [Hq|Hq]; cbv beta iota.
    - destruct (plantNode_fields img n) as (_ & _ & _ & _ & -> & _).
      rewrite H1, H2, H3, orb_false_r, andb_true_iff, !negb_true_iff,
        !bool_decide_eq_false.
      apply elem_of_wallCells in Hq. split; [|naive_solver].
      intros [? ?]. split_and!; try tauto; congruence.
    - unfold id. rewrite H3. split; [done|]. intros (? & ? & ? & _).
      destruct Hq. apply elem_of_wallCells. split_and!; try done; try lia.
      revert H. Z.div_mod_to_equations. lia. }
  assert (unit_weights (nodes gr')) as Hunit'.
  { apply Forall2_nodeAt. intros q n'. unfold gr'.
    rewrite nodeAt_painted by apply plantNode_idemp.
    rewrite Egr1'. cbn [nodes set_nodes]. rewrite nodeAt_fmap.
    destruct (nodeAt (nodes gr) q) as [n|] eqn:Hn; [|done]. simpl. intros [= <-].
    pose proof (proj1 (Forall2_nodeAt _ _) Hunit q n Hn) as Hw.
    assert (weight (clearWall n) = 1) as Hw'
      by (unfold clearWall; by destruct (isWall n)).
    destruct (decide _); [|done].
    by destruct (plantNode_fields img (clearWall n)) as (_ & _ & _ & _ & _ & ->). }
  assert (∀ q, 0 ≤ q.1 < R → 0 ≤ q.2 < C →
            q.2 mod 4 ≠ 2 ∨ q.1 = R / 2 ∨ q = s ∨ q = e →
            passable (nodes gr') q = true) as Hfree.
  { intros q Hq1 Hq2 Hq.
    destruct (shape_inb gr' q Hsh') as [n Hn]; [by rewrite ER2, EC2|].
    unfold passable. rewrite Hn.
    destruct (isWall n) eqn:Hw; [|done]. apply (Hwalls q n Hn) in Hw. naive_solver. }
  destruct (shape_nodeAt _ _ _ Hsh' Hns) as [_ Hbs].
  destruct (shape_nodeAt _ _ _ Hsh' Hne') as [_ Hbe].
  rewrite ER2, EC2 in Hbs, Hbe. simpl in Hbs, Hbe.
  destruct (gap_walk (passable (nodes gr')) R C s e) as [k Hk]; try done; try lia.
  { apply Hfree; [lia|lia|]. right. right. by left. }
  { apply Hfree; [lia|lia|]. right. right. by right. }
  { intros q Hq1 Hq2 Hq. apply Hfree; [done|done|]. tauto. }
  destruct (findPath_minimal (newAStar gr') s e k) as (r & a' & E & Hr & _);
    [by apply grid_inv_ready|done|done|].
  exists gr'. split_and!; try done.
  - rewrite simpleWalls_spec by done. by rewrite <- Egr1'.
  - by exists r, a'.
Qed.

Lemma simpleWalls_solvable_witness :
  let gr := grid_of (newGrid (Some 5) (Some 5)) in
  grid_inv gr ∧ unit_weights (nodes gr) ∧
  ∃ gr' r a', simpleWalls (λ _, true) gr = Normal tt gr' ∧
    passable (nodes gr') (0, 2) = false ∧ passable (nodes gr') (2, 2) = true ∧
    findPath (newAStar gr') = Resolved (Some r) a'.
Proof.
  intros gr.
  assert (grid_inv gr) as Hi
    by (apply (bool_decide_unpack _); vm_compute; exact I).
  assert (unit_weights (nodes gr)) as Hu
    by (apply (bool_decide_unpack _); vm_compute; exact I).
  split; [exact Hi|]. split; [exact Hu|].
  destruct (simpleWalls_solvable (λ _, true) gr (1, 1) (3, 3) 5
              Hi Hu eq_refl eq_refl eq_refl)
    as (gr' & E & _ & _ & _ & _ & r & a' & E' & _).
  exists gr', r, a'. split; [exact E|].
  split; [|split; [|exact E']].
  - vm_compute in E. injection E as <-. reflexivity.
  - vm_compute in E. injection E as <-. reflexivity.
Defined.
Lemma reconstructPath_chain_witness :
  reconstructPath 1 (nodes grid3) (Some (0, 0)) [] = Some [(0, 0)] ∧
  ∀ fuel, reconstructPath fuel [[set_parent (Some (0, 0)) (newNode 0 0)]]
            (Some (0, 0)) [] = None.
Proof.
  split.
  - destruct (reconstructPath_chain (nodes grid3) (0, 0)) as (H & _).
    apply H. split; [|simpl; lia]. apply back_root. reflexivity.
  - destruct (reconstructPath_chain [[set_parent (Some (0, 0)) (newNode 0 0)]] (0, 0))
      as (_ & _ & H).
    apply H. intros [bl Hb]. induction bl as [|x bl IH].
    + inversion Hb.
    + inversion Hb as [p Hp|p q l Hp Hb']; subst.
      * discriminate Hp.
      * apply IH. vm_compute in Hp. by injection Hp as <-.
Defined.

Lemma handleResize_guarded_witness :
  handleResize false (Some 3) grid3_wall = Normal tt grid3_wall ∧
  ∃ gr', handleResize false (Some 10) grid3_wall = Normal tt gr' ∧
         grid_inv gr' ∧ rows gr' = Some 10.
Proof.
  destruct (handleResize_guarded grid3_wall false (Some 3)) as (g1 & E1 & _ & _ & H1).
  destruct (handleResize_guarded grid3_wall false (Some 10)) as (g2 & E2 & _ & H2 & _).
  split.
  - rewrite E1. f_equal. apply H1. right. intros n [= <-]. lia.
  - exists g2. split; [exact E2|].
    destruct (H2 10 eq_refl eq_refl) as (Hi & HR & _); [lia|].
    split; [exact Hi|exact HR].
Defined.

(** ** [Helpers.importGrid] *)

Lemma importWall_spec u w gr :
  shape gr →
  importWall u w gr =
  Normal tt
    (if bool_decide (is_Some (nodeAt (nodes gr) (Wall.row w, Wall.col w)))
     then set_nodes (updNode (Wall.row w, Wall.col w)
                       (λ n, set_wallType
                               (Some (orElse (Wall.type w) (getRandomWallType u)))
                               (set_isWall true n)) (nodes gr)) gr
     else gr).
Proof.
  intros Hs. unfold importWall. rewrite (bind_Normal _ _ _ _ _ (getNode_spec _ _ _ Hs)).
  by destruct (nodeAt (nodes gr) (Wall.row w, Wall.col w)) as [n|].
Qed.

Lemma importWalls_loop rnd ws gr fs fe fw :
  shape gr → flags gr fs fe fw →
  ∃ gr', forM (zip (seq 0 (length ws)) ws) (λ iw, importWall (rnd iw.1) iw.2) gr
         = Normal tt gr' ∧
    shape gr' ∧ rows gr' = rows gr ∧ cols gr' = cols gr ∧
    startNode gr' = startNode gr ∧ endNode gr' = endNode gr ∧
    flags gr' fs fe (λ q, fw q || bool_decide (q ∈ wallCoords ws)).
Proof.
  intros Hs Hf.
  set (I := λ (i : nat) (gr' : Grid),
    shape gr' ∧ rows gr' = rows gr ∧ cols gr' = cols gr ∧
    startNode gr' = startNode gr ∧ endNode gr' = endNode gr ∧
    flags gr' fs fe (λ q, fw q || bool_decide (q ∈ wallCoords (take i ws)))).
  assert (hoare (I 0%nat)
            (forM (zip (seq 0 (length ws)) ws) (λ iw, importWall (rnd iw.1) iw.2))
            (λ _, I (length (zip (seq 0 (length ws)) ws)))) as H.
  { apply hoare_forM. intros i [i' w] Hi.
    apply lookup_zip_with_Some in Hi as (? & ? & [= <- <-] & Hi' & Hw).
    intros gr1 (Hs1 & R1 & C1 & S1 & E1 & F1). cbn [fst snd].
    eexists tt, _. split; [by apply importWall_spec|].
    unfold I. rewrite (take_S_r _ _ _ Hw).
    assert (∀ q, bool_decide (q ∈ wallCoords (take i ws ++ [w]))
                 = bool_decide (q ∈ wallCoords (take i ws))
                   || bool_decide (q = (Wall.row w, Wall.col w))) as Hsn.
    { intros q. apply eq_true_iff_eq.
      rewrite orb_true_iff, !bool_decide_eq_true.
      unfold wallCoords. rewrite fmap_app, elem_of_app.
      change ((λ w0, (Wall.row w0, Wall.col w0)) <$> [w])
        with [(Wall.row w, Wall.col w)].
      by rewrite list_elem_of_singleton. }
    case_bool_decide as Hc.
    - split_and!; try done.
      + apply shape_set_nodes; [done|]. simpl. by apply coords_updNode.
      + intros q n. simpl. rewrite nodeAt_updNode, Hsn. case_decide as Hq.
        * subst q. destruct Hc as [n0 Hn0]. rewrite Hn0. simpl. intros [= <-].
          destruct (F1 _ _ Hn0) as (? & ? & ?). simpl.
          rewrite (bool_decide_eq_true_2 (_ = _)) by done.
          by rewrite !orb_true_r.
        * intros Hn. destruct (F1 _ _ Hn) as (? & ? & ->).
          rewrite (bool_decide_eq_false_2 (q = _)) by done.
          by rewrite orb_false_r.
    - split_and!; try done. intros q n Hn.
      destruct (F1 _ _ Hn) as (? & ? & ->). rewrite Hsn.
      split_and!; [done|done|].
      rewrite (bool_decide_eq_false_2 (q = _)); [by rewrite orb_false_r|].
      intros ->. apply Hc. by eexists. }
  destruct (H gr) as ([] & gr' & E & Hs' & R' & C' & S' & E' & F').
  { split_and!; try done. eapply flags_ext; [exact Hf|]. intros q _.
    split_and!; [done|done|]. unfold wallCoords. simpl.
    by rewrite ?orb_false_r. }
  exists gr'. split_and!; try done.
  rewrite length_zip_with, length_seq, Nat.min_id, firstn_all in F'. exact F'.
Qed.

Lemma importWalls_spec d rnd gr fs fe fw :
  shape gr → flags gr fs fe fw →
  ∃ gr', importWalls d rnd gr = Normal tt gr' ∧
    shape gr' ∧ rows gr' = rows gr ∧ cols gr' = cols gr ∧
    startNode gr' = startNode gr ∧ endNode gr' = endNode gr ∧
    flags gr' fs fe (λ q, fw q || listed d q).
Proof.
  intros Hs Hf. unfold importWalls, listed. destruct (Data.walls d) as [ws|]; simpl.
  - by apply importWalls_loop.
  - exists gr. split_and!; try done. eapply flags_ext; [exact Hf|]. intros q _.
    split_and!; [done|done|]. unfold wallCoords. simpl.
    by rewrite ?orb_false_r.
Qed.

Lemma dims_ok_truthy d :
  dims_ok d → falsy (Data.rows d) || falsy (Data.cols d) = false.
Proof.
  unfold dims_ok, falsy. destruct (Data.rows d) as [R|], (Data.cols d) as [C|];
    try done. intros [H1 H2].
  rewrite !bool_decide_eq_false_2 by lia. done.
Qed.

(** The grid [importGrid] has made when it starts on the wall entries. *)
Lemma importGrid_try_prefix d rnd gr :
  grid_inv gr → dims_ok d →
  ∃ gr1 gr2 gr3,
    importGrid_try d rnd gr = restoreEnds d gr3 ∧
    (gr1 = gr ∨ resize (Data.rows d) (Data.cols d) gr = Normal tt gr1) ∧
    clearWalls gr1 = Normal tt gr2 ∧
    importWalls d rnd gr2 = Normal tt gr3 ∧
    shape gr1 ∧ rows gr1 = Data.rows d ∧ cols gr1 = Data.cols d ∧
    shape gr3 ∧ rows gr3 = Data.rows d ∧ cols gr3 = Data.cols d ∧
    startNode gr3 = startNode gr1 ∧ endNode gr3 = endNode gr1 ∧
    ∀ fs fe fw, flags gr2 fs fe fw → flags gr3 fs fe (λ q, fw q || listed d q).
Proof.
  intros Hinv Hd. pose proof Hinv as [Hs _].
  assert (∃ gr1,
    (gr1 = gr ∨ resize (Data.rows d) (Data.cols d) gr = Normal tt gr1) ∧
    (if bool_decide (Data.rows d ≠ rows gr) || bool_decide (Data.cols d ≠ cols gr)
     then resize (Data.rows d) (Data.cols d) else mret tt) gr = Normal tt gr1 ∧
    shape gr1 ∧ rows gr1 = Data.rows d ∧ cols gr1 = Data.cols d)
    as (gr1 & Hor & E1 & Hs1 & R1 & C1).
  { destruct (bool_decide (Data.rows d ≠ rows gr) || bool_decide (Data.cols d ≠ cols gr))
      eqn:Hc.
    - unfold dims_ok in Hd.
      destruct (Data.rows d) as [R|] eqn:HR; [|done].
      destruct (Data.cols d) as [C|] eqn:HC; [|done]. destruct Hd as [H1 H2].
      pose proof (setDefaultStartEnd_ok
                    (initializeGrid (set_cols (Some C) (set_rows (Some R) gr))) R C
                    (initializeGrid_shape _) eq_refl eq_refl H1 H2) as E.
      eexists. split; [right; exact E|]. split; [exact E|].
      split; [apply shape_placeEnd, shape_placeStart, initializeGrid_shape|].
      destruct (placeEnd_fields (3 * R / 4, 3 * C / 4)
                  (placeStart (1 * R / 4, 1 * C / 4)
                     (initializeGrid (set_cols (Some C) (set_rows (Some R) gr)))))
        as (-> & -> & _).
      destruct (placeStart_fields (1 * R / 4, 1 * C / 4)
                  (initializeGrid (set_cols (Some C) (set_rows (Some R) gr))))
        as (-> & -> & _).
      done.
    - apply orb_false_iff in Hc as [Hc1 Hc2].
      apply bool_decide_eq_false in Hc1, Hc2.
      exists gr. split; [by left|]. split; [done|]. split; [done|].
      split; symmetry; by apply dec_stable. }
  pose proof (clearWalls_spec gr1 Hs1) as E2.
  set (gr2 := set_nodes ((λ rw : list Node, clearWall <$> rw) <$> nodes gr1) gr1) in *.
  assert (shape gr2) as Hs2.
  { apply shape_fmap; [done|]. intros n. by destruct (clearWall_flags n) as (_&_&_&?&?). }
  destruct (importWalls_spec d rnd gr2 _ _ _ Hs2 (flags_actual gr2))
    as (gr3 & E3 & Hs3 & R3 & C3 & S3 & N3 & _).
  exists gr1, gr2, gr3.
  split_and!; try done; try (unfold gr2 in *; simpl in *; congruence).
  - unfold importGrid_try. rewrite dims_ok_truthy by done.
    unfold gets at 1. unfold mbind at 1, M_bind at 1. cbn [fst snd].
    rewrite (bind_Normal _ _ _ _ _ E1), (bind_Normal _ _ _ _ _ E2).
    by rewrite (bind_Normal _ _ _ _ _ E3).
  - intros fs fe fw Hf.
    destruct (importWalls_spec d rnd gr2 _ _ _ Hs2 Hf)
      as (gr3' & E3' & _ & _ & _ & _ & _ & Hf').
    rewrite E3 in E3'. by injection E3' as <-.
Qed.

Lemma importGrid_falsy d rnd gr :
  falsy (Data.rows d) || falsy (Data.cols d) = true →
  importGrid (Some d) rnd gr = (false, gr).
Proof. intros H. unfold importGrid, importGrid_try. by rewrite H. Qed.

(** [importGrid] on a grid in use succeeds on the same payloads as
    [loadGridData]. *)
Lemma importGrid_result gr d rnd :
  grid_inv gr → (importGrid (Some d) rnd gr).1 = bool_decide (importable d).
Proof.
  intros Hinv. pose proof Hinv as [Hs _].
  apply eq_true_iff_eq. rewrite bool_decide_eq_true.
  unfold importable. destruct (decide (dims_ok d)) as [Hd|Hd].
  - destruct (importGrid_try_prefix d rnd gr Hinv Hd)
      as (gr1 & gr2 & gr3 & E & _ & _ & _ & _ & _ & _ & Hs3 & R3 & C3 & _).
    unfold importGrid. rewrite E, (restoreEnds_spec d gr3 Hs3), R3, C3.
    unfold end_ok.
    destruct (Data.startNode d) as [s|], (Data.endNode d) as [e|];
      repeat case_bool_decide; simpl; naive_solver.
  - destruct (falsy (Data.rows d) || falsy (Data.cols d)) eqn:Hf.
    { rewrite importGrid_falsy by done. simpl. naive_solver. }
    assert (bool_decide (Data.rows d ≠ rows gr) || bool_decide (Data.cols d ≠ cols gr)
            = true) as Hc.
    { destruct (bool_decide (Data.rows d ≠ rows gr)) eqn:H1; [done|].
      destruct (bool_decide (Data.cols d ≠ cols gr)) eqn:H2; [done|]. exfalso.
      apply bool_decide_eq_false in H1, H2.
      apply dec_stable in H1. apply dec_stable in H2.
      pose proof Hinv as Hinv'. apply grid_inv_flags in Hinv'.
      destruct Hinv' as (_ & s & _ & _ & Es & _).
      destruct (grid_inv_dims gr s Hinv Es) as (R & C & HR & HC & ? & ?).
      apply Hd. unfold dims_ok. by rewrite H1, H2, HR, HC. }
    destruct (restoreDims_throws d gr Hs Hd) as (gr' & E).
    unfold restoreDims, gets in E. unfold mbind at 1, M_bind at 1 in E.
    cbn [fst snd] in E. rewrite Hc in E.
    unfold importGrid, importGrid_try. rewrite Hf.
    unfold gets at 1. unfold mbind at 1, M_bind at 1. cbn [fst snd]. rewrite Hc.
    rewrite (bind_Thrown _ _ _ _ E). simpl. naive_solver.
Qed.

(** The import of a payload with positive dimensions and two distinct
    endpoints in bounds. *)
Lemma importGrid_try_ok gr d rnd :
  grid_inv gr → payload_ok d →
  ∃ gr', importGrid_try d rnd gr = Normal tt gr' ∧ grid_inv gr' ∧
    rows gr' = Data.rows d ∧ cols gr' = Data.cols d ∧
    startNode gr' = Data.startNode d ∧ endNode gr' = Data.endNode d ∧
    ∀ q n, nodeAt (nodes gr') q = Some n →
      isWall n = wallIn d (default [] (Data.walls d)) q.
Proof.
  intros Hinv [Hd Hp].
  destruct (importGrid_try_prefix d rnd gr Hinv Hd)
    as (gr1 & gr2 & gr3 & E & Hor & E2 & E3 & Hs1 & R1 & C1 & Hs3 & R3 & C3
        & S3 & N3 & F3).
  pose proof Hd as Hd'. unfold dims_ok in Hd'.
  destruct (Data.rows d) as [R|] eqn:HR; [|done].
  destruct (Data.cols d) as [C|] eqn:HC; [|done]. destruct Hd' as [H1 H2].
  destruct (Data.startNode d) as [s|] eqn:Es; [|done].
  destruct (Data.endNode d) as [e|] eqn:Ee; [|done].
  destruct Hp as (Hbs & Hbe & Hne).
  assert (2 ≤ R ∨ 2 ≤ C) as H3.
  { destruct s as [sr sc], e as [er ec]. simpl in Hbs, Hbe.
    destruct (decide (2 ≤ R)); [by left|]. destruct (decide (2 ≤ C)); [by right|].
    exfalso. apply Hne. f_equal; lia. }
  assert (grid_inv gr1) as Hinv1.
  { destruct Hor as [->|Er]; [done|].
    destruct (resize_inv gr R C H1 H2 H3) as (gr1' & Er' & ? & _).
    rewrite Er in Er'. by injection Er' as <-. }
  destruct (clearWalls_inv gr1 Hinv1) as (gr2' & E2' & Hinv2 & F2 & Hgr2).
  rewrite E2 in E2'. injection E2' as <-.
  apply F3 in F2.
  assert (startNode gr2 = startNode gr1 ∧ endNode gr2 = endNode gr1) as [S2 N2].
  { rewrite Hgr2. by destruct gr1. }
  rewrite <- S2 in S3. rewrite <- N2 in N3.
  rewrite E, (restoreEnds_spec d gr3 Hs3), Es, Ee, R3, C3.
  rewrite !bool_decide_eq_true_2 by done.
  exists (placeEnd e (placeStart s gr3)). split; [done|].
  destruct (placeStart_fields s gr3) as (PR & PC & PS & PE & _).
  destruct (placeEnd_fields e (placeStart s gr3)) as (QR & QC & QS & QE & _).
  assert (flags (placeEnd e (placeStart s gr3))
            (λ q, bool_decide (q = s)) (λ q, bool_decide (q = e))
            (wallIn d (default [] (Data.walls d)))) as Hf.
  { eapply flags_ext; [apply flags_placeEnd, flags_placeStart, F2|].
    intros q _. cbv beta. rewrite S3, PE, N3. unfold wallIn, listed.
    rewrite Es, Ee. unfold sameCell.
    assert (bool_decide (s.1 = q.1) && bool_decide (s.2 = q.2)
            = bool_decide (q = s)) as ->.
    { destruct s, q. simpl. repeat case_bool_decide; simplify_eq; done. }
    assert (bool_decide (e.1 = q.1) && bool_decide (e.2 = q.2)
            = bool_decide (q = e)) as ->.
    { destruct e, q. simpl. repeat case_bool_decide; simplify_eq; done. }
    destruct (bool_decide (q ∈ _));
      repeat case_bool_decide; simplify_eq; simpl; try done; try congruence. }
  split_and!; try congruence.
  - apply grid_inv_flags. split; [by apply shape_placeEnd, shape_placeStart|].
    exists s, e, (wallIn d (default [] (Data.walls d))).
    split_and!; try done; try congruence.
    + apply is_Some_nodeAt_placeEnd, is_Some_nodeAt_placeStart, shape_inb; [done|].
      by rewrite R3, C3.
    + apply is_Some_nodeAt_placeEnd, is_Some_nodeAt_placeStart, shape_inb; [done|].
      by rewrite R3, C3.
    + intros q. by apply wallIn_not_ends.
  - intros q n Hn. by destruct (Hf q n Hn) as (_ & _ & ?).
Qed.

(** X22: [Helpers.importGrid] checks the declared dimensions before it
    touches the grid: a payload that does not parse, or whose [rows] or
    [cols] is missing or 0, gives [false] and leaves the grid as it was.
    On a grid in use it succeeds exactly on the payloads with positive
    dimensions whose declared endpoints are in bounds, which are the
    payloads [Grid.loadGridData] accepts. *)
Theorem importGrid_verdict gr d rnd rnd' :
  grid_inv gr →
  importGrid None rnd gr = (false, gr) ∧
  (falsy (Data.rows d) || falsy (Data.cols d) = true →
   importGrid (Some d) rnd gr = (false, gr)) ∧
  (importGrid (Some d) rnd gr).1 = bool_decide (importable d) ∧
  (importGrid (Some d) rnd gr).1 = (loadGridData (Some d) rnd' gr).1.
Proof.
  intros Hinv. split; [done|]. split; [by apply importGrid_falsy|].
  split; [by apply importGrid_result|].
  rewrite importGrid_result by done. symmetry. apply loadGridData_result.
  by destruct Hinv.
Qed.

Lemma importGrid_verdict_witness :
  grid_inv grid3 ∧
  importGrid (Some (Data.mk (Some 0) (Some 3) None None None)) (λ _, true) grid3
  = (false, grid3).
Proof.
  assert (grid_inv grid3) as Hinv by (apply (bool_decide_unpack _); vm_compute; exact I).
  split; [exact Hinv|].
  destruct (importGrid_verdict grid3 (Data.mk (Some 0) (Some 3) None None None)
              (λ _, true) (λ _, true) Hinv) as (_ & H & _).
  apply H. reflexivity.
Defined.

(** X23: on a payload with positive dimensions and two distinct
    endpoints in bounds, [Helpers.importGrid] and [Grid.loadGridData]
    both return [true] and leave grids of the same dimensions with the
    same start, the same goal and the same obstacle cells, although
    only [loadGridData] skips the wall entries that sit on a declared
    endpoint; the grid [importGrid] leaves has the invariant. *)
Theorem importGrid_agrees gr d rnd rnd' :
  grid_inv gr → payload_ok d →
  ∃ gr1 gr2,
    importGrid (Some d) rnd gr = (true, gr1) ∧
    loadGridData (Some d) rnd' gr = (true, gr2) ∧
    grid_inv gr1 ∧
    rows gr1 = rows gr2 ∧ cols gr1 = cols gr2 ∧
    startNode gr1 = startNode gr2 ∧ endNode gr1 = endNode gr2 ∧
    ∀ q n1, nodeAt (nodes gr1) q = Some n1 →
      ∃ n2, nodeAt (nodes gr2) q = Some n2 ∧
        isWall n1 = isWall n2 ∧ isStart n1 = isStart n2 ∧ isEnd n1 = isEnd n2.
Proof.
  intros Hinv Hp.
  destruct (importGrid_try_ok gr d rnd Hinv Hp)
    as (gr1 & E1 & Hinv1 & R1 & C1 & S1 & N1 & W1).
  destruct (loadGridData_try_ok gr d rnd' Hinv Hp)
    as (gr2 & E2 & Hinv2 & R2 & C2 & S2 & N2 & W2).
  exists gr1, gr2. unfold importGrid, loadGridData. rewrite E1, E2.
  split_and!; try done; try congruence.
  intros q n1 Hn1.
  pose proof Hinv1 as Hi1. pose proof Hinv2 as Hi2.
  apply grid_inv_flags in Hi1, Hi2.
  destruct Hi1 as (Hs1 & s1 & e1 & fw1 & Es1 & Ee1 & _ & _ & _ & F1 & _).
  destruct Hi2 as (Hs2 & s2 & e2 & fw2 & Es2 & Ee2 & _ & _ & _ & F2 & _).
  destruct (shape_nodeAt _ _ _ Hs1 Hn1) as [_ Hb].
  rewrite R1, C1, <- R2, <- C2 in Hb.
  destruct (shape_inb gr2 q Hs2 Hb) as [n2 Hn2].
  exists n2. split; [done|].
  destruct (F1 q n1 Hn1) as (-> & -> & _). destruct (F2 q n2 Hn2) as (-> & -> & _).
  rewrite (W1 q n1 Hn1), (W2 q n2 Hn2).
  assert (s1 = s2) as -> by congruence. assert (e1 = e2) as -> by congruence. done.
Qed.

Lemma importGrid_agrees_witness :
  ∃ gr1 gr2,
    importGrid (Some (Data.mk (Some 3) (Some 3)
                        (Some [Wall.mk 1 1 None; Wall.mk 0 0 (Some 2)])
                        (Some (0, 0)) (Some (2, 2)))) (λ _, true) grid3
    = (true, gr1) ∧
    loadGridData (Some (Data.mk (Some 3) (Some 3)
                          (Some [Wall.mk 1 1 None; Wall.mk 0 0 (Some 2)])
                          (Some (0, 0)) (Some (2, 2)))) (λ _, false) grid3
    = (true, gr2) ∧
    startNode gr1 = startNode gr2 ∧ endNode gr1 = endNode gr2.
Proof.
  assert (grid_inv grid3) as Hinv by (apply (bool_decide_unpack _); vm_compute; exact I).
  assert (payload_ok (Data.mk (Some 3) (Some 3)
                        (Some [Wall.mk 1 1 None; Wall.mk 0 0 (Some 2)])
                        (Some (0, 0)) (Some (2, 2)))) as Hp
    by (apply (bool_decide_unpack _); vm_compute; exact I).
  destruct (importGrid_agrees grid3 _ (λ _, true) (λ _, false) Hinv Hp)
    as (gr1 & gr2 & E1 & E2 & _ & _ & _ & S & N & _).
  by exists gr1, gr2.
Defined.
